(** * Settings registry of python-lnp ([core/settings.py])

    A shallow embedding of [DFConfiguration]: the option registry, the
    text codec that reads and rewrites bracketed [[FIELD:VALUE]] tokens,
    and the version compatibility table.

    Conventions.
    - A Python [str] is a [string]; its characters are code page 437
      positions, the encoding every file is opened with.  Strings that
      hold a character outside that code page are not represented; so
      the [UnicodeEncodeError] that writing such a string raises is
      outside the embedding.
    - Every file is opened in text mode.  The content of a file is the
      text that reading it returns, in which every line end is a line
      feed; see [World] and the module [TextMode].
    - A dictionary is a [gmap]; a tuple or list is a [list].
    - A method is a computation in the monad [M]: it threads the registry,
      the file system and the error stream, and ends in a value or in a
      raised exception.  The state reached when an exception is raised is
      kept, as the mutations made before it are in Python. *)

From Stdlib Require Import ZArith Ascii String.
From stdpp Require Import gmap strings list fin_maps.

Local Open Scope Z_scope.

Arguments Ascii.eqb : simpl never.
Arguments String.eqb : simpl never.

(* ===================================================================== *)
(** * Strings *)
(* ===================================================================== *)

Module Str.

(** [s1 + s2] is [s1 +:+ s2]. *)

(** [strip_prefix p s] is [Some r] when [s = p + r]. *)
Fixpoint strip_prefix (p s : string) : option string :=
  match p with
  | "" => Some s
  | String a p' =>
      match s with
      | "" => None
      | String b s' => if Ascii.eqb a b then strip_prefix p' s' else None
      end
  end.

(** [c in s] for a character [c]. *)
Fixpoint mem (c : ascii) (s : string) : bool :=
  match s with
  | "" => false
  | String a s' => Ascii.eqb c a || mem c s'
  end.

(** [s.count(c)] for a character [c]. *)
Fixpoint count (c : ascii) (s : string) : Z :=
  match s with
  | "" => 0
  | String a s' => (if Ascii.eqb c a then 1 else 0) + count c s'
  end.

Fixpoint all (p : ascii → bool) (s : string) : bool :=
  match s with
  | "" => true
  | String a s' => p a && all p s'
  end.

Definition tail (s : string) : string :=
  match s with
  | "" => ""
  | String _ s' => s'
  end.

End Str.

Definition newline : ascii := "010"%char.
Definition carriage_return : ascii := "013"%char.

(* ===================================================================== *)
(** * The fragment of [re] and [str] the module uses *)
(* ===================================================================== *)

Module Re.

(** An anchored matcher tries the pattern at the start of the subject
    and returns the captured groups with the unread rest. *)
Definition matcher (G : Type) := string → option (G * string).

(** [re.search]: the leftmost position where the pattern matches.
    The result is the text before the match, the groups and the text
    after the match. *)
Fixpoint search {G} (m : matcher G) (s : string)
  : option (string * G * string) :=
  match m s with
  | Some (g, r) => Some ("", g, r)
  | None =>
      match s with
      | "" => None
      | String c s' =>
          match search m s' with
          | Some (pre, g, r) => Some (String c pre, g, r)
          | None => None
          end
      end
  end.

(** [re.sub] and [str.replace] without a count: every match, found left
    to right in what the previous match left unread, is replaced.  The
    fuel bounds the number of matches; each match of the patterns below
    reads at least one character, so the length of the subject is
    enough. *)
Fixpoint sub_fuel {G} (n : nat) (m : matcher G) (repl : G → string)
  (s : string) : string :=
  match n with
  | O => s
  | S n' =>
      match search m s with
      | None => s
      | Some (pre, g, r) => pre +:+ repl g +:+ sub_fuel n' m repl r
      end
  end.

Definition sub {G} (m : matcher G) (repl : G → string) (s : string)
  : string :=
  sub_fuel (String.length s) m repl s.

(** [re.findall]: the groups of every match, left to right. *)
Fixpoint findall_fuel {G} (n : nat) (m : matcher G) (s : string)
  : list G :=
  match n with
  | O => []
  | S n' =>
      match search m s with
      | None => []
      | Some (_, g, r) => g :: findall_fuel n' m r
      end
  end.

Definition findall {G} (m : matcher G) (s : string) : list G :=
  findall_fuel (String.length s) m s.

(** A literal string as a pattern. *)
Definition lit (p : string) : matcher unit :=
  fun s => match Str.strip_prefix p s with
           | Some r => Some (tt, r)
           | None => None
           end.

(** The rest of a lazy [.+?] once its first character is read,
    followed by [\]]: characters are added to the group until the next
    one is a closing bracket; [.] does not match a line feed. *)
Fixpoint lazy_close (s : string) : option (string * string) :=
  match s with
  | "" => None
  | String c s' =>
      if Ascii.eqb c "]" then Some ("", s')
      else if Ascii.eqb c newline then None
      else match lazy_close s' with
           | Some (v, r) => Some (String c v, r)
           | None => None
           end
  end.

(** [(.+?)\]] *)
Definition value_close (s : string) : option (string * string) :=
  match s with
  | "" => None
  | String c s' =>
      if Ascii.eqb c newline then None
      else match lazy_close s' with
           | Some (v, r) => Some (String c v, r)
           | None => None
           end
  end.

(** [\[NAME:(.+?)\]] with [NAME] read as a literal. *)
Definition field_value (name : string) : matcher string :=
  fun s => match Str.strip_prefix ("[" +:+ name +:+ ":") s with
           | Some r => value_close r
           | None => None
           end.

(** [\[NAME(:.+?)\]] with [NAME] read as a literal: the group keeps the
    colon. *)
Definition field_params (name : string) : matcher string :=
  fun s => match field_value name s with
           | Some (v, r) => Some (String ":" v, r)
           | None => None
           end.

(** The rest of the first lazy group of [\[(.+?):(.+?)\]] once its
    first character is read: the group ends at the first colon after
    which [(.+?)\]] matches, and grows over any other character but a
    line feed. *)
Fixpoint name_colon_value (s : string)
  : option (string * string * string) :=
  match s with
  | "" => None
  | String c s' =>
      let grow :=
        if Ascii.eqb c newline then None
        else match name_colon_value s' with
             | Some (n, v, r) => Some (String c n, v, r)
             | None => None
             end in
      if Ascii.eqb c ":" then
        match value_close s' with
        | Some (v, r) => Some ("", v, r)
        | None => grow
        end
      else grow
  end.

(** [\[(.+?):(.+?)\]] *)
Definition any_field : matcher (string * string) :=
  fun s => match s with
           | String "[" (String c s') =>
               if Ascii.eqb c newline then None
               else match name_colon_value s' with
                    | Some (n, v, r) => Some ((String c n, v), r)
                    | None => None
                    end
           | _ => None
           end.

(** [old in s] *)
Definition contains (old s : string) : bool :=
  match search (lit old) s with
  | Some _ => true
  | None => false
  end.

(** [s.replace(old, new)] for a non-empty [old]. *)
Definition replace (old new s : string) : string :=
  sub (lit old) (fun _ => new) s.

(** The characters [re] reads as operators inside a pattern. *)
Definition special (c : ascii) : bool :=
  Str.mem c ".^$*+?{}[]\|()".

(** A name that a pattern reads as a literal. *)
Definition literal (name : string) : bool :=
  Str.all (fun c => negb (special c)) name.

(** A replacement that [re.sub] reads as a literal: without a
    backslash there is no escape and no group reference in it. *)
Definition plain_template (repl : string) : bool :=
  negb (Str.mem "\" repl).

End Re.

Example search_first :
  Re.search (Re.field_value "FPS") "x[FPS:NO] [FPS:YES]"
  = Some ("x", "NO", " [FPS:YES]").
Proof. reflexivity. Qed.

Example search_lazy_bracket :
  Re.search (Re.field_value "F") "[F:] [G:2]" = Some ("", "] [G:2", "").
Proof. reflexivity. Qed.

Example findall_two :
  Re.findall Re.any_field "[A:1:2]
[B:x]" = [("A", "1:2"); ("B", "x")].
Proof. reflexivity. Qed.

Example replace_all :
  Re.replace "[AQUIFER]" "!AQUIFER!" "a[AQUIFER]b[AQUIFER]"
  = "a!AQUIFER!b!AQUIFER!".
Proof. reflexivity. Qed.

(* ===================================================================== *)
(** * The registry *)
(* ===================================================================== *)

(** The [values] argument of [create_option]: [None], a tuple of valid
    values, or one of the three markers [_disabled], [_force_bool] and
    [_negated_bool]. *)
Inductive values :=
| NoValues
| Items (items : list string)
| Disabled
| ForceBool
| NegatedBool.

Global Instance values_eq_dec : EqDecision values.
Proof. solve_decision. Defined.

(** What the registry asks of the [df_info] object it is given: the
    variation flags, and the comparisons of its [version] with a string.
    [version_ge s] is [s <= df_info.version] and [version_lt s] is
    [df_info.version < s]. *)
Record DFInfo := {
  variations : list string;
  version_ge : string → bool;
  version_lt : string → bool;
}.

(** A [df_info] whose version is a plain [str], compared as Python
    compares strings. *)
Definition str_info (version : string) (vars : list string) : DFInfo :=
  {| variations := vars;
     version_ge := fun s => String.leb s version;
     version_lt := fun s => String.ltb version s |}.

Record DFConfiguration := {
  base_dir : string;
  settings : gmap string string;
  options : gmap string values;
  field_names : gmap string string;
  inverse_field_names : gmap string string;
  files : gmap string (list string);
  in_files : gmap (list string) (list string);
  df_info : DFInfo;
}.

(** The registry that [__init__] builds before its first
    [create_option]. *)
Definition empty_configuration (dir : string) (info : DFInfo)
  : DFConfiguration :=
  {| base_dir := dir; settings := ∅; options := ∅; field_names := ∅;
     inverse_field_names := ∅; files := ∅; in_files := ∅;
     df_info := info |}.

(** The registry, the files by name and what was printed to
    [sys.stderr].

    [disk] gives, for each file that can be opened, the text that
    [open(filename, 'r', encoding='cp437').read()] returns: the bytes of
    the file decoded, with each of its line ends, whether a line feed, a
    carriage return or the two in a row, read as one line feed.  The
    bytes themselves are not part of the state: two files that differ
    in their line ends only have the same text.  A text that is read
    holds no carriage return ([text_mode_read_no_cr] below). *)
Record World := {
  self : DFConfiguration;
  disk : gmap string string;
  stderr : list string;
}.

Inductive exn :=
| KeyError (key : string)
| ValueError
| IndexError
| IOError
(** [re] is given a field name with an operator character or a
    replacement with a backslash: the run leaves the fragment of [re]
    that is embedded here. *)
| OutsideFragment.

Inductive outcome (A : Type) :=
| Ret (a : A)
| Raise (e : exn).
Arguments Ret {A} a.
Arguments Raise {A} e.

Definition M (A : Type) : Type := World → outcome A * World.

Definition ret {A} (a : A) : M A := fun w => (Ret a, w).
Definition raise {A} (e : exn) : M A := fun w => (Raise e, w).
Definition bind {A B} (m : M A) (k : A → M B) : M B :=
  fun w => match m w with
           | (Ret a, w') => k a w'
           | (Raise e, w') => (Raise e, w')
           end.

Global Instance M_ret : MRet M := @ret.
Global Instance M_bind : MBind M := fun A B k m => bind m k.

(** [try: m except IOError: return a] *)
Definition except_IOError {A} (m : M A) (a : A) : M A :=
  fun w => match m w with
           | (Raise IOError, w') => (Ret a, w')
           | r => r
           end.

(** [for x in xs: body x] *)
Fixpoint for_each {A} (xs : list A) (body : A → M unit) : M unit :=
  match xs with
  | [] => ret tt
  | x :: xs' => body x ;; for_each xs' body
  end.

Definition get_self : M DFConfiguration := fun w => (Ret (self w), w).

Definition set_self (f : DFConfiguration → DFConfiguration) : M unit :=
  fun w => (Ret tt, {| self := f (self w); disk := disk w;
                       stderr := stderr w |}).

(** [d[k]] *)
Definition item {V} (d : gmap string V) (k : string) : M V :=
  match d !! k with
  | Some v => ret v
  | None => raise (KeyError k)
  end.

(** Text mode, as [io.open] has it with the default [newline=None].
    On input, [TextMode.read] is applied to the decoded bytes; on
    output, [TextMode.write] is applied to the text before it is
    encoded, with [os.linesep] as line end. *)
Module TextMode.

(** Universal newlines: [\r\n] and a lone [\r] are read as [\n]. *)
Fixpoint read (raw : string) : string :=
  match raw with
  | "" => ""
  | String c raw' =>
      if Ascii.eqb c carriage_return then
        String newline
          match raw' with
          | "" => ""
          | String c' raw'' =>
              if Ascii.eqb c' newline then read raw'' else read raw'
          end
      else String c (read raw')
  end.

(** Each [\n] is written as the line end of the platform. *)
Fixpoint write (linesep text : string) : string :=
  match text with
  | "" => ""
  | String c text' =>
      (if Ascii.eqb c newline then linesep else String c "")
      +:+ write linesep text'
  end.

(** [os.linesep] is one of these. *)
Definition posix : string := String newline "".
Definition windows : string := String carriage_return (String newline "").

End TextMode.

(** [open(filename, 'r', encoding='cp437').read()] *)
Definition read_text (filename : string) : M string :=
  fun w => match disk w !! filename with
           | Some text => (Ret text, w)
           | None => (Raise IOError, w)
           end.

(** [open(filename, 'w', encoding='cp437')], the writes and the close:
    the file holds [text] and nothing else.  What [disk] records is the
    text that is read back.  For a text without carriage return that is
    [text] itself, on either platform ([text_mode_round_trip] below);
    this is the case the definition stands for.  A carriage return in
    [text] would be read back as a line feed: the theorems that say
    what a value or a line written to a file is read back as assume
    that it holds none. *)
Definition write_text (filename text : string) : M unit :=
  fun w => (Ret tt, {| self := self w;
                       disk := <[filename := text]> (disk w);
                       stderr := stderr w |}).

(** [print(line, file=sys.stderr)] *)
Definition print_stderr (line : string) : M unit :=
  fun w => (Ret tt, {| self := self w; disk := disk w;
                       stderr := stderr w ++ [line] |}).

Definition with_settings f (c : DFConfiguration) : DFConfiguration :=
  {| base_dir := base_dir c; settings := f (settings c);
     options := options c; field_names := field_names c;
     inverse_field_names := inverse_field_names c; files := files c;
     in_files := in_files c; df_info := df_info c |}.

Definition with_options f (c : DFConfiguration) : DFConfiguration :=
  {| base_dir := base_dir c; settings := settings c;
     options := f (options c); field_names := field_names c;
     inverse_field_names := inverse_field_names c; files := files c;
     in_files := in_files c; df_info := df_info c |}.

Definition with_field_names f (c : DFConfiguration) : DFConfiguration :=
  {| base_dir := base_dir c; settings := settings c;
     options := options c; field_names := f (field_names c);
     inverse_field_names := inverse_field_names c; files := files c;
     in_files := in_files c; df_info := df_info c |}.

Definition with_inverse_field_names f (c : DFConfiguration)
  : DFConfiguration :=
  {| base_dir := base_dir c; settings := settings c;
     options := options c; field_names := field_names c;
     inverse_field_names := f (inverse_field_names c); files := files c;
     in_files := in_files c; df_info := df_info c |}.

Definition with_files f (c : DFConfiguration) : DFConfiguration :=
  {| base_dir := base_dir c; settings := settings c;
     options := options c; field_names := field_names c;
     inverse_field_names := inverse_field_names c; files := f (files c);
     in_files := in_files c; df_info := df_info c |}.

Definition with_in_files f (c : DFConfiguration) : DFConfiguration :=
  {| base_dir := base_dir c; settings := settings c;
     options := options c; field_names := field_names c;
     inverse_field_names := inverse_field_names c; files := files c;
     in_files := f (in_files c); df_info := df_info c |}.

(* ===================================================================== *)
(** * The version compatibility table *)
(* ===================================================================== *)

(** [c.lower() != c]: the capital letters of code page 437, which are
    A to Z and thirteen accented and Greek capitals. *)
Definition lowered (c : ascii) : bool :=
  let n := nat_of_ascii c in
  ((65 <=? n)%nat && (n <=? 90)%nat)
  || bool_decide (n ∈ [128; 142; 143; 144; 146; 153; 154; 165;
                       226; 228; 232; 233; 234]%nat).

(** [data] of [version_has_option].  The first version of an entry is
    the first one with the tag; the second, if present, is the first one
    without it. *)
Definition data : list (string * list string) := [
    ("EXTENDED_ASCII", ["0.21.93.19a"; "0.21.104.19d"]);
    ("BLACK_B", ["0.21.93.19a"; "0.31.04"]);
    ("BLACK_G", ["0.21.93.19a"; "0.31.04"]);
    ("BLACK_R", ["0.21.93.19a"; "0.31.04"]);
    ("BLUE_B", ["0.21.93.19a"; "0.31.04"]);
    ("BLUE_G", ["0.21.93.19a"; "0.31.04"]);
    ("BLUE_R", ["0.21.93.19a"; "0.31.04"]);
    ("BROWN_B", ["0.21.93.19a"; "0.31.04"]);
    ("BROWN_G", ["0.21.93.19a"; "0.31.04"]);
    ("BROWN_R", ["0.21.93.19a"; "0.31.04"]);
    ("CYAN_B", ["0.21.93.19a"; "0.31.04"]);
    ("CYAN_G", ["0.21.93.19a"; "0.31.04"]);
    ("CYAN_R", ["0.21.93.19a"; "0.31.04"]);
    ("DGRAY_B", ["0.21.93.19a"; "0.31.04"]);
    ("DGRAY_G", ["0.21.93.19a"; "0.31.04"]);
    ("DGRAY_R", ["0.21.93.19a"; "0.31.04"]);
    ("GREEN_B", ["0.21.93.19a"; "0.31.04"]);
    ("GREEN_G", ["0.21.93.19a"; "0.31.04"]);
    ("GREEN_R", ["0.21.93.19a"; "0.31.04"]);
    ("LBLUE_B", ["0.21.93.19a"; "0.31.04"]);
    ("LBLUE_G", ["0.21.93.19a"; "0.31.04"]);
    ("LBLUE_R", ["0.21.93.19a"; "0.31.04"]);
    ("LCYAN_B", ["0.21.93.19a"; "0.31.04"]);
    ("LCYAN_G", ["0.21.93.19a"; "0.31.04"]);
    ("LCYAN_R", ["0.21.93.19a"; "0.31.04"]);
    ("LGRAY_B", ["0.21.93.19a"; "0.31.04"]);
    ("LGRAY_G", ["0.21.93.19a"; "0.31.04"]);
    ("LGRAY_R", ["0.21.93.19a"; "0.31.04"]);
    ("LGREEN_B", ["0.21.93.19a"; "0.31.04"]);
    ("LGREEN_G", ["0.21.93.19a"; "0.31.04"]);
    ("LGREEN_R", ["0.21.93.19a"; "0.31.04"]);
    ("LMAGENTA_B", ["0.21.93.19a"; "0.31.04"]);
    ("LMAGENTA_G", ["0.21.93.19a"; "0.31.04"]);
    ("LMAGENTA_R", ["0.21.93.19a"; "0.31.04"]);
    ("LRED_B", ["0.21.93.19a"; "0.31.04"]);
    ("LRED_G", ["0.21.93.19a"; "0.31.04"]);
    ("LRED_R", ["0.21.93.19a"; "0.31.04"]);
    ("MAGENTA_B", ["0.21.93.19a"; "0.31.04"]);
    ("MAGENTA_G", ["0.21.93.19a"; "0.31.04"]);
    ("MAGENTA_R", ["0.21.93.19a"; "0.31.04"]);
    ("RED_B", ["0.21.93.19a"; "0.31.04"]);
    ("RED_G", ["0.21.93.19a"; "0.31.04"]);
    ("RED_R", ["0.21.93.19a"; "0.31.04"]);
    ("WHITE_B", ["0.21.93.19a"; "0.31.04"]);
    ("WHITE_G", ["0.21.93.19a"; "0.31.04"]);
    ("WHITE_R", ["0.21.93.19a"; "0.31.04"]);
    ("YELLOW_B", ["0.21.93.19a"; "0.31.04"]);
    ("YELLOW_G", ["0.21.93.19a"; "0.31.04"]);
    ("YELLOW_R", ["0.21.93.19a"; "0.31.04"]);
    ("DISPLAY_LENGTH", ["0.21.93.19a"]);
    ("FONT", ["0.21.93.19a"]);
    ("FULLFONT", ["0.21.93.19a"]);
    ("FULLSCREENX", ["0.21.93.19a"]);
    ("FULLSCREENY", ["0.21.93.19a"]);
    ("MORE", ["0.21.93.19a"]);
    ("VARIED_GROUND_TILES", ["0.21.93.19a"]);
    ("WINDOWEDX", ["0.21.93.19a"]);
    ("WINDOWEDY", ["0.21.93.19a"]);
    ("INTRO", ["0.21.100.19a"]);
    ("SOUND", ["0.21.100.19a"]);
    ("KEY_HOLD_MS", ["0.21.101.19a"]);
    ("NICKNAME_ADVENTURE", ["0.21.102.19a"]);
    ("NICKNAME_DWARF", ["0.21.102.19a"]);
    ("NICKNAME_LEGENDS", ["0.21.102.19a"]);
    ("WINDOWED", ["0.21.102.19a"]);
    ("ENGRAVINGS_START_OBSCURED", ["0.21.104.19d"]);
    ("MOUSE", ["0.21.104.21a"]);
    ("MOUSE_PICTURE", ["0.21.104.21a"]);
    ("ADVENTURER_TRAPS", ["0.22.110.23a"]);
    ("BLACK_SPACE", ["0.22.120.23a"]);
    ("GRAPHICS", ["0.22.120.23a"]);
    ("GRAPHICS_BLACK_SPACE", ["0.22.120.23a"]);
    ("GRAPHICS_FONT", ["0.22.120.23a"]);
    ("GRAPHICS_FULLFONT", ["0.22.120.23a"]);
    ("GRAPHICS_FULLSCREENX", ["0.22.120.23a"]);
    ("GRAPHICS_FULLSCREENY", ["0.22.120.23a"]);
    ("GRAPHICS_WINDOWEDX", ["0.22.120.23a"]);
    ("GRAPHICS_WINDOWEDY", ["0.22.120.23a"]);
    ("FPS", ["0.22.121.23b"]);
    ("TEMPERATURE", ["0.22.121.23b"]);
    ("WEATHER", ["0.22.121.23b"]);
    ("FPS_CAP", ["0.23.130.23a"]);
    ("POPULATION_CAP", ["0.23.130.23a"]);
    ("ADVENTURER_ALWAYS_CENTER", ["0.27.169.32a"]);
    ("ADVENTURER_Z_VIEWS", ["0.27.169.32a"]);
    ("AQUIFER", ["0.27.169.32a"]);
    ("ARTIFACTS", ["0.27.169.32a"]);
    ("AUTOBACKUP", ["0.27.169.32a"]);
    ("AUTOSAVE", ["0.27.169.32a"]);
    ("CAVEINS", ["0.27.169.32a"]);
    ("CHASM", ["0.27.169.32a"]);
    ("COFFIN_NO_PETS_DEFAULT", ["0.27.169.32a"]);
    ("ECONOMY", ["0.27.169.32a"]);
    ("G_FPS_CAP", ["0.27.169.32a"]);
    ("INITIAL_SAVE", ["0.27.169.32a"]);
    ("INVADERS", ["0.27.169.32a"]);
    ("LOG_MAP_REJECTS", ["0.27.169.32a"]);
    ("PATH_COST", ["0.27.169.32a"]);
    ("RECENTER_INTERFACE_SHUTDOWN_MS", ["0.27.169.32a"]);
    ("SHOW_FLOW_AMOUNTS", ["0.27.169.32a"]);
    ("SHOW_IMP_QUALITY", ["0.27.169.32a"]);
    ("SKY", ["0.27.169.32a"]);
    ("TEXTURE_PARAM", ["0.27.169.32a"]);
    ("TOPMOST", ["0.27.169.32a"]);
    ("VOLUME", ["0.27.169.32a"]);
    ("VSYNC", ["0.27.169.32a"]);
    ("PRIORITY", ["0.27.169.33c"]);
    ("EMBARK_RECTANGLE", ["0.27.169.33g"]);
    ("PAUSE_ON_LOAD", ["0.27.169.33g"]);
    ("BABY_CHILD_CAP", ["0.27.176.38a"]);
    ("ZERO_RENT", ["0.27.176.38a"]);
    ("AUTOSAVE_PAUSE", ["0.27.176.38b"]);
    ("EMBARK_WARNING_ALWAYS", ["0.27.176.38b"]);
    ("IDLERS", ["0.28.181.39a"]);
    ("SHOW_ALL_HISTORY_IN_DWARF_MODE", ["0.28.181.39a"]);
    ("SHOW_EMBARK_CHASM", ["0.28.181.39d"; "0.31.01"]);
    ("SHOW_EMBARK_M_PIPE", ["0.28.181.39d"; "0.31.01"]);
    ("SHOW_EMBARK_M_POOL", ["0.28.181.39d"; "0.31.01"]);
    ("SHOW_EMBARK_OTHER", ["0.28.181.39d"; "0.31.01"]);
    ("SHOW_EMBARK_PIT", ["0.28.181.39d"; "0.31.01"]);
    ("SHOW_EMBARK_POOL", ["0.28.181.39d"; "0.31.01"]);
    ("SHOW_EMBARK_RIVER", ["0.28.181.39d"; "0.31.01"]);
    ("SHOW_EMBARK_TUNNEL", ["0.28.181.39d"]);
    ("GRID", ["0.28.181.39f"]);
    ("STORE_DIST_BARREL_COMBINE", ["0.28.181.40a"]);
    ("STORE_DIST_BIN_COMBINE", ["0.28.181.40a"]);
    ("STORE_DIST_BUCKET_COMBINE", ["0.28.181.40a"]);
    ("STORE_DIST_ITEM_DECREASE", ["0.28.181.40a"]);
    ("STORE_DIST_SEED_COMBINE", ["0.28.181.40a"]);
    ("FULLGRID", ["0.28.181.40b"]);
    ("PARTIAL_PRINT", ["0.28.181.40b"]);
    ("COMPRESSED_SAVES", ["0.31.01"]);
    ("TESTING_ARENA", ["0.31.01"]);
    ("WOUND_COLOR_BROKEN", ["0.31.01"]);
    ("WOUND_COLOR_FUNCTION_LOSS", ["0.31.01"]);
    ("WOUND_COLOR_INHIBITED", ["0.31.01"]);
    ("WOUND_COLOR_MINOR", ["0.31.01"]);
    ("WOUND_COLOR_MISSING", ["0.31.01"]);
    ("WOUND_COLOR_NONE", ["0.31.01"]);
    ("PILLAR_TILE", ["0.31.08"]);
    ("ZOOM_SPEED", ["0.31.13"]);
    ("ARB_SYNC", ["0.31.13"]);
    ("KEY_REPEAT_ACCEL_LIMIT", ["0.31.13"]);
    ("KEY_REPEAT_ACCEL_START", ["0.31.13"]);
    ("KEY_REPEAT_MS", ["0.31.13"]);
    ("MACRO_MS", ["0.31.13"]);
    ("PRINT_MODE", ["0.31.13"]);
    ("RESIZABLE", ["0.31.13"]);
    ("SINGLE_BUFFER", ["0.31.13"]);
    ("TRUETYPE", ["0.31.13"]);
    ("WALKING_SPREADS_SPATTER_ADV", ["0.31.16"]);
    ("WALKING_SPREADS_SPATTER_DWF", ["0.31.16"]);
    ("SET_LABOR_LISTS", ["0.34.03"]);
    ("TRACK_E", ["0.34.08"]);
    ("TRACK_EW", ["0.34.08"]);
    ("TRACK_N", ["0.34.08"]);
    ("TRACK_NE", ["0.34.08"]);
    ("TRACK_NEW", ["0.34.08"]);
    ("TRACK_NS", ["0.34.08"]);
    ("TRACK_NSE", ["0.34.08"]);
    ("TRACK_NSEW", ["0.34.08"]);
    ("TRACK_NSW", ["0.34.08"]);
    ("TRACK_NW", ["0.34.08"]);
    ("TRACK_RAMP_E", ["0.34.08"]);
    ("TRACK_RAMP_EW", ["0.34.08"]);
    ("TRACK_RAMP_N", ["0.34.08"]);
    ("TRACK_RAMP_NE", ["0.34.08"]);
    ("TRACK_RAMP_NEW", ["0.34.08"]);
    ("TRACK_RAMP_NS", ["0.34.08"]);
    ("TRACK_RAMP_NSE", ["0.34.08"]);
    ("TRACK_RAMP_NSEW", ["0.34.08"]);
    ("TRACK_RAMP_NSW", ["0.34.08"]);
    ("TRACK_RAMP_NW", ["0.34.08"]);
    ("TRACK_RAMP_S", ["0.34.08"]);
    ("TRACK_RAMP_SE", ["0.34.08"]);
    ("TRACK_RAMP_SEW", ["0.34.08"]);
    ("TRACK_RAMP_SW", ["0.34.08"]);
    ("TRACK_RAMP_W", ["0.34.08"]);
    ("TRACK_S", ["0.34.08"]);
    ("TRACK_SE", ["0.34.08"]);
    ("TRACK_SEW", ["0.34.08"]);
    ("TRACK_SW", ["0.34.08"]);
    ("TRACK_W", ["0.34.08"]);
    ("FORTRESS_SEED_CAP", ["0.40.01"]);
    ("SPECIFIC_SEED_CAP", ["0.40.01"]);
    ("TREE_BRANCH_EW", ["0.40.01"]);
    ("TREE_BRANCH_EW_DEAD", ["0.40.01"]);
    ("TREE_BRANCH_NE", ["0.40.01"]);
    ("TREE_BRANCH_NE_DEAD", ["0.40.01"]);
    ("TREE_BRANCH_NEW", ["0.40.01"]);
    ("TREE_BRANCH_NEW_DEAD", ["0.40.01"]);
    ("TREE_BRANCH_NS", ["0.40.01"]);
    ("TREE_BRANCH_NS_DEAD", ["0.40.01"]);
    ("TREE_BRANCH_NSE", ["0.40.01"]);
    ("TREE_BRANCH_NSE_DEAD", ["0.40.01"]);
    ("TREE_BRANCH_NSEW", ["0.40.01"]);
    ("TREE_BRANCH_NSEW_DEAD", ["0.40.01"]);
    ("TREE_BRANCH_NSW", ["0.40.01"]);
    ("TREE_BRANCH_NSW_DEAD", ["0.40.01"]);
    ("TREE_BRANCH_NW", ["0.40.01"]);
    ("TREE_BRANCH_NW_DEAD", ["0.40.01"]);
    ("TREE_BRANCH_SE", ["0.40.01"]);
    ("TREE_BRANCH_SE_DEAD", ["0.40.01"]);
    ("TREE_BRANCH_SEW", ["0.40.01"]);
    ("TREE_BRANCH_SEW_DEAD", ["0.40.01"]);
    ("TREE_BRANCH_SW", ["0.40.01"]);
    ("TREE_BRANCH_SW_DEAD", ["0.40.01"]);
    ("TREE_BRANCHES", ["0.40.01"]);
    ("TREE_BRANCHES_DEAD", ["0.40.01"]);
    ("TREE_CAP_FLOOR1", ["0.40.01"]);
    ("TREE_CAP_FLOOR1_DEAD", ["0.40.01"]);
    ("TREE_CAP_FLOOR2", ["0.40.01"]);
    ("TREE_CAP_FLOOR2_DEAD", ["0.40.01"]);
    ("TREE_CAP_FLOOR3", ["0.40.01"]);
    ("TREE_CAP_FLOOR3_DEAD", ["0.40.01"]);
    ("TREE_CAP_FLOOR4", ["0.40.01"]);
    ("TREE_CAP_FLOOR4_DEAD", ["0.40.01"]);
    ("TREE_CAP_PILLAR", ["0.40.01"]);
    ("TREE_CAP_PILLAR_DEAD", ["0.40.01"]);
    ("TREE_CAP_RAMP", ["0.40.01"]);
    ("TREE_CAP_RAMP_DEAD", ["0.40.01"]);
    ("TREE_CAP_WALL_E", ["0.40.01"]);
    ("TREE_CAP_WALL_E_DEAD", ["0.40.01"]);
    ("TREE_CAP_WALL_N", ["0.40.01"]);
    ("TREE_CAP_WALL_N_DEAD", ["0.40.01"]);
    ("TREE_CAP_WALL_NE", ["0.40.01"]);
    ("TREE_CAP_WALL_NE_DEAD", ["0.40.01"]);
    ("TREE_CAP_WALL_NW", ["0.40.01"]);
    ("TREE_CAP_WALL_NW_DEAD", ["0.40.01"]);
    ("TREE_CAP_WALL_S", ["0.40.01"]);
    ("TREE_CAP_WALL_S_DEAD", ["0.40.01"]);
    ("TREE_CAP_WALL_SE", ["0.40.01"]);
    ("TREE_CAP_WALL_SE_DEAD", ["0.40.01"]);
    ("TREE_CAP_WALL_SW", ["0.40.01"]);
    ("TREE_CAP_WALL_SW_DEAD", ["0.40.01"]);
    ("TREE_CAP_WALL_W", ["0.40.01"]);
    ("TREE_CAP_WALL_W_DEAD", ["0.40.01"]);
    ("TREE_ROOT_SLOPING", ["0.40.01"]);
    ("TREE_ROOT_SLOPING_DEAD", ["0.40.01"]);
    ("TREE_ROOTS", ["0.40.01"]);
    ("TREE_ROOTS_DEAD", ["0.40.01"]);
    ("TREE_SMOOTH_BRANCHES", ["0.40.01"]);
    ("TREE_SMOOTH_BRANCHES_DEAD", ["0.40.01"]);
    ("TREE_TRUNK_BRANCH_E", ["0.40.01"]);
    ("TREE_TRUNK_BRANCH_E_DEAD", ["0.40.01"]);
    ("TREE_TRUNK_BRANCH_N", ["0.40.01"]);
    ("TREE_TRUNK_BRANCH_N_DEAD", ["0.40.01"]);
    ("TREE_TRUNK_BRANCH_S", ["0.40.01"]);
    ("TREE_TRUNK_BRANCH_S_DEAD", ["0.40.01"]);
    ("TREE_TRUNK_BRANCH_W", ["0.40.01"]);
    ("TREE_TRUNK_BRANCH_W_DEAD", ["0.40.01"]);
    ("TREE_TRUNK_E", ["0.40.01"]);
    ("TREE_TRUNK_E_DEAD", ["0.40.01"]);
    ("TREE_TRUNK_EW", ["0.40.01"]);
    ("TREE_TRUNK_EW_DEAD", ["0.40.01"]);
    ("TREE_TRUNK_INTERIOR", ["0.40.01"]);
    ("TREE_TRUNK_INTERIOR_DEAD", ["0.40.01"]);
    ("TREE_TRUNK_N", ["0.40.01"]);
    ("TREE_TRUNK_N_DEAD", ["0.40.01"]);
    ("TREE_TRUNK_NE", ["0.40.01"]);
    ("TREE_TRUNK_NE_DEAD", ["0.40.01"]);
    ("TREE_TRUNK_NEW", ["0.40.01"]);
    ("TREE_TRUNK_NEW_DEAD", ["0.40.01"]);
    ("TREE_TRUNK_NS", ["0.40.01"]);
    ("TREE_TRUNK_NS_DEAD", ["0.40.01"]);
    ("TREE_TRUNK_NSE", ["0.40.01"]);
    ("TREE_TRUNK_NSE_DEAD", ["0.40.01"]);
    ("TREE_TRUNK_NSEW", ["0.40.01"]);
    ("TREE_TRUNK_NSEW_DEAD", ["0.40.01"]);
    ("TREE_TRUNK_NSW", ["0.40.01"]);
    ("TREE_TRUNK_NSW_DEAD", ["0.40.01"]);
    ("TREE_TRUNK_NW", ["0.40.01"]);
    ("TREE_TRUNK_NW_DEAD", ["0.40.01"]);
    ("TREE_TRUNK_PILLAR", ["0.40.01"]);
    ("TREE_TRUNK_PILLAR_DEAD", ["0.40.01"]);
    ("TREE_TRUNK_S", ["0.40.01"]);
    ("TREE_TRUNK_S_DEAD", ["0.40.01"]);
    ("TREE_TRUNK_SE", ["0.40.01"]);
    ("TREE_TRUNK_SE_DEAD", ["0.40.01"]);
    ("TREE_TRUNK_SEW", ["0.40.01"]);
    ("TREE_TRUNK_SEW_DEAD", ["0.40.01"]);
    ("TREE_TRUNK_SLOPING", ["0.40.01"]);
    ("TREE_TRUNK_SLOPING_DEAD", ["0.40.01"]);
    ("TREE_TRUNK_SW", ["0.40.01"]);
    ("TREE_TRUNK_SW_DEAD", ["0.40.01"]);
    ("TREE_TRUNK_W", ["0.40.01"]);
    ("TREE_TRUNK_W_DEAD", ["0.40.01"]);
    ("TREE_TWIGS", ["0.40.01"]);
    ("TREE_TWIGS_DEAD", ["0.40.01"]);
    ("STRICT_POPULATION_CAP", ["0.40.05"]);
    ("POST_PREPARE_EMBARK_CONFIRMATION", ["0.40.09"]);
    ("GRAZE_COEFFICIENT", ["0.40.13"])  ].

(** [d[k]] for a dictionary literal. *)
Fixpoint dict_get {V} (d : list (string * V)) (k : string) : option V :=
  match d with
  | [] => None
  | (k', v) :: d' => if String.eqb k k' then Some v else dict_get d' k
  end.

(** [version_has_option] reads the registry and changes nothing: it is
    a function of the registry. *)
Definition has_option (c : DFConfiguration) (option_name : string)
  : outcome bool :=
  let option_name :=
    match field_names c !! option_name with
    | Some field_name => field_name
    | None => option_name
    end in
  match option_name with
  | "" => Raise IndexError
  | String first _ =>
      if negb (lowered first) then
        (* Internal name, let it pass by *)
        Ret true
      else
        match dict_get data option_name with
        | None => Raise (KeyError option_name)
        | Some [introduced; removed] =>
            Ret (version_ge (df_info c) introduced
                 && version_lt (df_info c) removed)
        | Some (introduced :: _) =>
            Ret (version_ge (df_info c) introduced)
        | Some [] => Raise IndexError
        end
  end.

Definition version_has_option (option_name : string) : M bool :=
  fun w => (has_option (self w) option_name, w).

Definition create_option (name field_name default : string)
  (vals : values) (fs : list string) : M unit :=
  c ← get_self ;
  (* Don't allow re-registration of a known field *)
  if bool_decide (is_Some (settings c !! name))
     || bool_decide (is_Some (inverse_field_names c !! name))
  then ret tt
  else
    (* Ignore registration if version doesn't have tag *)
    set_self (with_field_names <[name := field_name]>) ;;
    supported ← version_has_option field_name ;
    if negb supported then ret tt
    else
      set_self (with_settings <[name := default]>) ;;
      set_self (with_options <[name := vals]>) ;;
      (if bool_decide (field_name ≠ name)
       then set_self (with_inverse_field_names <[field_name := name]>)
       else ret tt) ;;
      set_self (with_files <[name := fs]>) ;;
      (* setdefault(files, []) and append *)
      set_self (with_in_files
                  (fun d => <[fs := from_option id [] (d !! fs) ++ [name]]> d)).

Definition set_value (name value : string) : M unit :=
  set_self (with_settings <[name := value]>).

(** [cycle_list] is a static method: it reads no state. *)
Definition cycle_list (current : string) (items : values)
  : outcome string :=
  match items with
  | NoValues => Ret current
  | _ =>
      let items :=
        match items with
        | Items l => l
        | _ => ["YES"; "NO"]
        end in
      match list_find (fun x => x = current) items with
      | None =>
          match items with
          | [] => Raise IndexError
          | first :: _ => Ret first
          end
      | Some (i, _) =>
          match items !! ((i + 1) `mod` length items)%nat with
          | Some x => Ret x
          | None => Raise IndexError
          end
      end
  end.

Definition cycle_item (name : string) : M unit :=
  c ← get_self ;
  current ← item (settings c) name ;
  items ← item (options c) name ;
  match cycle_list current items with
  | Ret v => set_self (with_settings <[name := v]>)
  | Raise e => raise e
  end.

(* ===================================================================== *)
(** * The text codec *)
(* ===================================================================== *)

(** [["YES", "NO"][["NO", "YES"].index(value)]]: the index of [value]
    in the second list, if it has one, picks the element of the first. *)
Definition swapped (value : string) : option string :=
  if String.eqb value "NO" then Some "YES"
  else if String.eqb value "YES" then Some "NO"
  else None.

Definition swap_yes_no (value : string) : M string :=
  match swapped value with
  | Some value' => ret value'
  | None => raise ValueError
  end.

(** [re.search(r'\[{0}:(.+?)\]'.format(name), text)] *)
Definition search_field (name text : string)
  : M (option (string * string * string)) :=
  if Re.literal name then ret (Re.search (Re.field_value name) text)
  else raise OutsideFragment.

(** [re.sub(r'\[{0}:(.+?)\]'.format(name),
            '[{0}:{1}]'.format(name, value), text)] *)
Definition sub_field (name value text : string) : M string :=
  let repl := "[" +:+ name +:+ ":" +:+ value +:+ "]" in
  if Re.literal name && Re.plain_template repl
  then ret (Re.sub (Re.field_value name) (fun _ => repl) text)
  else raise OutsideFragment.

(** The body of the loop of [read_file]. *)
Definition read_field (filename text field : string) : M unit :=
  c ← get_self ;
  let field :=
    match inverse_field_names c !! field with
    | Some name => name
    | None => field
    end in
  vals ← item (options c) field ;
  if bool_decide (vals = Disabled) then
    (* If there is a single match, flag the option as enabled *)
    name ← item (field_names c) field ;
    if Re.contains ("[" +:+ name +:+ "]") text
    then set_self (with_settings <[field := "YES"]>)
    else ret tt
  else
    name ← item (field_names c) field ;
    found ← search_field name text ;
    match found with
    | Some (_, group1, _) =>
        if bool_decide (vals = ForceBool) && negb (String.eqb group1 "NO")
        then
          (* Interpret everything other than "NO" as "YES" *)
          set_self (with_settings <[field := "YES"]>)
        else
          value ← (if bool_decide (vals = NegatedBool)
                   then swap_yes_no group1 else ret group1) ;
          set_self (with_settings <[field := value]>)
    | None =>
        print_stderr ("WARNING: Expected match for field " +:+ field
                      +:+ " in file " +:+ filename
                      +:+ ". Possible DF version mismatch?")
    end.

(** [fields] is the sequence the loop goes through, as it is once the
    automatic registration is done. *)
Definition read_file (filename : string) (fields : list string)
  (auto_add : bool) : M unit :=
  text ← read_text filename ;
  (if auto_add
   then for_each (Re.findall Re.any_field text)
          (fun match_ => create_option match_.1 match_.1 match_.2 NoValues
                           [filename])
   else ret tt) ;;
  for_each fields (read_field filename text).

(** [read_value] and [has_field] are static methods: the registry plays
    no part in them. *)
Definition read_value (filename field : string) : M (option string) :=
  except_IOError
    (text ← read_text filename ;
     found ← search_field field text ;
     match found with
     | None => ret None
     | Some (_, group1, _) => ret (Some group1)
     end)
    None.

Definition has_field (filename field : string)
  (num_params min_params max_params : Z) : M bool :=
  except_IOError
    (text ← read_text filename ;
     found ← (if Re.literal field
              then ret (Re.search (Re.field_params field) text)
              else raise OutsideFragment) ;
     match found with
     | None => ret false
     | Some (_, params, _) =>
         let param_count := Str.count ":" params in
         if negb (num_params =? -1) && negb (param_count =? num_params)
         then ret false
         else if negb (min_params =? -1) && (param_count <? min_params)
         then ret false
         else if negb (max_params =? -1) && (param_count >? max_params)
         then ret false
         else ret true
     end)
    false.

(** The body of the loop of [write_file]: the text after the field is
    written into it. *)
Definition write_field (text field : string) : M string :=
  c ← get_self ;
  vals ← item (options c) field ;
  if bool_decide (vals = Disabled) then
    value ← item (settings c) field ;
    name ← item (field_names c) field ;
    if String.eqb value "NO"
    then ret (Re.replace ("[" +:+ name +:+ "]") ("!" +:+ name +:+ "!") text)
    else ret (Re.replace ("!" +:+ name +:+ "!") ("[" +:+ name +:+ "]") text)
  else
    value ← item (settings c) field ;
    value ← (if bool_decide (vals = NegatedBool)
             then swap_yes_no value else ret value) ;
    name ← item (field_names c) field ;
    sub_field name value text.

Fixpoint write_fields (text : string) (fields : list string) : M string :=
  match fields with
  | [] => ret text
  | field :: fields' =>
      text' ← write_field text field ;
      write_fields text' fields'
  end.

Definition write_file (filename : string) (fields : list string)
  : M unit :=
  text ← read_text filename ;
  text ← write_fields text fields ;
  write_text filename text.

(** [newfile.write(line)]: what is written reaches the file when it is
    closed, or when the file object is dropped after an exception.  As
    for [write_text], the text read back is the text written when it
    holds no carriage return. *)
Definition append_text (filename line : string) : M unit :=
  fun w => (Ret tt,
            {| self := self w;
               disk := <[filename := from_option id "" (disk w !! filename)
                                      +:+ line]> (disk w);
               stderr := stderr w |}).

(** The body of the loop of [create_file]. *)
Definition create_field (filename field : string) : M unit :=
  c ← get_self ;
  vals ← item (options c) field ;
  if bool_decide (vals = Disabled) then
    value ← item (settings c) field ;
    name ← item (field_names c) field ;
    if String.eqb value "NO"
    then append_text filename ("!" +:+ name +:+ "!" +:+ String newline "")
    else append_text filename ("[" +:+ name +:+ "]" +:+ String newline "")
  else
    value ← item (settings c) field ;
    value ← (if bool_decide (vals = NegatedBool)
             then swap_yes_no value else ret value) ;
    append_text filename
      ("[" +:+ field +:+ ":" +:+ value +:+ "]" +:+ String newline "").

Definition create_file (filename : string) (fields : list string)
  : M unit :=
  write_text filename "" ;;
  for_each fields (create_field filename).

(* ===================================================================== *)
(** * Runs on concrete registries *)
(* ===================================================================== *)

Definition world0 (info : DFInfo) (d : gmap string string) : World :=
  {| self := empty_configuration "df" info; disk := d; stderr := [] |}.

Definition v0_40_24 : DFInfo := str_info "0.40.24" [].
Definition v0_31_12 : DFInfo := str_info "0.31.12" [].

(* ===================================================================== *)
(** * Facts about strings *)
(* ===================================================================== *)

Lemma str_app_nil_l (s : string) : "" +:+ s = s.
Proof. reflexivity. Qed.

Lemma str_app_cons (a : ascii) (s t : string) :
  String a s +:+ t = String a (s +:+ t).
Proof. reflexivity. Qed.

Lemma str_app_nil_r (s : string) : s +:+ "" = s.
Proof. induction s as [|a s IH]; [done|]. by rewrite str_app_cons, IH. Qed.

Lemma str_app_assoc (s t u : string) : (s +:+ t) +:+ u = s +:+ t +:+ u.
Proof.
  induction s as [|a s IH]; [done|]. by rewrite !str_app_cons, IH.
Qed.

Lemma str_length_app (s t : string) :
  String.length (s +:+ t) = (String.length s + String.length t)%nat.
Proof.
  induction s as [|a s IH]; [done|]. rewrite str_app_cons. simpl. by rewrite IH.
Qed.

Lemma str_app_inv_head (s t u : string) : s +:+ t = s +:+ u → t = u.
Proof.
  induction s as [|a s IH]; [done|]. rewrite !str_app_cons. intros [=]. auto.
Qed.

Lemma str_mem_app (c : ascii) (s t : string) :
  Str.mem c (s +:+ t) = Str.mem c s || Str.mem c t.
Proof.
  induction s as [|a s IH]; [done|]. rewrite str_app_cons. simpl.
  by rewrite IH, orb_assoc.
Qed.

Lemma str_all_app (p : ascii → bool) (s t : string) :
  Str.all p (s +:+ t) = Str.all p s && Str.all p t.
Proof.
  induction s as [|a s IH]; [done|]. rewrite str_app_cons. simpl.
  by rewrite IH, andb_assoc.
Qed.

Lemma strip_prefix_app (p r : string) : Str.strip_prefix p (p +:+ r) = Some r.
Proof.
  induction p as [|a p IH]; [done|]. rewrite str_app_cons. simpl.
  by rewrite Ascii.eqb_refl.
Qed.

Lemma strip_prefix_Some (p s r : string) :
  Str.strip_prefix p s = Some r → s = p +:+ r.
Proof.
  revert s. induction p as [|a p IH]; intros s; simpl.
  - by intros [= ->].
  - destruct s as [|b s]; [done|].
    destruct (Ascii.eqb_spec a b) as [->|]; [|done].
    intros H. rewrite str_app_cons. f_equal. by apply IH.
Qed.

Lemma strip_prefix_iff (p s r : string) :
  Str.strip_prefix p s = Some r ↔ s = p +:+ r.
Proof.
  split; [apply strip_prefix_Some|]. intros ->. apply strip_prefix_app.
Qed.

(** Two ways to cut one string: one of the left parts extends the
    other. *)
Lemma str_app_eq_app (a b c d : string) :
  a +:+ b = c +:+ d →
  (∃ e, c = a +:+ e ∧ b = e +:+ d) ∨ (∃ e, a = c +:+ e ∧ d = e +:+ b).
Proof.
  revert c. induction a as [|x a IH]; intros c H.
  - left. exists c. by rewrite str_app_nil_l in *.
  - destruct c as [|y c].
    + right. exists (String x a). by rewrite str_app_nil_l in *.
    + rewrite !str_app_cons in H. injection H as -> H.
      destruct (IH _ H) as [(e & -> & ->)|(e & -> & ->)]; [left|right];
        exists e; by rewrite ?str_app_cons.
Qed.

Lemma str_length_zero (s : string) : String.length s = O → s = "".
Proof. by destruct s. Qed.

(* ===================================================================== *)
(** * Text mode *)
(* ===================================================================== *)

(** No text that is read holds a carriage return. *)
Lemma text_mode_read_no_cr (raw : string) :
  Str.mem carriage_return (TextMode.read raw) = false.
Proof.
  remember (String.length raw) as n eqn:Hn.
  revert raw Hn. induction (lt_wf n) as [n _ IH]. intros raw ->.
  destruct raw as [|c raw]; [done|]. cbn [TextMode.read].
  destruct (Ascii.eqb_spec c carriage_return) as [->|Hc].
  - cbn [Str.mem]. change (Ascii.eqb carriage_return newline) with false.
    cbn [orb]. destruct raw as [|c' raw]; [done|].
    destruct (Ascii.eqb c' newline); (eapply IH; [|done]); simpl; lia.
  - cbn [Str.mem]. rewrite Ascii.eqb_sym.
    rewrite (proj2 (Ascii.eqb_neq _ _) Hc). cbn [orb].
    eapply IH; [|done]. simpl. lia.
Qed.

(** A text without carriage return is read back as it was written,
    whatever the line end of the platform. *)
Lemma text_mode_round_trip (linesep text : string) :
  linesep = TextMode.posix ∨ linesep = TextMode.windows →
  Str.mem carriage_return text = false →
  TextMode.read (TextMode.write linesep text) = text.
Proof.
  intros Hsep. induction text as [|c text IH]; [done|].
  cbn [Str.mem TextMode.write]. intros [Hc Hcr]%orb_false_elim.
  specialize (IH Hcr). set (rest := TextMode.write linesep text) in *.
  destruct (Ascii.eqb_spec c newline) as [->|Hnl].
  - destruct Hsep as [-> | ->].
    + change (TextMode.posix +:+ rest) with (String newline rest).
      cbn [TextMode.read].
      change (Ascii.eqb newline carriage_return) with false.
      cbn iota. by rewrite IH.
    + change (TextMode.windows +:+ rest)
        with (String carriage_return (String newline rest)).
      cbn [TextMode.read]. by rewrite !Ascii.eqb_refl, IH.
  - rewrite str_app_cons, str_app_nil_l. cbn [TextMode.read].
    by rewrite Ascii.eqb_sym, Hc, IH.
Qed.

(** With a carriage return the text read back is another one, and
    depends on the platform. *)
Example text_mode_carriage_return :
  TextMode.read (TextMode.write TextMode.posix
                   (String "a" (String carriage_return "b")))
  = String "a" (String newline "b")
  ∧ TextMode.read (TextMode.write TextMode.windows
                     (String carriage_return (String newline "")))
    = String newline (String newline "").
Proof. split; reflexivity. Qed.

(* ===================================================================== *)
(** * Facts about searching and replacing *)
(* ===================================================================== *)

Section Search.
Context {G : Type} (m : Re.matcher G).

Lemma search_unfold (s : string) :
  Re.search m s =
  match m s with
  | Some (g, r) => Some ("", g, r)
  | None =>
      match s with
      | "" => None
      | String c s' =>
          match Re.search m s' with
          | Some (pre, g, r) => Some (String c pre, g, r)
          | None => None
          end
      end
  end.
Proof. by destruct s. Qed.

(** A found match starts where the text before it ends. *)
Lemma search_Some (s pre : string) (g : G) (r : string) :
  Re.search m s = Some (pre, g, r) →
  ∃ t, s = pre +:+ t ∧ m t = Some (g, r).
Proof.
  revert pre. induction s as [|c s IH]; intros pre;
    rewrite search_unfold.
  - destruct (m "") as [[g' r']|] eqn:E; [|done].
    intros [= <- <- <-]. by exists "".
  - destruct (m (String c s)) as [[g' r']|] eqn:E.
    + intros [= <- <- <-]. by exists (String c s).
    + destruct (Re.search m s) as [[[pre' g'] r']|] eqn:Es; [|done].
      intros [= <- <- <-]. destruct (IH _ eq_refl) as (t & -> & Ht).
      by exists t.
Qed.

(** No match starts before the found one. *)
Lemma search_leftmost (s pre : string) (g : G) (r : string) :
  Re.search m s = Some (pre, g, r) →
  ∀ pre' t', s = pre' +:+ t' →
    (String.length pre' < String.length pre)%nat → m t' = None.
Proof.
  revert pre. induction s as [|c s IH]; intros pre;
    rewrite search_unfold.
  - destruct (m "") as [[g' r']|] eqn:E; [|done].
    intros [= <- <- <-] pre' t' _ Hlt. simpl in Hlt. lia.
  - destruct (m (String c s)) as [[g' r']|] eqn:E.
    + intros [= <- <- <-] pre' t' _ Hlt. simpl in Hlt. lia.
    + destruct (Re.search m s) as [[[pre1 g'] r']|] eqn:Es; [|done].
      intros [= <- <- <-] pre' t' Hs Hlt.
      destruct pre' as [|c' pre'].
      * rewrite str_app_nil_l in Hs. by subst t'.
      * rewrite str_app_cons in Hs. injection Hs as <- Hs.
        apply (IH _ eq_refl pre' t' Hs). simpl in Hlt. lia.
Qed.

(** Without a match, the pattern fails at every position. *)
Lemma search_None (s : string) :
  Re.search m s = None → ∀ pre t, s = pre +:+ t → m t = None.
Proof.
  induction s as [|c s IH]; rewrite search_unfold.
  - destruct (m "") as [[g' r']|] eqn:E; [done|].
    intros _ pre t Hs. destruct pre; [|done].
    rewrite str_app_nil_l in Hs. by subst t.
  - destruct (m (String c s)) as [[g' r']|] eqn:E; [done|].
    destruct (Re.search m s) as [[[pre1 g'] r']|] eqn:Es; [done|].
    intros _ pre t Hs. destruct pre as [|c' pre].
    + rewrite str_app_nil_l in Hs. by subst t.
    + rewrite str_app_cons in Hs. injection Hs as <- Hs. by eapply IH.
Qed.

(** The leftmost position where the pattern matches is the one
    found. *)
Lemma search_intro (pre t : string) (g : G) (r : string) :
  m t = Some (g, r) →
  (∀ pre' t', pre +:+ t = pre' +:+ t' →
     (String.length pre' < String.length pre)%nat → m t' = None) →
  Re.search m (pre +:+ t) = Some (pre, g, r).
Proof.
  induction pre as [|c pre IH]; intros Hm Hleft; rewrite search_unfold.
  - rewrite str_app_nil_l, Hm. done.
  - rewrite (Hleft "" (String c pre +:+ t)); [|done|simpl; lia].
    rewrite str_app_cons, IH; [done|done|].
    intros pre' t' Hs Hlt. apply (Hleft (String c pre') t').
    + by rewrite !str_app_cons, Hs.
    + simpl. lia.
Qed.

Lemma search_None_intro (s : string) :
  (∀ pre t, s = pre +:+ t → m t = None) → Re.search m s = None.
Proof.
  intros H. destruct (Re.search m s) as [[[pre g] r]|] eqn:E; [|done].
  destruct (search_Some _ _ _ _ E) as (t & Hs & Ht).
  by rewrite (H _ _ Hs) in Ht.
Qed.

Lemma search_is_Some (pre t : string) :
  is_Some (m t) → is_Some (Re.search m (pre +:+ t)).
Proof.
  intros Ht. destruct (Re.search m (pre +:+ t)) eqn:E; [done|].
  rewrite (search_None _ E pre t eq_refl) in Ht. by destruct Ht.
Qed.

(** Every match reads at least one character. *)
Definition consumes : Prop :=
  ∀ s g r, m s = Some (g, r) → (String.length r < String.length s)%nat.

Lemma search_shorter (s pre : string) (g : G) (r : string) :
  consumes → Re.search m s = Some (pre, g, r) →
  (String.length r < String.length s)%nat.
Proof.
  intros Hc E. destruct (search_Some _ _ _ _ E) as (t & -> & Ht).
  apply Hc in Ht. rewrite str_length_app. lia.
Qed.

Lemma search_empty : consumes → Re.search m "" = None.
Proof.
  intros Hc. destruct (Re.search m "") as [[[pre g] r]|] eqn:E; [|done].
  pose proof (search_shorter _ _ _ _ Hc E) as Hlt. simpl in Hlt. lia.
Qed.

Lemma sub_fuel_enough (repl : G → string) (n k : nat) (s : string) :
  consumes → (String.length s ≤ n)%nat → (String.length s ≤ k)%nat →
  Re.sub_fuel n m repl s = Re.sub_fuel k m repl s.
Proof.
  intros Hc. revert k s. induction n as [|n IH]; intros k s Hn Hk.
  - rewrite (str_length_zero s) by lia. destruct k; [done|].
    cbn [Re.sub_fuel Re.findall_fuel]. by rewrite search_empty.
  - destruct k as [|k].
    { rewrite (str_length_zero s) by lia.
      cbn [Re.sub_fuel Re.findall_fuel]. by rewrite search_empty. }
    cbn [Re.sub_fuel Re.findall_fuel].
    destruct (Re.search m s) as [[[pre g] r]|] eqn:E; [|done].
    pose proof (search_shorter _ _ _ _ Hc E).
    f_equal. f_equal. apply IH; lia.
Qed.

(** One step of [sub]: the text before the first match is copied, the
    match is replaced, and the rest is treated the same way. *)
Lemma sub_unfold (repl : G → string) (s : string) :
  consumes →
  Re.sub m repl s =
  match Re.search m s with
  | None => s
  | Some (pre, g, r) => pre +:+ repl g +:+ Re.sub m repl r
  end.
Proof.
  intros Hc. unfold Re.sub. destruct s as [|c s].
  - cbn [String.length Re.sub_fuel Re.findall_fuel]. by rewrite search_empty.
  - change (String.length (String c s)) with (S (String.length s)).
    cbn [Re.sub_fuel].
    destruct (Re.search m (String c s)) as [[[pre g] r]|] eqn:E; [|done].
    pose proof (search_shorter _ _ _ _ Hc E) as Hlt. simpl in Hlt.
    f_equal. f_equal. apply sub_fuel_enough; [done|lia|lia].
Qed.

Lemma findall_fuel_enough (n k : nat) (s : string) :
  consumes → (String.length s ≤ n)%nat → (String.length s ≤ k)%nat →
  Re.findall_fuel n m s = Re.findall_fuel k m s.
Proof.
  intros Hc. revert k s. induction n as [|n IH]; intros k s Hn Hk.
  - rewrite (str_length_zero s) by lia. destruct k; [done|].
    cbn [Re.findall_fuel].
    by rewrite search_empty.
  - destruct k as [|k].
    { rewrite (str_length_zero s) by lia.
      cbn [Re.sub_fuel Re.findall_fuel]. by rewrite search_empty. }
    cbn [Re.sub_fuel Re.findall_fuel].
    destruct (Re.search m s) as [[[pre g] r]|] eqn:E; [|done].
    pose proof (search_shorter _ _ _ _ Hc E).
    f_equal. apply IH; lia.
Qed.

Lemma findall_unfold (s : string) :
  consumes →
  Re.findall m s =
  match Re.search m s with
  | None => []
  | Some (_, g, r) => g :: Re.findall m r
  end.
Proof.
  intros Hc. unfold Re.findall. destruct s as [|c s].
  - cbn [String.length Re.sub_fuel Re.findall_fuel]. by rewrite search_empty.
  - change (String.length (String c s)) with (S (String.length s)).
    cbn [Re.findall_fuel].
    destruct (Re.search m (String c s)) as [[[pre g] r]|] eqn:E; [|done].
    pose proof (search_shorter _ _ _ _ Hc E) as Hlt. simpl in Hlt.
    f_equal. apply findall_fuel_enough; [done|lia|lia].
Qed.

End Search.

(* ===================================================================== *)
(** * Tokens *)
(* ===================================================================== *)

(** [[NAME:VALUE]] *)
Definition token (name value : string) : string :=
  "[" +:+ name +:+ ":" +:+ value +:+ "]".

(** [[NAME]] and [!NAME!] *)
Definition enabled (name : string) : string := "[" +:+ name +:+ "]".
Definition disabled (name : string) : string := "!" +:+ name +:+ "!".

(** The values that [(.+?)\]] captures: not empty, on one line, and
    closed by the first bracket that follows their first character. *)
Definition captured (v : string) : bool :=
  negb (String.eqb v "") && negb (Str.mem newline v)
  && negb (Str.mem "]" (Str.tail v)).

Lemma lazy_close_Some (s v r : string) :
  Re.lazy_close s = Some (v, r) →
  s = v +:+ String "]" r ∧ Str.mem newline v = false
  ∧ Str.mem "]" v = false.
Proof.
  revert v. induction s as [|c s IH]; intros v; simpl; [done|].
  destruct (Ascii.eqb_spec c "]") as [->|Hc].
  { by intros [= <- <-]. }
  destruct (Ascii.eqb_spec c newline) as [->|Hn]; [done|].
  destruct (Re.lazy_close s) as [[v' r']|]; [|done].
  intros [= <- <-]. destruct (IH _ eq_refl) as (-> & Hnl & Hbr).
  rewrite ?str_app_cons; simpl. rewrite Hnl, Hbr.
  split; [done|]. split.
  - destruct (Ascii.eqb_spec newline c); [by subst|done].
  - destruct (Ascii.eqb_spec "]" c); [by subst|done].
Qed.

Lemma lazy_close_app (v r : string) :
  Str.mem newline v = false → Str.mem "]" v = false →
  Re.lazy_close (v +:+ String "]" r) = Some (v, r).
Proof.
  induction v as [|c v IH]; [done|]. simpl. intros Hnl Hbr.
  apply orb_false_elim in Hnl as [Hc1 Hnl].
  apply orb_false_elim in Hbr as [Hc2 Hbr].
  rewrite ?str_app_cons; simpl.
  rewrite Ascii.eqb_sym, Hc2, Ascii.eqb_sym, Hc1, IH; done.
Qed.

Lemma captured_cons (c : ascii) (v : string) :
  captured (String c v) = true ↔
  c ≠ newline ∧ Str.mem newline v = false ∧ Str.mem "]" v = false.
Proof.
  unfold captured. simpl.
  destruct (Ascii.eqb_spec newline c) as [<-|Hc]; simpl.
  - split; [done|]. by intros [? _].
  - destruct (Str.mem newline v), (Str.mem "]" v); simpl;
      intuition congruence.
Qed.

Lemma value_close_Some (s v r : string) :
  Re.value_close s = Some (v, r) →
  s = v +:+ String "]" r ∧ captured v = true.
Proof.
  destruct s as [|c s]; simpl; [done|].
  destruct (Ascii.eqb_spec c newline) as [->|Hn]; [done|].
  destruct (Re.lazy_close s) as [[v' r']|] eqn:E; [|done].
  intros [= <- <-]. apply lazy_close_Some in E as (-> & Hnl & Hbr).
  split; [done|]. by apply captured_cons.
Qed.

Lemma value_close_app (v r : string) :
  captured v = true → Re.value_close (v +:+ String "]" r) = Some (v, r).
Proof.
  destruct v as [|c v]; [done|].
  intros (Hc & Hnl & Hbr)%captured_cons.
  rewrite ?str_app_cons; simpl.
  destruct (Ascii.eqb_spec c newline); [done|].
  by rewrite lazy_close_app.
Qed.

Lemma token_app (name v r : string) :
  token name v +:+ r = ("[" +:+ name +:+ ":") +:+ v +:+ String "]" r.
Proof. unfold token. by rewrite !str_app_assoc. Qed.

(** The pattern [\[NAME:(.+?)\]] matches at the start of a text exactly
    when the text starts with a token of that name, and captures its
    value. *)
Lemma field_value_Some (name s v r : string) :
  Re.field_value name s = Some (v, r) ↔
  s = token name v +:+ r ∧ captured v = true.
Proof.
  unfold Re.field_value. rewrite token_app. split.
  - destruct (Str.strip_prefix _ s) as [t|] eqn:E; [|done].
    apply strip_prefix_Some in E as ->.
    by intros (-> & ?)%value_close_Some.
  - intros [-> Hv]. rewrite strip_prefix_app. by apply value_close_app.
Qed.

Lemma field_value_consumes (name : string) :
  consumes (Re.field_value name).
Proof.
  intros s v r (-> & _)%field_value_Some.
  unfold token. rewrite !str_length_app. simpl. lia.
Qed.

Lemma lit_Some (old s : string) (r : string) :
  Re.lit old s = Some (tt, r) ↔ s = old +:+ r.
Proof.
  unfold Re.lit. rewrite <- strip_prefix_iff.
  destruct (Str.strip_prefix old s); naive_solver.
Qed.

Lemma lit_consumes (old : string) : old ≠ "" → consumes (Re.lit old).
Proof.
  intros Hne s [] r ->%lit_Some. rewrite str_length_app.
  destruct old; [done|]. simpl. lia.
Qed.

(** A line feed that stops the lazy group before any closing bracket
    stops it whatever follows. *)
Lemma lazy_close_None_stable (w v p q : string) :
  Re.lazy_close (w +:+ v +:+ String "]" p) = None →
  Str.mem newline v = false →
  Re.lazy_close (w +:+ q) = None.
Proof.
  intros H Hnl. induction w as [|c w IH].
  - rewrite str_app_nil_l in H.
    assert (∀ v p, Str.mem newline v = false →
                   is_Some (Re.lazy_close (v +:+ String "]" p))) as Hsome.
    { clear. induction v as [|c v IH]; intros p; simpl.
      - by eexists.
      - intros Hnl. apply orb_false_elim in Hnl as [Hc Hnl].
        rewrite ?str_app_cons; simpl.
        destruct (Ascii.eqb c "]"); [by eexists|].
        rewrite Ascii.eqb_sym, Hc.
        destruct (IH p Hnl) as [[v' r'] ->]. by eexists. }
    destruct (Hsome v p Hnl) as [? E]. by rewrite E in H.
  - rewrite ?str_app_cons in *; simpl in *.
    destruct (Ascii.eqb c "]"); [done|].
    destruct (Ascii.eqb c newline); [done|].
    destruct (Re.lazy_close (w +:+ v +:+ String "]" p)); [by destruct p0|].
    by rewrite IH.
Qed.

(* ===================================================================== *)
(** * Cycling *)
(* ===================================================================== *)

Lemma list_find_index (current : string) (before after : list string) :
  current ∉ before →
  list_find (λ x, x = current) (before ++ current :: after)
  = Some (length before, current).
Proof.
  induction before as [|x before IH]; intros Hnotin; simpl.
  - by rewrite decide_True.
  - apply not_elem_of_cons in Hnotin as [Hne Hnotin].
    rewrite decide_False by done. by rewrite IH.
Qed.

Lemma list_find_absent (current : string) (items : list string) :
  current ∉ items → list_find (λ x, x = current) items = None.
Proof.
  intros Hnotin. apply list_find_None, Forall_forall.
  intros x Hx ->. done.
Qed.

(** C7.  [cycle_list] returns [current] when there is no list of values;
    for a non-empty tuple it returns the first element when [current] is
    not a member, the element that follows (the first occurrence of)
    [current] otherwise, and the first element when [current] is the
    last one; the three markers behave as the tuple [("YES", "NO")]. *)
Theorem cycle_list_spec :
  (∀ current, cycle_list current NoValues = Ret current)
  ∧ (∀ current first rest,
       current ∉ first :: rest →
       cycle_list current (Items (first :: rest)) = Ret first)
  ∧ (∀ current before next after,
       current ∉ before →
       cycle_list current (Items (before ++ current :: next :: after))
       = Ret next)
  ∧ (∀ current before first,
       current ∉ before →
       head (before ++ [current]) = Some first →
       cycle_list current (Items (before ++ [current])) = Ret first)
  ∧ (∀ current marker,
       marker ∈ [Disabled; ForceBool; NegatedBool] →
       cycle_list current marker
       = cycle_list current (Items ["YES"; "NO"])).
Proof.
  repeat split.
  - intros current first rest Hnotin. unfold cycle_list.
    by rewrite list_find_absent.
  - intros current before next after Hnotin. unfold cycle_list.
    rewrite list_find_index by done.
    rewrite length_app. simpl length.
    rewrite Nat.mod_small by lia.
    rewrite lookup_app_r by lia.
    by replace (length before + 1 - length before)%nat with 1%nat by lia.
  - intros current before first Hnotin Hhead. unfold cycle_list.
    rewrite list_find_index by done.
    replace (length before + 1)%nat with (length (before ++ [current]))
      by (rewrite length_app; simpl; lia).
    rewrite Nat.Div0.mod_same.
    destruct (before ++ [current]) as [|x l] eqn:E; [done|].
    by injection Hhead as ->.
  - intros current marker Hin.
    rewrite !elem_of_cons, elem_of_nil in Hin.
    by destruct Hin as [->|[->|[->|[]]]].
Qed.

Lemma cycle_list_witness :
  cycle_list "BOGUS" (Items ["NONE"; "SEASONAL"; "YEARLY"]) = Ret "NONE"
  ∧ cycle_list "SEASONAL" (Items ["NONE"; "SEASONAL"; "YEARLY"])
    = Ret "YEARLY"
  ∧ cycle_list "YEARLY" (Items ["NONE"; "SEASONAL"; "YEARLY"])
    = Ret "NONE"
  ∧ cycle_list "NO" NegatedBool
    = cycle_list "NO" (Items ["YES"; "NO"]).
Proof.
  destruct cycle_list_spec as (_ & Habsent & Hnext & Hwrap & Hmarker).
  split; [|split; [|split]].
  - apply (Habsent "BOGUS" "NONE" ["SEASONAL"; "YEARLY"]).
    rewrite !not_elem_of_cons. repeat split; try done. apply not_elem_of_nil.
  - apply (Hnext "SEASONAL" ["NONE"] "YEARLY" []).
    rewrite !not_elem_of_cons. repeat split; try done. apply not_elem_of_nil.
  - apply (Hwrap "YEARLY" ["NONE"; "SEASONAL"] "NONE"); [|done].
    rewrite !not_elem_of_cons. repeat split; try done. apply not_elem_of_nil.
  - apply (Hmarker "NO" NegatedBool).
    rewrite !elem_of_cons. auto.
Defined.

(* ===================================================================== *)
(** * What a search finds and what a replacement leaves *)
(* ===================================================================== *)

(** A token of [name] with value [v] stands in [text] between [pre] and
    [post]. *)
Definition token_at (name text pre v post : string) : Prop :=
  text = pre +:+ token name v +:+ post ∧ captured v = true.

(** No token of [name] starts earlier in [text]. *)
Definition first_token (name text pre v post : string) : Prop :=
  token_at name text pre v post
  ∧ ∀ pre' v' post', token_at name text pre' v' post' →
      (String.length pre ≤ String.length pre')%nat.

Definition no_token (name text : string) : Prop :=
  ∀ pre v post, ¬ token_at name text pre v post.

(** The same for a literal. *)
Definition first_occurrence (old text pre post : string) : Prop :=
  text = pre +:+ old +:+ post
  ∧ ∀ pre' post', text = pre' +:+ old +:+ post' →
      (String.length pre ≤ String.length pre')%nat.

Definition absent (old text : string) : Prop :=
  ∀ pre post, text ≠ pre +:+ old +:+ post.

(** [replaced_all first new text text']: [text'] is [text] with every
    match replaced by [new], where [first t pre post] says that the first
    match in [t] stands between [pre] and [post].  The text before a
    match is copied; the search goes on in the text after it. *)
Inductive replaced_all (first : string → string → string → Prop)
  (new : string) : string → string → Prop :=
| replaced_none text :
    (∀ pre post, ¬ first text pre post) →
    replaced_all first new text text
| replaced_first text pre post post' :
    first text pre post →
    replaced_all first new post post' →
    replaced_all first new text (pre +:+ new +:+ post').

Lemma search_first_token (name text pre v post : string) :
  Re.search (Re.field_value name) text = Some (pre, v, post)
  ↔ first_token name text pre v post.
Proof.
  split.
  - intros E. destruct (search_Some _ _ _ _ _ E) as (t & -> & Ht).
    apply field_value_Some in Ht as [-> Hv]. split; [done|].
    intros pre' v' post' [Heq Hv'].
    destruct (decide (String.length pre ≤ String.length pre')%nat);
      [done|].
    assert (Re.field_value name (token name v' +:+ post')
            = Some (v', post')) as Hsome by by apply field_value_Some.
    pose proof (search_leftmost _ _ _ _ _ E pre' _ Heq ltac:(lia)).
    congruence.
  - intros [[-> Hv] Hleft]. apply search_intro.
    + by apply field_value_Some.
    + intros pre' t' Heq Hlt.
      destruct (Re.field_value name t') as [[v' r']|] eqn:E; [|done].
      apply field_value_Some in E as [-> Hv'].
      assert (String.length pre ≤ String.length pre')%nat; [|lia].
      by apply (Hleft pre' v' r').
Qed.

Lemma search_no_token (name text : string) :
  Re.search (Re.field_value name) text = None ↔ no_token name text.
Proof.
  split.
  - intros E pre v post [-> Hv].
    pose proof (search_None _ _ E pre _ eq_refl) as Hnone.
    assert (Re.field_value name (token name v +:+ post) = Some (v, post))
      by by apply field_value_Some.
    congruence.
  - intros Hno. apply search_None_intro. intros pre t ->.
    destruct (Re.field_value name t) as [[v r]|] eqn:E; [|done].
    apply field_value_Some in E as [-> Hv]. by destruct (Hno pre v r).
Qed.

(** A token somewhere in the text is enough for the search to find
    one. *)
Lemma token_at_first (name text pre v post : string) :
  token_at name text pre v post →
  ∃ pre1 v1 post1, first_token name text pre1 v1 post1.
Proof.
  intros [-> Hv].
  destruct (search_is_Some (Re.field_value name) pre
              (token name v +:+ post)) as [[[pre1 v1] post1] E].
  { exists (v, post). by apply field_value_Some. }
  exists pre1, v1, post1. by apply search_first_token.
Qed.

Lemma search_first_occurrence (old text pre post : string) :
  Re.search (Re.lit old) text = Some (pre, tt, post)
  ↔ first_occurrence old text pre post.
Proof.
  split.
  - intros E. destruct (search_Some _ _ _ _ _ E) as (t & -> & Ht).
    apply lit_Some in Ht as ->. split; [done|].
    intros pre' post' Heq.
    destruct (decide (String.length pre ≤ String.length pre')%nat);
      [done|].
    pose proof (search_leftmost _ _ _ _ _ E pre' _ Heq ltac:(lia)).
    assert (Re.lit old (old +:+ post') = Some (tt, post'))
      by by apply lit_Some.
    congruence.
  - intros [-> Hleft]. apply search_intro.
    + by apply lit_Some.
    + intros pre' t' Heq Hlt.
      destruct (Re.lit old t') as [[[] r']|] eqn:E; [|done].
      apply lit_Some in E as ->.
      assert (String.length pre ≤ String.length pre')%nat; [|lia].
      by apply (Hleft pre' r').
Qed.

Lemma search_absent (old text : string) :
  Re.search (Re.lit old) text = None ↔ absent old text.
Proof.
  split.
  - intros E pre post ->.
    pose proof (search_None _ _ E pre _ eq_refl) as Hnone.
    assert (Re.lit old (old +:+ post) = Some (tt, post))
      by by apply lit_Some.
    congruence.
  - intros Hno. apply search_None_intro. intros pre t ->.
    destruct (Re.lit old t) as [[[] r]|] eqn:E; [|done].
    apply lit_Some in E as ->. by destruct (Hno pre r).
Qed.

(** [sub] with a constant replacement replaces every match. *)
Lemma sub_replaced_all {G} (m : Re.matcher G) (new text : string) :
  consumes m →
  replaced_all (λ t pre post, ∃ g, Re.search m t = Some (pre, g, post))
    new text (Re.sub m (λ _, new) text).
Proof.
  intros Hc.
  remember (String.length text) as n eqn:Hn.
  revert text Hn. induction (lt_wf n) as [n _ IH]. intros text ->.
  rewrite sub_unfold by done.
  destruct (Re.search m text) as [[[pre g] post]|] eqn:E.
  - apply (replaced_first _ _ text pre post); [by exists g|].
    eapply IH; [|done]. by eapply search_shorter.
  - apply replaced_none. intros pre post [g Hg]. congruence.
Qed.

Lemma replaced_all_impl (first1 first2 : string → string → string → Prop)
  (new text text' : string) :
  (∀ t pre post, first1 t pre post ↔ first2 t pre post) →
  replaced_all first1 new text text' → replaced_all first2 new text text'.
Proof.
  intros Hiff. induction 1 as [text Hnone|text pre post post' Hf _ IH].
  - apply replaced_none. intros pre post ?%Hiff. by eapply Hnone.
  - apply (replaced_first _ _ text pre post); [by apply Hiff|done].
Qed.

(* ===================================================================== *)
(** * Running the codec *)
(* ===================================================================== *)

(** The value that stands on disk for an in-memory value. *)
Definition on_disk (vals : values) (value : string) : option string :=
  if bool_decide (vals = NegatedBool) then swapped value else Some value.

Definition with_disk (f : gmap string string → gmap string string)
  (w : World) : World :=
  {| self := self w; disk := f (disk w); stderr := stderr w |}.

Definition with_self (f : DFConfiguration → DFConfiguration) (w : World)
  : World :=
  {| self := f (self w); disk := disk w; stderr := stderr w |}.

Ltac unfold_monad :=
  unfold mbind, M_bind, bind, get_self, set_self, item, ret, raise,
    read_text, write_text, append_text, print_stderr, swap_yes_no,
    search_field, sub_field in *.

Lemma write_field_toggle (w : World) (text field name value : string) :
  options (self w) !! field = Some Disabled →
  settings (self w) !! field = Some value →
  field_names (self w) !! field = Some name →
  write_field text field w =
  (Ret (if String.eqb value "NO"
        then Re.replace (enabled name) (disabled name) text
        else Re.replace (disabled name) (enabled name) text), w).
Proof.
  intros Ho Hs Hf. unfold write_field. unfold_monad. simpl.
  rewrite Ho. simpl. rewrite Hs, Hf. by destruct (String.eqb value "NO").
Qed.

Lemma write_field_value (w : World)
  (text field name value new : string) (vals : values) :
  options (self w) !! field = Some vals → vals ≠ Disabled →
  settings (self w) !! field = Some value →
  field_names (self w) !! field = Some name →
  on_disk vals value = Some new →
  Re.literal name = true → Re.plain_template (token name new) = true →
  write_field text field w =
  (Ret (Re.sub (Re.field_value name) (λ _, token name new) text), w).
Proof.
  intros Ho Hd Hs Hf Hnew Hlit Hplain. unfold write_field. unfold_monad.
  simpl. rewrite Ho. simpl. rewrite bool_decide_false by done.
  rewrite Hs. unfold on_disk in Hnew.
  destruct (bool_decide (vals = NegatedBool)).
  - rewrite Hnew. simpl. rewrite Hf. fold (token name new).
    by rewrite Hlit, Hplain.
  - injection Hnew as ->. simpl. rewrite Hf. fold (token name new).
    by rewrite Hlit, Hplain.
Qed.

Lemma write_field_ValueError (w : World) (text field value : string) :
  options (self w) !! field = Some NegatedBool →
  settings (self w) !! field = Some value →
  swapped value = None →
  write_field text field w = (Raise ValueError, w).
Proof.
  intros Ho Hs Hsw. unfold write_field. unfold_monad. simpl.
  rewrite Ho. simpl. by rewrite Hs, Hsw.
Qed.

Lemma write_file_one (w : World) (filename text text' field : string) :
  disk w !! filename = Some text →
  write_field text field w = (Ret text', w) →
  write_file filename [field] w
  = (Ret tt, with_disk <[filename := text']> w).
Proof.
  intros Hd Hw. unfold write_file, write_fields. unfold_monad.
  by rewrite Hd, Hw.
Qed.

Lemma write_file_raise (w : World) (filename text field : string)
  (rest : list string) (e : exn) :
  disk w !! filename = Some text →
  write_field text field w = (Raise e, w) →
  write_file filename (field :: rest) w = (Raise e, w).
Proof.
  intros Hd Hw. unfold write_file, write_fields. unfold_monad.
  by rewrite Hd, Hw.
Qed.

Lemma literal_no_backslash (name : string) :
  Re.literal name = true → Str.mem "\" name = false.
Proof.
  induction name as [|c name IH]; [done|]. simpl.
  intros [Hc Hrest]%andb_true_iff. rewrite (IH Hrest), orb_false_r.
  destruct (Ascii.eqb_spec "\" c) as [<-|]; [|done]. done.
Qed.

Lemma plain_token (name new : string) :
  Re.literal name = true → Re.plain_template new = true →
  Re.plain_template (token name new) = true.
Proof.
  intros Hlit Hplain. unfold Re.plain_template, token in *.
  rewrite !str_mem_app, (literal_no_backslash name Hlit).
  apply negb_true_iff in Hplain. by rewrite Hplain.
Qed.

(** A character that neither the text nor the new value holds is not in
    the text after the replacement. *)
Lemma sub_field_lacks (c : ascii) (name new text : string) :
  Str.mem c text = false → Str.mem c new = false →
  Str.mem c (Re.sub (Re.field_value name) (λ _, token name new) text)
  = false.
Proof.
  intros Htext Hnew.
  remember (String.length text) as n eqn:Hn.
  revert text Hn Htext. induction (lt_wf n) as [n _ IH].
  intros text -> Htext.
  rewrite sub_unfold by apply field_value_consumes.
  destruct (Re.search (Re.field_value name) text) as [[[pre v] post]|]
    eqn:E; [|done].
  assert (Str.mem c (Re.sub (Re.field_value name) (λ _, token name new)
                       post) = false) as IHpost.
  { destruct (search_Some _ _ _ _ _ E) as (t & -> & Ht).
    apply field_value_Some in Ht as [-> Hv].
    eapply IH; [|done|].
    - eapply search_shorter; [apply field_value_consumes|exact E].
    - rewrite !str_mem_app in Htext.
      by repeat apply orb_false_elim in Htext as [? Htext]. }
  destruct (search_Some _ _ _ _ _ E) as (t & -> & Ht).
  apply field_value_Some in Ht as [-> Hv].
  unfold token in *. rewrite !str_mem_app in *. rewrite IHpost, Hnew.
  apply orb_false_elim in Htext as [-> Htext].
  apply orb_false_elim in Htext as [Htext _].
  apply orb_false_elim in Htext as [-> Htext].
  apply orb_false_elim in Htext as [-> Htext].
  apply orb_false_elim in Htext as [-> Htext].
  apply orb_false_elim in Htext as [_ ->]. done.
Qed.

Lemma replace_lacks (c : ascii) (old new text : string) :
  old ≠ "" → Str.mem c text = false →
  (Str.mem c old = false → Str.mem c new = false) →
  Str.mem c (Re.replace old new text) = false.
Proof.
  intros Hold Htext Hnew. unfold Re.replace.
  remember (String.length text) as n eqn:Hn.
  revert text Hn Htext. induction (lt_wf n) as [n _ IH].
  intros text -> Htext.
  rewrite sub_unfold by by apply lit_consumes.
  destruct (Re.search (Re.lit old) text) as [[[pre []] post]|] eqn:E;
    [|done].
  assert (String.length post < String.length text)%nat as Hlt.
  { eapply search_shorter; [by apply lit_consumes|exact E]. }
  destruct (search_Some _ _ _ _ _ E) as (t & -> & Ht).
  apply lit_Some in Ht as ->.
  rewrite !str_mem_app in *.
  apply orb_false_elim in Htext as [-> Htext].
  apply orb_false_elim in Htext as [Ho Hpost].
  rewrite (Hnew Ho). by rewrite (IH _ Hlt post eq_refl Hpost).
Qed.

Lemma toggle_lacks (name : string) :
  (Str.mem carriage_return (enabled name) = false →
   Str.mem carriage_return (disabled name) = false)
  ∧ (Str.mem carriage_return (disabled name) = false →
     Str.mem carriage_return (enabled name) = false).
Proof.
  unfold enabled, disabled. rewrite !str_mem_app.
  split; intros [_ [-> _]%orb_false_elim]%orb_false_elim; done.
Qed.

(* ===================================================================== *)
(** * Writing a field with a value *)
(* ===================================================================== *)

(** The sentence of C1: only the first token is rewritten. *)
Definition only_first_rewritten (name new text text' : string) : Prop :=
  ∃ pre v post,
    first_token name text pre v post
    ∧ text' = pre +:+ token name new +:+ post.

(** A registry with the option [sound], set to ["NO"], and an
    [init.txt] that holds the field twice. *)
Definition two_sounds : World :=
  ((create_option "sound" "SOUND" "YES" (Items ["YES"; "NO"]) ["init.txt"] ;;
    set_value "sound" "NO")
     (world0 v0_40_24 {["init.txt" := "[SOUND:YES] [SOUND:YES]"]})).2.

(** C1, as stated, fails: with two [[SOUND:...]] tokens in the file,
    [write_file] rewrites both, not only the first. *)
Lemma write_file_rewrites_later_tokens :
  ¬ ∃ text',
      disk (write_file "init.txt" ["sound"] two_sounds).2 !! "init.txt"
      = Some text'
      ∧ only_first_rewritten "SOUND" "NO" "[SOUND:YES] [SOUND:YES]" text'.
Proof.
  intros (text' & Hdisk & pre & v & post & Hfirst & ->).
  apply search_first_token in Hfirst. vm_compute in Hfirst.
  injection Hfirst as <- <- <-. vm_compute in Hdisk. discriminate.
Qed.

(** C1 (amended).  For a field whose policy is not the bracket toggle,
    whose on-disk name has no operator character of [re] and whose value
    to write has no backslash and no carriage return, [write_file]
    replaces every [[F:anything]] token, found left to right, by
    [[F:newValue]] and copies the text between the tokens; when the
    first token is the only one, nothing but that token changes.

    The two texts are the file as it is read before and after the call.
    The bytes of the line ends are not kept: the text is written anew,
    each line feed as the line end of the platform.  The new text holds
    no carriage return, so it is read back as it was written on either
    platform. *)
Theorem write_file_replaces_every_token (w : World)
  (filename text field name value new : string) (vals : values) :
  disk w !! filename = Some text →
  Str.mem carriage_return text = false →
  options (self w) !! field = Some vals → vals ≠ Disabled →
  settings (self w) !! field = Some value →
  field_names (self w) !! field = Some name →
  on_disk vals value = Some new →
  Re.literal name = true → Re.plain_template new = true →
  Str.mem carriage_return new = false →
  ∃ text',
    write_file filename [field] w
    = (Ret tt, with_disk <[filename := text']> w)
    ∧ Str.mem carriage_return text' = false
    ∧ (∀ linesep,
         linesep = TextMode.posix ∨ linesep = TextMode.windows →
         TextMode.read (TextMode.write linesep text') = text')
    ∧ replaced_all (λ t pre post, ∃ v, first_token name t pre v post)
        (token name new) text text'
    ∧ (∀ pre v post,
         first_token name text pre v post → no_token name post →
         text' = pre +:+ token name new +:+ post).
Proof.
  intros Hd Hcr Ho Hne Hs Hf Hnew Hlit Hplain Hncr.
  exists (Re.sub (Re.field_value name) (λ _, token name new) text).
  assert (Str.mem carriage_return
            (Re.sub (Re.field_value name) (λ _, token name new) text)
          = false) as Hcr' by by apply sub_field_lacks.
  split; [|split; [done|split; [|split]]].
  - eapply write_file_one; [done|].
    eapply write_field_value; eauto using plain_token.
  - intros linesep Hsep. by apply text_mode_round_trip.
  - eapply replaced_all_impl;
      [|apply sub_replaced_all, field_value_consumes].
    intros t pre post. split; intros [v Hv]; exists v;
      by apply search_first_token.
  - intros pre v post Hfirst%search_first_token Hno%search_no_token.
    rewrite sub_unfold, Hfirst by apply field_value_consumes.
    by rewrite sub_unfold, Hno by apply field_value_consumes.
Qed.

(** A registry with the option [sound], set to ["NO"], and an
    [init.txt] that holds the field once, between other text. *)
Definition one_sound : World :=
  ((create_option "sound" "SOUND" "YES" (Items ["YES"; "NO"]) ["init.txt"] ;;
    set_value "sound" "NO")
     (world0 v0_40_24 {["init.txt" := "Sound [SOUND:YES] [VOLUME:255]"]})).2.

Lemma write_file_replaces_every_token_witness :
  ∃ text',
    write_file "init.txt" ["sound"] one_sound
    = (Ret tt, with_disk <["init.txt" := text']> one_sound)
    ∧ Str.mem carriage_return text' = false
    ∧ (∀ linesep,
         linesep = TextMode.posix ∨ linesep = TextMode.windows →
         TextMode.read (TextMode.write linesep text') = text')
    ∧ replaced_all (λ t pre post, ∃ v, first_token "SOUND" t pre v post)
        (token "SOUND" "NO") "Sound [SOUND:YES] [VOLUME:255]" text'
    ∧ (∀ pre v post,
         first_token "SOUND" "Sound [SOUND:YES] [VOLUME:255]" pre v post →
         no_token "SOUND" post →
         text' = pre +:+ token "SOUND" "NO" +:+ post).
Proof.
  apply (write_file_replaces_every_token one_sound "init.txt"
           "Sound [SOUND:YES] [VOLUME:255]" "sound" "SOUND" "NO" "NO"
           (Items ["YES"; "NO"])); try reflexivity.
  discriminate.
Defined.

(* ===================================================================== *)
(** * Writing a bracket toggle *)
(* ===================================================================== *)

(** The sentence of C3: the first occurrence of the literal is replaced,
    and a text without the literal is left as it is. *)
Definition only_first_replaced (old new text text' : string) : Prop :=
  (∃ pre post,
     first_occurrence old text pre post ∧ text' = pre +:+ new +:+ post)
  ∨ (absent old text ∧ text' = text).

(** A registry with the option [aquifers], whose value is ["NO"], and a
    raw file with two aquifer layers. *)
Definition two_aquifers : World :=
  (create_option "aquifers" "AQUIFER" "NO" Disabled ["stone.txt"]
     (world0 v0_40_24 {["stone.txt" := "[AQUIFER] [SOIL] [AQUIFER]"]})).2.

(** C3, as stated, fails: with two [[AQUIFER]] literals in the file,
    [write_file] turns both into [!AQUIFER!], not only the first. *)
Lemma write_file_toggles_later_occurrences :
  ¬ ∃ text',
      disk (write_file "stone.txt" ["aquifers"] two_aquifers).2
        !! "stone.txt" = Some text'
      ∧ only_first_replaced "[AQUIFER]" "!AQUIFER!"
          "[AQUIFER] [SOIL] [AQUIFER]" text'.
Proof.
  intros (text' & Hdisk & [(pre & post & Hfirst & ->)|[Habsent _]]).
  - apply search_first_occurrence in Hfirst. vm_compute in Hfirst.
    injection Hfirst as <- <-. vm_compute in Hdisk. discriminate.
  - by apply (Habsent "" " [SOIL] [AQUIFER]").
Qed.

Lemma enabled_nonempty (name : string) : enabled name ≠ "".
Proof. done. Qed.

Lemma disabled_nonempty (name : string) : disabled name ≠ "".
Proof. done. Qed.

(** C3 (amended).  For a bracket toggle, [write_file] replaces every
    occurrence of [[F]] by [!F!] when the value is ["NO"], and every
    occurrence of [!F!] by [[F]] otherwise, left to right; when the
    literal to replace is not in the text, the text of the file is
    left as it is; no error is raised.

    The two texts are the file as it is read before and after the call:
    the file is written anew in every case, each line feed as the line
    end of the platform, and the new text, which holds no carriage
    return, is what is read back. *)
Theorem write_file_toggles_every_occurrence (w : World)
  (filename text field name value : string) :
  disk w !! filename = Some text →
  Str.mem carriage_return text = false →
  options (self w) !! field = Some Disabled →
  settings (self w) !! field = Some value →
  field_names (self w) !! field = Some name →
  let old := if String.eqb value "NO" then enabled name
             else disabled name in
  let new := if String.eqb value "NO" then disabled name
             else enabled name in
  ∃ text',
    write_file filename [field] w
    = (Ret tt, with_disk <[filename := text']> w)
    ∧ Str.mem carriage_return text' = false
    ∧ replaced_all (first_occurrence old) new text text'
    ∧ (absent old text → text' = text).
Proof.
  intros Hd Hcr Ho Hs Hf old new.
  assert (old ≠ "") as Hold by (unfold old; by destruct (String.eqb _ _)).
  exists (Re.replace old new text). split; [|split; [|split]].
  - eapply write_file_one; [done|].
    erewrite write_field_toggle by done. unfold old, new.
    by destruct (String.eqb value "NO").
  - apply replace_lacks; [done|done|]. unfold old, new.
    destruct (String.eqb value "NO"); apply toggle_lacks.
  - eapply replaced_all_impl; [|apply sub_replaced_all, lit_consumes, Hold].
    intros t pre post. rewrite <- search_first_occurrence. split.
    + by intros [[] ?].
    + intros ?. by exists tt.
  - intros Habsent%search_absent. unfold Re.replace.
    by rewrite sub_unfold, Habsent by by apply lit_consumes.
Qed.

(** A raw file in which the aquifer was disabled once, and the option
    set back to ["YES"]. *)
Definition no_aquifer : World :=
  ((create_option "aquifers" "AQUIFER" "NO" Disabled ["stone.txt"] ;;
    set_value "aquifers" "YES")
     (world0 v0_40_24 {["stone.txt" := "[SOIL] !AQUIFER!"]})).2.

Lemma write_file_toggles_every_occurrence_witness :
  ∃ text',
    write_file "stone.txt" ["aquifers"] no_aquifer
    = (Ret tt, with_disk <["stone.txt" := text']> no_aquifer)
    ∧ Str.mem carriage_return text' = false
    ∧ replaced_all (first_occurrence "!AQUIFER!") "[AQUIFER]"
        "[SOIL] !AQUIFER!" text'
    ∧ (absent "!AQUIFER!" "[SOIL] !AQUIFER!" →
       text' = "[SOIL] !AQUIFER!").
Proof.
  apply (write_file_toggles_every_occurrence no_aquifer "stone.txt"
           "[SOIL] !AQUIFER!" "aquifers" "AQUIFER" "YES");
    reflexivity.
Defined.

(* ===================================================================== *)
(** * Reading back what was written *)
(* ===================================================================== *)

Lemma strip_prefix_app_l (p a b : string) :
  (String.length p ≤ String.length a)%nat →
  Str.strip_prefix p (a +:+ b) = (λ r, r +:+ b) <$> Str.strip_prefix p a.
Proof.
  revert a. induction p as [|x p IH]; intros a Hlen; [done|].
  destruct a as [|y a]; simpl in Hlen; [lia|].
  rewrite str_app_cons. simpl. destruct (Ascii.eqb x y); [|done].
  apply IH. lia.
Qed.

Lemma strip_prefix_length (p s r : string) :
  Str.strip_prefix p s = Some r →
  String.length s = (String.length p + String.length r)%nat.
Proof. intros ->%strip_prefix_Some. apply str_length_app. Qed.

Lemma captured_one_line (v : string) :
  captured v = true → Str.mem newline v = false.
Proof.
  unfold captured. intros [[_ H]%andb_true_iff _]%andb_true_iff.
  by apply negb_true_iff.
Qed.

Lemma value_close_None_stable (w v p q : string) :
  w ≠ "" → Str.mem newline v = false →
  Re.value_close (w +:+ v +:+ String "]" p) = None →
  Re.value_close (w +:+ q) = None.
Proof.
  destruct w as [|c w]; [done|]. intros _ Hnl.
  rewrite !str_app_cons. simpl.
  destruct (Ascii.eqb c newline); [done|].
  destruct (Re.lazy_close (w +:+ v +:+ String "]" p)) as [[]|] eqn:E;
    [done|].
  by rewrite (lazy_close_None_stable _ _ _ q E Hnl).
Qed.

(** Where the pattern failed before a token, it fails after the token is
    given another value. *)
Lemma field_value_None_stable (name e v post new rest : string) :
  e ≠ "" → captured v = true →
  Re.field_value name (e +:+ token name v +:+ post) = None →
  Re.field_value name (e +:+ token name new +:+ rest) = None.
Proof.
  intros He Hv. unfold Re.field_value. rewrite !token_app.
  set (p := "[" +:+ name +:+ ":").
  rewrite <- !(str_app_assoc e p).
  assert (String.length p ≤ String.length (e +:+ p))%nat as Hlen
    by (rewrite str_length_app; lia).
  rewrite (strip_prefix_app_l p _ (v +:+ String "]" post) Hlen).
  rewrite (strip_prefix_app_l p _ (new +:+ String "]" rest) Hlen).
  destruct (Str.strip_prefix p (e +:+ p)) as [w|] eqn:E; [|done].
  simpl. apply strip_prefix_length in E.
  rewrite str_length_app in E.
  assert (w ≠ "") as Hw.
  { intros ->. destruct e; [done|]. simpl in E. lia. }
  intros Hnone.
  by apply (value_close_None_stable w v post _ Hw
              (captured_one_line v Hv)).
Qed.

(** After every token was given the value [new], the first token found
    is where the first one was, and holds [new]. *)
Lemma search_after_sub (name new text pre v post : string) :
  captured new = true →
  Re.search (Re.field_value name) text = Some (pre, v, post) →
  Re.search (Re.field_value name)
    (Re.sub (Re.field_value name) (λ _, token name new) text)
  = Some (pre, new,
          Re.sub (Re.field_value name) (λ _, token name new) post).
Proof.
  intros Hnew E. rewrite sub_unfold, E by apply field_value_consumes.
  apply search_intro.
  - by apply field_value_Some.
  - intros pre' t' Heq Hlt.
    destruct (str_app_eq_app _ _ _ _ Heq) as [(e & -> & Ht')|(e & -> & Ht')].
    { rewrite str_length_app in Hlt. lia. }
    subst t'.
    assert (e ≠ "") as He.
    { intros ->. rewrite str_app_nil_r in Hlt. lia. }
    destruct (search_Some _ _ _ _ _ E) as (t & -> & Ht).
    apply field_value_Some in Ht as [-> Hv].
    eapply field_value_None_stable; [done|exact Hv|].
    apply (search_leftmost _ _ _ _ _ E pre').
    + by rewrite str_app_assoc.
    + done.
Qed.

Lemma bind_Ret {A B} (m : M A) (k : A → M B) (w w' : World) (a : A) :
  m w = (Ret a, w') → (m ≫= k) w = k a w'.
Proof. intros E. unfold mbind, M_bind, bind. by rewrite E. Qed.

Lemma bind_Raise {A B} (m : M A) (k : A → M B) (w w' : World) (e : exn) :
  m w = (Raise e, w') → (m ≫= k) w = (Raise e, w').
Proof. intros E. unfold mbind, M_bind, bind. by rewrite E. Qed.

Lemma read_field_ValueError (w : World)
  (filename text field name pre v post : string) :
  inverse_field_names (self w) !! field = None →
  options (self w) !! field = Some NegatedBool →
  field_names (self w) !! field = Some name →
  Re.literal name = true →
  Re.search (Re.field_value name) text = Some (pre, v, post) →
  swapped v = None →
  read_field filename text field w = (Raise ValueError, w).
Proof.
  intros Hi Ho Hf Hlit E Hsw. unfold read_field. unfold_monad.
  simpl. rewrite Hi, Ho. simpl. rewrite Hf, Hlit. simpl.
  by rewrite E, Hsw.
Qed.

Lemma read_file_one (w w' : World) (filename text field : string) :
  disk w !! filename = Some text →
  read_field filename text field w = (Ret tt, w') →
  read_file filename [field] false w = (Ret tt, w').
Proof.
  intros Hd Hr. unfold read_file. unfold_monad. rewrite Hd. simpl.
  unfold_monad. by rewrite Hr.
Qed.

Lemma read_file_raise (w w' : World) (filename text field : string)
  (rest : list string) (e : exn) :
  disk w !! filename = Some text →
  read_field filename text field w = (Raise e, w') →
  read_file filename (field :: rest) false w = (Raise e, w').
Proof.
  intros Hd Hr. unfold read_file. unfold_monad. rewrite Hd. simpl.
  unfold_monad. by rewrite Hr.
Qed.

Lemma captured_intro (v : string) :
  v ≠ "" → Str.mem "]" v = false → Str.mem newline v = false →
  captured v = true.
Proof.
  destruct v as [|c v]; [done|]. intros _ Hbr Hnl.
  simpl in Hbr, Hnl.
  apply orb_false_elim in Hbr as [_ Hbr].
  apply orb_false_elim in Hnl as [Hc Hnl].
  apply captured_cons. split; [|done].
  intros ->. by rewrite Ascii.eqb_refl in Hc.
Qed.

(* ===================================================================== *)
(** * A value that is not read back *)
(* ===================================================================== *)

(** A registry with the option [volume] and an [init.txt] with two
    fields on one line. *)
Definition volume_and_cap : World :=
  (create_option "volume" "VOLUME" "255" NoValues ["init.txt"]
     (world0 v0_40_24 {["init.txt" := "[VOLUME:255] [FPS_CAP:100]"]})).2.

(** C2, as stated, fails: the empty string holds no closing bracket,
    and once it is written the token reads [[VOLUME:]]; the lazy group
    needs one character, takes the bracket, and runs on to the next
    closing bracket of the line. *)
Lemma empty_value_not_read_back :
  options (self volume_and_cap) !! "volume" = Some NoValues
  ∧ field_names (self volume_and_cap) !! "volume" = Some "VOLUME"
  ∧ token_at "VOLUME" "[VOLUME:255] [FPS_CAP:100]" "" "255"
      " [FPS_CAP:100]"
  ∧ Str.mem "]" "" = false
  ∧ ∃ w',
      (set_value "volume" "" ;; write_file "init.txt" ["volume"] ;;
       read_file "init.txt" ["volume"] false) volume_and_cap
      = (Ret tt, w')
      ∧ disk w' !! "init.txt" = Some "[VOLUME:] [FPS_CAP:100]"
      ∧ settings (self w') !! "volume" = Some "] [FPS_CAP:100"
      ∧ settings (self w') !! "volume" ≠ Some "".
Proof.
  repeat split; try reflexivity.
  eexists. repeat split; try reflexivity. vm_compute. discriminate.
Qed.

(** The registry entry of [entombPets] and a [d_init.txt] that holds
    its field. *)
Definition coffins : World :=
  (create_option "entombPets" "COFFIN_NO_PETS_DEFAULT" "NO" NegatedBool
     ["d_init.txt"]
     (world0 v0_40_24
        {["d_init.txt" := "[COFFIN_NO_PETS_DEFAULT:YES]"]})).2.

(* ===================================================================== *)
(** * The swap is partial *)
(* ===================================================================== *)

Lemma swapped_None (value : string) :
  value ≠ "NO" → value ≠ "YES" → swapped value = None.
Proof.
  intros Hno Hyes. unfold swapped.
  by rewrite (proj2 (String.eqb_neq _ _) Hno),
    (proj2 (String.eqb_neq _ _) Hyes).
Qed.

Lemma create_field_ValueError (w : World) (filename field value : string) :
  options (self w) !! field = Some NegatedBool →
  settings (self w) !! field = Some value →
  swapped value = None →
  create_field filename field w = (Raise ValueError, w).
Proof.
  intros Ho Hs Hsw. unfold create_field. unfold_monad. simpl.
  rewrite Ho. simpl. by rewrite Hs, Hsw.
Qed.

(** C10.  For a negated boolean, a value other than ["NO"] and ["YES"]
    makes the swap raise [ValueError]: in [read_file] when it is the
    value captured from the file, and in [write_file] and [create_file]
    when it is the value in memory, where [set_value] puts it unchecked.
    [write_file] has not touched the file then; [create_file] has
    emptied it. *)
Theorem negated_bool_ValueError :
  (∀ (w : World) (filename text field name pre v post : string)
     (rest : list string),
     disk w !! filename = Some text →
     options (self w) !! field = Some NegatedBool →
     field_names (self w) !! field = Some name →
     inverse_field_names (self w) !! field = None →
     Re.literal name = true →
     first_token name text pre v post →
     v ≠ "NO" → v ≠ "YES" →
     read_file filename (field :: rest) false w = (Raise ValueError, w))
  ∧ (∀ (w : World) (filename text field value : string)
       (rest : list string),
       disk w !! filename = Some text →
       options (self w) !! field = Some NegatedBool →
       value ≠ "NO" → value ≠ "YES" →
       (set_value field value ;; write_file filename (field :: rest)) w
       = (Raise ValueError,
          with_self (with_settings <[field := value]>) w))
  ∧ (∀ (w : World) (filename field value : string) (rest : list string),
       options (self w) !! field = Some NegatedBool →
       value ≠ "NO" → value ≠ "YES" →
       (set_value field value ;; create_file filename (field :: rest)) w
       = (Raise ValueError,
          with_disk <[filename := ""]>
            (with_self (with_settings <[field := value]>) w))).
Proof.
  split; [|split].
  - intros w filename text field name pre v post rest
      Hd Ho Hf Hi Hlit Hfirst%search_first_token Hno Hyes.
    eapply read_file_raise; [done|].
    eapply read_field_ValueError; eauto using swapped_None.
  - intros w filename text field value rest Hd Ho Hno Hyes.
    erewrite bind_Ret; [|reflexivity].
    eapply write_file_raise; [exact Hd|].
    eapply write_field_ValueError; [exact Ho| |by apply swapped_None].
    simpl. apply lookup_insert_eq.
  - intros w filename field value rest Ho Hno Hyes.
    erewrite bind_Ret; [|reflexivity].
    unfold create_file. erewrite bind_Ret; [|reflexivity].
    simpl. eapply bind_Raise.
    eapply create_field_ValueError; [exact Ho| |by apply swapped_None].
    simpl. apply lookup_insert_eq.
Qed.

(** A [d_init.txt] in which the field of [entombPets] holds neither
    ["YES"] nor ["NO"]. *)
Definition coffins_maybe : World :=
  (create_option "entombPets" "COFFIN_NO_PETS_DEFAULT" "NO" NegatedBool
     ["d_init.txt"]
     (world0 v0_40_24
        {["d_init.txt" := "[COFFIN_NO_PETS_DEFAULT:MAYBE]"]})).2.

Lemma negated_bool_ValueError_witness :
  read_file "d_init.txt" ["entombPets"] false coffins_maybe
  = (Raise ValueError, coffins_maybe)
  ∧ (set_value "entombPets" "ALWAYS" ;;
     write_file "d_init.txt" ["entombPets"]) coffins
    = (Raise ValueError,
       with_self (with_settings <["entombPets" := "ALWAYS"]>) coffins)
  ∧ (set_value "entombPets" "ALWAYS" ;;
     create_file "new.txt" ["entombPets"]) coffins
    = (Raise ValueError,
       with_disk <["new.txt" := ""]>
         (with_self (with_settings <["entombPets" := "ALWAYS"]>)
            coffins)).
Proof.
  destruct negated_bool_ValueError as (Hread & Hwrite & Hcreate).
  split; [|split].
  - apply (Hread coffins_maybe "d_init.txt"
             "[COFFIN_NO_PETS_DEFAULT:MAYBE]" "entombPets"
             "COFFIN_NO_PETS_DEFAULT" "" "MAYBE" "" []);
      try reflexivity; try discriminate.
    apply search_first_token. reflexivity.
  - apply (Hwrite coffins "d_init.txt" "[COFFIN_NO_PETS_DEFAULT:YES]"
             "entombPets" "ALWAYS" []);
      try reflexivity; discriminate.
  - apply (Hcreate coffins "new.txt" "entombPets" "ALWAYS" []);
      try reflexivity; discriminate.
Defined.

(* ===================================================================== *)
(** * The static probes *)
(* ===================================================================== *)

(** C9.  When the file cannot be opened, [read_value] returns [None] and
    [has_field] returns [False], whatever the field; when it opens,
    [read_value] returns the value of the first token of the field, and
    [None] when the text holds no such token (for a field name without
    operator character of [re]). *)
Theorem static_probes (w : World) (filename field : string) :
  (disk w !! filename = None →
   read_value filename field w = (Ret None, w)
   ∧ ∀ num_params min_params max_params,
       has_field filename field num_params min_params max_params w
       = (Ret false, w))
  ∧ (∀ text pre v post,
       disk w !! filename = Some text → Re.literal field = true →
       first_token field text pre v post →
       read_value filename field w = (Ret (Some v), w))
  ∧ (∀ text,
       disk w !! filename = Some text → Re.literal field = true →
       no_token field text →
       read_value filename field w = (Ret None, w)).
Proof.
  split; [|split].
  - intros Hd. split; [|intros ? ? ?];
      unfold read_value, has_field, except_IOError; unfold_monad;
      by rewrite Hd.
  - intros text pre v post Hd Hlit Hfirst%search_first_token.
    unfold read_value, except_IOError. unfold_monad.
    by rewrite Hd, Hlit, Hfirst.
  - intros text Hd Hlit Hno%search_no_token.
    unfold read_value, except_IOError. unfold_monad.
    by rewrite Hd, Hlit, Hno.
Qed.

Definition init_fonts : World :=
  world0 v0_40_24 {["init.txt" := "[FONT:curses.png]
[FONT:other.png]"]}.

Lemma static_probes_witness :
  (read_value "missing.txt" "FONT" init_fonts = (Ret None, init_fonts)
   ∧ has_field "missing.txt" "FONT" (-1) (-1) (-1) init_fonts
     = (Ret false, init_fonts))
  ∧ read_value "init.txt" "FONT" init_fonts
    = (Ret (Some "curses.png"), init_fonts)
  ∧ read_value "init.txt" "GRAPHICS" init_fonts = (Ret None, init_fonts).
Proof.
  split; [|split].
  - destruct (static_probes init_fonts "missing.txt" "FONT")
      as (Hmissing & _).
    destruct (Hmissing eq_refl) as [Hread Hhas]. split; [done|].
    apply Hhas.
  - destruct (static_probes init_fonts "init.txt" "FONT")
      as (_ & Hfound & _).
    eapply Hfound; [reflexivity|reflexivity|].
    apply search_first_token. reflexivity.
  - destruct (static_probes init_fonts "init.txt" "GRAPHICS")
      as (_ & _ & Hnone).
    eapply Hnone; [reflexivity|reflexivity|].
    apply search_no_token. reflexivity.
Defined.

(* ===================================================================== *)
(** * Registration *)
(* ===================================================================== *)

(** What the registry keeps true: a name with a policy, a file set or a
    place in a bulk list has a value. *)
Record wf (c : DFConfiguration) : Prop := {
  wf_options :
    ∀ name, is_Some (options c !! name) → is_Some (settings c !! name);
  wf_files :
    ∀ name, is_Some (files c !! name) → is_Some (settings c !! name);
  wf_in_files :
    ∀ fs names name,
      in_files c !! fs = Some names → name ∈ names →
      is_Some (settings c !! name);
}.

Lemma wf_empty (dir : string) (info : DFInfo) :
  wf (empty_configuration dir info).
Proof.
  split; simpl.
  - intros name [? H]. by rewrite lookup_empty in H.
  - intros name [? H]. by rewrite lookup_empty in H.
  - intros fs names name H. by rewrite lookup_empty in H.
Qed.

Lemma create_option_known (w : World) (name field_name default : string)
  (vals : values) (fs : list string) :
  is_Some (settings (self w) !! name)
  ∨ is_Some (inverse_field_names (self w) !! name) →
  create_option name field_name default vals fs w = (Ret tt, w).
Proof.
  intros Hknown. unfold create_option. unfold_monad. simpl.
  destruct Hknown as [H|H].
  - by rewrite (bool_decide_true _ H).
  - by rewrite (bool_decide_true _ H), orb_true_r.
Qed.

(** The registry after [field_names[name] = field_name]. *)
Definition recorded (name field_name : string) (w : World) : World :=
  with_self (with_field_names <[name := field_name]>) w.

(** The registry after a registration that went through. *)
Definition registered (name field_name default : string) (vals : values)
  (fs : list string) (c : DFConfiguration) : DFConfiguration :=
  {| base_dir := base_dir c;
     settings := <[name := default]> (settings c);
     options := <[name := vals]> (options c);
     field_names := <[name := field_name]> (field_names c);
     inverse_field_names :=
       if bool_decide (field_name ≠ name)
       then <[field_name := name]> (inverse_field_names c)
       else inverse_field_names c;
     files := <[name := fs]> (files c);
     in_files :=
       <[fs := from_option id [] (in_files c !! fs) ++ [name]]>
         (in_files c);
     df_info := df_info c |}.

(** The three ways a first registration ends. *)
Lemma create_option_fresh (w : World) (name field_name default : string)
  (vals : values) (fs : list string) :
  settings (self w) !! name = None →
  inverse_field_names (self w) !! name = None →
  create_option name field_name default vals fs w =
  match has_option (self (recorded name field_name w)) field_name with
  | Ret true =>
      (Ret tt, with_self (registered name field_name default vals fs) w)
  | Ret false => (Ret tt, recorded name field_name w)
  | Raise e => (Raise e, recorded name field_name w)
  end.
Proof.
  intros Hs Hi. unfold create_option, version_has_option. unfold_monad.
  cbn [fst snd self]. rewrite Hs, Hi.
  rewrite !bool_decide_false by (by intros [? ?]).
  cbn [orb]. fold (recorded name field_name w).
  destruct (has_option _ field_name) as [[]|e]; try done.
  cbn [negb]. unfold with_self, registered. cbn [self disk stderr].
  by destruct (bool_decide (field_name ≠ name)).
Qed.

Lemma wf_recorded (name field_name : string) (c : DFConfiguration) :
  wf c → wf (with_field_names <[name := field_name]> c).
Proof. intros [H1 H2 H3]. by split. Qed.

Lemma wf_with_settings (name value : string) (c : DFConfiguration) :
  wf c → wf (with_settings <[name := value]> c).
Proof.
  intros [H1 H2 H3]. split; simpl.
  - intros n Hn. destruct (decide (name = n)) as [->|];
      [rewrite lookup_insert_eq|rewrite lookup_insert_ne]; eauto.
  - intros n Hn. destruct (decide (name = n)) as [->|];
      [rewrite lookup_insert_eq|rewrite lookup_insert_ne]; eauto.
  - intros fs names n Hfs Hn. destruct (decide (name = n)) as [->|];
      [rewrite lookup_insert_eq|rewrite lookup_insert_ne]; eauto.
Qed.

Lemma wf_registered (name field_name default : string) (vals : values)
  (fs : list string) (c : DFConfiguration) :
  wf c → wf (registered name field_name default vals fs c).
Proof.
  intros [H1 H2 H3]. split; simpl.
  - intros n. destruct (decide (name = n)) as [->|];
      [rewrite !lookup_insert_eq|rewrite !lookup_insert_ne]; eauto.
  - intros n. destruct (decide (name = n)) as [->|];
      [rewrite !lookup_insert_eq|rewrite !lookup_insert_ne]; eauto.
  - intros fs' names n Hfs Hn.
    destruct (decide (name = n)) as [->|Hne];
      [by rewrite lookup_insert_eq|rewrite lookup_insert_ne by done].
    destruct (decide (fs = fs')) as [->|Hfs'].
    + rewrite lookup_insert_eq in Hfs. injection Hfs as <-.
      apply elem_of_app in Hn as [Hn|Hn%list_elem_of_singleton];
        [|congruence].
      destruct (in_files c !! fs') as [l|] eqn:E; simpl in Hn.
      * by eapply H3.
      * by apply elem_of_nil in Hn.
    + rewrite lookup_insert_ne in Hfs by done. by eapply H3.
Qed.

(** Registration and assignment keep the registry well formed, whether
    they return or raise. *)
Lemma create_option_wf (w : World) (name field_name default : string)
  (vals : values) (fs : list string) :
  wf (self w) →
  wf (self (create_option name field_name default vals fs w).2).
Proof.
  intros Hwf.
  destruct (settings (self w) !! name) as [v|] eqn:Hs.
  { rewrite create_option_known; [done|]. left. by eexists. }
  destruct (inverse_field_names (self w) !! name) as [v|] eqn:Hi.
  { rewrite create_option_known; [done|]. right. by eexists. }
  rewrite create_option_fresh by done.
  destruct (has_option _ field_name) as [[]|e]; simpl;
    auto using wf_recorded, wf_registered.
Qed.

Lemma set_value_wf (w : World) (name value : string) :
  wf (self w) → wf (self (set_value name value w).2).
Proof. apply wf_with_settings. Qed.

(** The entry of the table for [TRUETYPE], with the registry not
    pointing that name elsewhere. *)
Lemma has_option_TRUETYPE (c : DFConfiguration) :
  field_names c !! "TRUETYPE" = None
  ∨ field_names c !! "TRUETYPE" = Some "TRUETYPE" →
  has_option c "TRUETYPE" = Ret (version_ge (df_info c) "0.31.13").
Proof. unfold has_option. by intros [-> | ->]. Qed.

(** C8.  A first registration of a name whose field the table marks as
    unsupported records [field_names[name] = field_name] and nothing
    else: no value, no policy, no file set, no inverse mapping, no place
    in a bulk list; so the name is in none of them. *)
Theorem create_option_unsupported (w : World)
  (name field_name default : string) (vals : values) (fs : list string) :
  wf (self w) →
  settings (self w) !! name = None →
  inverse_field_names (self w) !! name = None →
  has_option (self (recorded name field_name w)) field_name = Ret false →
  ∃ w',
    create_option name field_name default vals fs w = (Ret tt, w')
    ∧ field_names (self w') = <[name := field_name]> (field_names (self w))
    ∧ settings (self w') = settings (self w)
    ∧ options (self w') = options (self w)
    ∧ files (self w') = files (self w)
    ∧ inverse_field_names (self w') = inverse_field_names (self w)
    ∧ in_files (self w') = in_files (self w)
    ∧ disk w' = disk w
    ∧ settings (self w') !! name = None
    ∧ options (self w') !! name = None
    ∧ files (self w') !! name = None
    ∧ (∀ fs' names,
         in_files (self w') !! fs' = Some names → name ∉ names).
Proof.
  intros [H1 H2 H3] Hs Hi Hgate. exists (recorded name field_name w).
  rewrite create_option_fresh, Hgate by done. simpl.
  repeat split; try done.
  - destruct (options (self w) !! name) eqn:E; [|done].
    destruct (H1 name ltac:(by eexists)) as [? ?]. congruence.
  - destruct (files (self w) !! name) eqn:E; [|done].
    destruct (H2 name ltac:(by eexists)) as [? ?]. congruence.
  - intros fs' names Hfs Hn.
    destruct (H3 fs' names name Hfs Hn) as [? ?]. congruence.
Qed.

Lemma create_option_unsupported_witness :
  ∃ w',
    create_option "truetype" "TRUETYPE" "YES" ForceBool ["init.txt"]
      (world0 v0_31_12 ∅) = (Ret tt, w')
    ∧ field_names (self w') = <["truetype" := "TRUETYPE"]> ∅
    ∧ settings (self w') = ∅
    ∧ options (self w') = ∅
    ∧ files (self w') = ∅
    ∧ inverse_field_names (self w') = ∅
    ∧ in_files (self w') = ∅
    ∧ disk w' = ∅
    ∧ settings (self w') !! "truetype" = None
    ∧ options (self w') !! "truetype" = None
    ∧ files (self w') !! "truetype" = None
    ∧ (∀ fs' names,
         in_files (self w') !! fs' = Some names → "truetype" ∉ names).
Proof.
  apply (create_option_unsupported (world0 v0_31_12 ∅) "truetype"
           "TRUETYPE" "YES" ForceBool ["init.txt"]).
  - apply wf_empty.
  - reflexivity.
  - reflexivity.
  - rewrite has_option_TRUETYPE; [reflexivity|]. left. reflexivity.
Defined.

(** A registry for a version older than [TRUETYPE], after the catalog
    entry of [truetype] was given to [create_option]. *)
Definition gated_truetype : World :=
  (create_option "truetype" "TRUETYPE" "YES" ForceBool ["init.txt"]
     (world0 v0_31_12 ∅)).2.

(** A registry in which [SOUND] is the field of [sound]. *)
Definition with_sound : World :=
  (create_option "sound" "SOUND" "YES" (Items ["YES"; "NO"]) ["init.txt"]
     (world0 v0_40_24 ∅)).2.

(** C5, as stated, fails.  A name that [create_option] was called with
    but that the version gate kept out of [settings] is registered by a
    later call; and a call with a new name and a field name that is
    already mapped to another name goes through and takes over the
    inverse mapping. *)
Lemma create_option_again_changes_registry :
  (field_names (self gated_truetype) !! "truetype" = Some "TRUETYPE"
   ∧ self (create_option "truetype" "SOUND" "YES" (Items ["YES"; "NO"])
             ["init.txt"] gated_truetype).2
     ≠ self gated_truetype)
  ∧ (inverse_field_names (self with_sound) !! "SOUND" = Some "sound"
     ∧ inverse_field_names
         (self (create_option "mute" "SOUND" "NO" NoValues ["init.txt"]
                  with_sound).2) !! "SOUND" = Some "mute"
     ∧ self (create_option "mute" "SOUND" "NO" NoValues ["init.txt"]
               with_sound).2
       ≠ self with_sound).
Proof.
  split; [split|split; [|split]]; try reflexivity.
  - intros H. apply (f_equal (λ c, settings c !! "truetype")) in H.
    vm_compute in H. discriminate.
  - intros H. apply (f_equal (λ c, settings c !! "mute")) in H.
    vm_compute in H. discriminate.
Qed.

(** C5 (amended).  [create_option] changes nothing when its [name] is
    already a key of [settings] or of [inverse_field_names]; so once a
    registration under a name went through, every later call with that
    name, whatever its other arguments, leaves the registry as it is. *)
Theorem create_option_first_wins :
  (∀ (w : World) (name field_name default : string) (vals : values)
     (fs : list string),
     is_Some (settings (self w) !! name)
     ∨ is_Some (inverse_field_names (self w) !! name) →
     create_option name field_name default vals fs w = (Ret tt, w))
  ∧ (∀ (w : World) (name field_name default : string) (vals : values)
       (fs : list string) (field_name' default' : string)
       (vals' : values) (fs' : list string),
       settings (self w) !! name = None →
       inverse_field_names (self w) !! name = None →
       has_option (self (recorded name field_name w)) field_name
       = Ret true →
       (create_option name field_name default vals fs ;;
        create_option name field_name' default' vals' fs') w
       = create_option name field_name default vals fs w).
Proof.
  split.
  - apply create_option_known.
  - intros w name field_name dflt vals fs field_name' dflt' vals' fs'
      Hs Hi Hgate.
    rewrite (create_option_fresh w name field_name dflt vals fs Hs Hi).
    rewrite Hgate.
    erewrite bind_Ret; cycle 1.
    { rewrite create_option_fresh, Hgate by done. reflexivity. }
    apply create_option_known. left. simpl.
    rewrite lookup_insert_eq. by eexists.
Qed.

Lemma create_option_first_wins_witness :
  create_option "sound" "MUSIC" "NO" NoValues ["other.txt"] with_sound
  = (Ret tt, with_sound)
  ∧ (create_option "sound" "SOUND" "YES" (Items ["YES"; "NO"])
       ["init.txt"] ;;
     create_option "sound" "MUSIC" "NO" NoValues ["other.txt"])
      (world0 v0_40_24 ∅)
    = create_option "sound" "SOUND" "YES" (Items ["YES"; "NO"])
        ["init.txt"] (world0 v0_40_24 ∅).
Proof.
  destruct create_option_first_wins as [Hknown Hagain]. split.
  - apply Hknown. left. by eexists.
  - apply Hagain; reflexivity.
Defined.

(* ===================================================================== *)
(** * Automatic registration *)
(* ===================================================================== *)

(** A capital name that is not in the table stops the automatic
    registration with a [KeyError], after the name was recorded. *)
Lemma auto_add_unknown_capital (w : World) (filename : string)
  (fields : list string) :
  disk w !! filename = Some "[CUSTOM:5]" →
  settings (self w) !! "CUSTOM" = None →
  inverse_field_names (self w) !! "CUSTOM" = None →
  read_file filename fields true w
  = (Raise (KeyError "CUSTOM"), recorded "CUSTOM" "CUSTOM" w).
Proof.
  intros Hd Hs Hi. unfold read_file.
  erewrite bind_Ret; cycle 1.
  { unfold read_text. by rewrite Hd. }
  apply bind_Raise.
  change (Re.findall Re.any_field "[CUSTOM:5]") with [("CUSTOM", "5")].
  cbn [for_each fst snd]. apply bind_Raise.
  rewrite create_option_fresh by done.
  unfold has_option. cbn [recorded with_self self with_field_names
                           field_names].
  by rewrite lookup_insert_eq.
Qed.

(** C4.  On an empty registry, reading a file that holds [[CUSTOM:5]]
    with automatic registration raises [KeyError]: [CUSTOM] starts with
    a capital and is not in the table.  The name is in [field_names];
    no option is registered.  With a small initial the same token is
    registered. *)
Theorem auto_add_CUSTOM_KeyError :
  read_file "init.txt" [] true
    (world0 v0_40_24 {["init.txt" := "[CUSTOM:5]"]})
  = (Raise (KeyError "CUSTOM"),
     recorded "CUSTOM" "CUSTOM"
       (world0 v0_40_24 {["init.txt" := "[CUSTOM:5]"]}))
  ∧ settings
      (self (read_file "init.txt" [] true
               (world0 v0_40_24 {["init.txt" := "[CUSTOM:5]"]})).2)
    !! "CUSTOM" = None
  ∧ settings
      (self (read_file "init.txt" [] true
               (world0 v0_40_24 {["init.txt" := "[custom:5]"]})).2)
    !! "custom" = Some "5".
Proof.
  split; [|split].
  - by apply auto_add_unknown_capital.
  - by rewrite auto_add_unknown_capital.
  - reflexivity.
Qed.

(* ===================================================================== *)
(** * The registry stays well formed *)
(* ===================================================================== *)

(** A computation keeps a property of the world, whether it returns or
    raises. *)
Definition keeps {A} (P : World → Prop) (m : M A) : Prop :=
  ∀ w, P w → P (m w).2.

Lemma keeps_bind {A B} (P : World → Prop) (m : M A) (k : A → M B) :
  keeps P m → (∀ a, keeps P (k a)) → keeps P (m ≫= k).
Proof.
  intros Hm Hk w Hw. unfold mbind, M_bind, bind.
  specialize (Hm w Hw). destruct (m w) as [[a|e] w']; simpl in *.
  - by apply Hk.
  - done.
Qed.

Lemma keeps_for_each {A} (P : World → Prop) (xs : list A)
  (body : A → M unit) :
  (∀ x, keeps P (body x)) → keeps P (for_each xs body).
Proof.
  intros Hbody. induction xs as [|x xs IH]; simpl.
  - by intros w Hw.
  - apply keeps_bind; [apply Hbody|]. intros _. apply IH.
Qed.

Definition wf_world (w : World) : Prop := wf (self w).

Lemma read_field_wf (filename text field : string) :
  keeps wf_world (read_field filename text field).
Proof.
  intros w Hw. unfold wf_world, read_field in *. unfold_monad.
  unfold ret, raise.
  repeat (case_match; simplify_eq/=; try done);
    by apply wf_with_settings.
Qed.

Lemma read_file_wf (filename : string) (fields : list string)
  (auto_add : bool) :
  keeps wf_world (read_file filename fields auto_add).
Proof.
  unfold read_file. apply keeps_bind.
  { intros w Hw. unfold read_text. by case_match. }
  intros text. apply keeps_bind.
  - destruct auto_add; [|by intros w Hw].
    apply keeps_for_each. intros [n v] w Hw. by apply create_option_wf.
  - intros _. apply keeps_for_each. intros field. apply read_field_wf.
Qed.

Lemma cycle_item_wf (name : string) : keeps wf_world (cycle_item name).
Proof.
  intros w Hw. unfold wf_world, cycle_item in *. unfold_monad.
  unfold ret, raise.
  repeat (case_match; simplify_eq/=; try done);
    by apply wf_with_settings.
Qed.

(* ===================================================================== *)
(** * Attribute access and the constructor *)
(* ===================================================================== *)

Arguments dict_get {V} d k : simpl never.

(** [__getattr__]: Python calls it for a name that is no attribute of
    the object. *)
Definition __getattr__ (name : string) : M string :=
  c ← get_self ;
  match inverse_field_names c !! name with
  | Some name' => item (settings c) name'
  | None => item (settings c) name
  end.

(** [os.path.join] as [posixpath] has it. *)
Definition starts_with_slash (s : string) : bool :=
  match s with
  | String "/" _ => true
  | _ => false
  end.

Fixpoint ends_with_slash (s : string) : bool :=
  match s with
  | "" => false
  | String c "" => Ascii.eqb c "/"
  | String _ s' => ends_with_slash s'
  end.

Definition path_join (a : string) (parts : list string) : string :=
  foldl (λ path b,
           if starts_with_slash b then b
           else if String.eqb path "" || ends_with_slash path
                then path +:+ b
                else path +:+ "/" +:+ b)
    a parts.

(** What [__init__] asks of [df_info] besides what [DFInfo] has:
    [version_le s] is [df_info.version <= s]. *)
Record DFInstall := {
  info : DFInfo;
  version_le : string → bool;
}.

Definition str_install (version : string) (vars : list string)
  : DFInstall :=
  {| info := str_info version vars;
     version_le := fun s => String.leb version s |}.

Definition __init__ (base_dir : string) (df : DFInstall) : M unit :=
  set_self (λ _, empty_configuration base_dir (info df)) ;;
  (* init.txt *)
  let boolvals := Items ["YES"; "NO"] in
  let init := [path_join base_dir ["data"; "init"; "init.txt"]] in
  (if bool_decide ("legacy" ∉ variations (info df))
   then create_option "truetype" "TRUETYPE" "YES" ForceBool init
   else ret tt) ;;
  create_option "sound" "SOUND" "YES" boolvals init ;;
  create_option "volume" "VOLUME" "255" NoValues init ;;
  create_option "introMovie" "INTRO" "YES" boolvals init ;;
  create_option "startWindowed" "WINDOWED" "YES"
    (Items ["YES"; "NO"; "PROMPT"]) init ;;
  create_option "fpsCounter" "FPS" "NO" boolvals init ;;
  create_option "fpsCap" "FPS_CAP" "100" NoValues init ;;
  create_option "gpsCap" "G_FPS_CAP" "50" NoValues init ;;
  create_option "procPriority" "PRIORITY" "NORMAL"
    (Items ["REALTIME"; "HIGH"; "ABOVE_NORMAL"; "NORMAL"; "BELOW_NORMAL";
            "IDLE"]) init ;;
  create_option "compressSaves" "COMPRESSED_SAVES" "YES" boolvals init ;;
  (if bool_decide ("legacy" ∉ variations (info df))
   then
     let printmodes :=
       ["2D"; "STANDARD"]
       ++ (if bool_decide ("twbt" ∈ variations (info df))
           then ["TWBT"; "TWBT_LEGACY"] else []) in
     create_option "printmode" "PRINT_MODE" "2D" (Items printmodes) init
   else ret tt) ;;
  (* d_init.txt *)
  let dinit :=
    if version_le df "0.31.03" then init
    else [path_join base_dir ["data"; "init"; "d_init.txt"]] in
  create_option "popcap" "POPULATION_CAP" "200" NoValues dinit ;;
  create_option "strictPopcap" "STRICT_POPULATION_CAP" "220" NoValues
    dinit ;;
  create_option "childcap" "BABY_CHILD_CAP" "100:1000" NoValues dinit ;;
  create_option "invaders" "INVADERS" "YES" boolvals dinit ;;
  create_option "temperature" "TEMPERATURE" "YES" boolvals dinit ;;
  create_option "weather" "WEATHER" "YES" boolvals dinit ;;
  create_option "caveins" "CAVEINS" "YES" boolvals dinit ;;
  create_option "liquidDepth" "SHOW_FLOW_AMOUNTS" "YES" boolvals dinit ;;
  create_option "variedGround" "VARIED_GROUND_TILES" "YES" boolvals
    dinit ;;
  (if version_le df "0.34.06"
   then create_option "laborLists" "SET_LABOR_LISTS" "YES" boolvals dinit
   else create_option "laborLists" "SET_LABOR_LISTS" "SKILLS"
          (Items ["NO"; "SKILLS"; "BY_UNIT_TYPE"]) dinit) ;;
  create_option "autoSave" "AUTOSAVE" "SEASONAL"
    (Items ["NONE"; "SEASONAL"; "YEARLY"]) dinit ;;
  create_option "autoBackup" "AUTOBACKUP" "YES" boolvals dinit ;;
  create_option "autoSavePause" "AUTOSAVE_PAUSE" "YES" boolvals dinit ;;
  create_option "initialSave" "INITIAL_SAVE" "YES" boolvals dinit ;;
  create_option "pauseOnLoad" "PAUSE_ON_LOAD" "YES" boolvals dinit ;;
  create_option "entombPets" "COFFIN_NO_PETS_DEFAULT" "NO" NegatedBool
    dinit ;;
  create_option "artifacts" "ARTIFACTS" "YES" boolvals dinit ;;
  (* special *)
  let aquifer_files :=
    if version_lt (info df) "0.31"
    then ["matgloss_stone_layer.txt"; "matgloss_stone_mineral.txt";
          "matgloss_stone_soil.txt"]
    else ["inorganic_stone_layer.txt"; "inorganic_stone_mineral.txt";
          "inorganic_stone_soil.txt"] in
  create_option "aquifers" "AQUIFER" "NO" Disabled
    ((λ a, path_join base_dir ["raw"; "objects"; a]) <$> aquifer_files).

(* ===================================================================== *)
(** * The constructor returns *)
(* ===================================================================== *)

(** A computation returns from every world with [P], in a world with
    [P]. *)
Definition returns (P : World → Prop) (m : M unit) : Prop :=
  ∀ w, P w → ∃ w', m w = (Ret tt, w') ∧ P w'.

Lemma returns_bind (P : World → Prop) (m : M unit) (k : unit → M unit) :
  returns P m → returns P (k tt) → returns P (m ≫= k).
Proof.
  intros Hm Hk w Hw. destruct (Hm w Hw) as (w1 & E & Hw1).
  rewrite (bind_Ret _ _ _ _ _ E). by apply Hk.
Qed.

Lemma returns_ret (P : World → Prop) : returns P (ret tt).
Proof. intros w Hw. by exists w. Qed.

Lemma returns_if (P : World → Prop) (b : bool) (m1 m2 : M unit) :
  returns P m1 → returns P m2 → returns P (if b then m1 else m2).
Proof. by destruct b. Qed.

(** A name of the catalog: it starts with a letter that [lower] leaves
    as it is. *)
Definition internal (name : string) : bool :=
  match name with
  | "" => false
  | String first _ => negb (lowered first)
  end.

(** A field of the catalog: it starts with a capital and the table has
    it, with one version or two. *)
Definition listed (field_name : string) : bool :=
  match field_name with
  | "" => false
  | String first _ =>
      lowered first
      && match dict_get data field_name with
         | Some [_] | Some [_; _] => true
         | _ => false
         end
  end.

(** What the constructor keeps true while it registers: the registry is
    well formed, every recorded name is internal, and the names of
    [out] are not recorded and have no value. *)
Definition building (out : list string) (w : World) : Prop :=
  wf (self w)
  ∧ (∀ k v, field_names (self w) !! k = Some v → internal k = true)
  ∧ (∀ n, n ∈ out →
       field_names (self w) !! n = None ∧ settings (self w) !! n = None).

Lemma has_option_listed (c : DFConfiguration) (name field_name : string) :
  (∀ k v, field_names c !! k = Some v → internal k = true) →
  internal name = true → listed field_name = true →
  ∃ b, has_option (with_field_names <[name := field_name]> c) field_name
       = Ret b.
Proof.
  intros Hcat Hname Hfield. unfold has_option. cbn [field_names
    with_field_names df_info].
  assert (name ≠ field_name) as Hne.
  { intros ->. destruct field_name as [|c0 s]; [done|].
    simpl in *. apply andb_true_iff in Hfield as [Hl _].
    by rewrite Hl in Hname. }
  rewrite lookup_insert_ne by done.
  destruct (field_names c !! field_name) as [v|] eqn:E.
  { apply Hcat in E. destruct field_name as [|c0 s]; [done|].
    simpl in *. apply andb_true_iff in Hfield as [Hl _].
    by rewrite Hl in E. }
  destruct field_name as [|c0 s]; [done|]. unfold listed in Hfield.
  apply andb_true_iff in Hfield as [Hl Hd]. rewrite Hl. cbn [negb].
  destruct (dict_get data (String c0 s)) as [[|a [|b [|? ?]]]|];
    try done; by eexists.
Qed.

Lemma create_option_returns (out : list string)
  (name field_name default : string) (vals : values) (fs : list string) :
  internal name = true → listed field_name = true → name ∉ out →
  returns (building out) (create_option name field_name default vals fs).
Proof.
  intros Hname Hfield Hout w (Hwf & Hcat & Hnone).
  destruct (settings (self w) !! name) as [v|] eqn:Hs.
  { exists w. rewrite create_option_known; [done|]. left. by eexists. }
  destruct (inverse_field_names (self w) !! name) as [v|] eqn:Hi.
  { exists w. rewrite create_option_known; [done|]. right. by eexists. }
  rewrite create_option_fresh by done.
  destruct (has_option_listed (self w) name field_name Hcat Hname Hfield)
    as [b Hb].
  unfold recorded, with_self. cbn [self]. rewrite Hb.
  assert (∀ k v, <[name := field_name]> (field_names (self w)) !! k
                 = Some v → internal k = true) as Hcat'.
  { intros k v. destruct (decide (name = k)) as [<-|Hne];
      [done|rewrite lookup_insert_ne by done; apply Hcat]. }
  assert (∀ n, n ∈ out → name ≠ n) as Hdiff by (intros n Hn ->; done).
  destruct b; eexists; (split; [reflexivity|]); unfold building;
    cbn [self]; (split; [|split]).
  - by apply wf_registered.
  - intros k v. apply Hcat'.
  - intros n Hn. destruct (Hnone n Hn) as [Hf Hs'].
    cbn [field_names settings registered].
    by rewrite !lookup_insert_ne by auto.
  - by apply wf_recorded.
  - intros k v. apply Hcat'.
  - intros n Hn. destruct (Hnone n Hn) as [Hf Hs'].
    cbn [field_names settings with_field_names].
    by rewrite !lookup_insert_ne by auto.
Qed.

Lemma building_empty (out : list string) (dir : string) (i : DFInfo)
  (w : World) :
  building out (with_self (λ _, empty_configuration dir i) w).
Proof.
  split; [apply wf_empty|]. split.
  - intros k v H. simpl in H. by rewrite lookup_empty in H.
  - intros n _. simpl. by rewrite !lookup_empty.
Qed.

Ltac register_all :=
  repeat first
    [ apply returns_ret
    | apply create_option_returns;
      [reflexivity | reflexivity
      | rewrite ?not_elem_of_cons; repeat split;
        solve [apply not_elem_of_nil | discriminate]]
    | apply returns_if
    | apply returns_bind; cbv beta ].

Lemma init_building (base_dir : string) (df : DFInstall) (w : World) :
  ∃ w', __init__ base_dir df w = (Ret tt, w') ∧ building [] w'.
Proof.
  unfold __init__. cbv zeta.
  erewrite bind_Ret; [|reflexivity].
  apply (returns_bind (building [])
           (if bool_decide ("legacy" ∉ variations (info df))
            then _ else _));
    [| |apply building_empty]; cbv beta; register_all.
Qed.

Lemma init_building_legacy (base_dir : string) (df : DFInstall)
  (w : World) :
  "legacy" ∈ variations (info df) →
  ∃ w', __init__ base_dir df w = (Ret tt, w')
        ∧ building ["truetype"; "printmode"] w'.
Proof.
  intros Hlegacy. unfold __init__. cbv zeta.
  rewrite !(bool_decide_false ("legacy" ∉ variations (info df)))
    by (by intros []).
  erewrite bind_Ret; [|reflexivity].
  apply (returns_bind (building ["truetype"; "printmode"]) (ret tt));
    [| |apply building_empty]; cbv beta; register_all.
Qed.

(** X1.  The constructor never raises, whatever the version and the
    variations: every field of the catalog is in the table.  The
    registry it builds is well formed, and every name it has recorded
    starts with a small letter. *)
Theorem init_returns (base_dir : string) (df : DFInstall) (w : World) :
  ∃ w',
    __init__ base_dir df w = (Ret tt, w')
    ∧ wf (self w')
    ∧ ∀ name field_name,
        field_names (self w') !! name = Some field_name →
        internal name = true.
Proof.
  destruct (init_building base_dir df w) as (w' & E & Hwf & Hcat & _).
  by exists w'.
Qed.

(** X2.  With the variation [legacy] the constructor leaves [truetype]
    and [printmode] out: they have no value and no recorded field. *)
Theorem init_legacy (base_dir : string) (df : DFInstall) (w : World) :
  "legacy" ∈ variations (info df) →
  ∃ w',
    __init__ base_dir df w = (Ret tt, w')
    ∧ settings (self w') !! "truetype" = None
    ∧ field_names (self w') !! "truetype" = None
    ∧ settings (self w') !! "printmode" = None
    ∧ field_names (self w') !! "printmode" = None.
Proof.
  intros Hlegacy.
  destruct (init_building_legacy base_dir df w Hlegacy)
    as (w' & E & _ & _ & Hout).
  exists w'. split; [done|].
  destruct (Hout "truetype") as [? ?]; [rewrite !elem_of_cons; auto|].
  destruct (Hout "printmode") as [? ?]; [rewrite !elem_of_cons; auto|].
  done.
Qed.

Lemma init_legacy_witness :
  ∃ w',
    __init__ "df" (str_install "0.40.24" ["legacy"]) (world0 v0_40_24 ∅)
    = (Ret tt, w')
    ∧ settings (self w') !! "truetype" = None
    ∧ field_names (self w') !! "truetype" = None
    ∧ settings (self w') !! "printmode" = None
    ∧ field_names (self w') !! "printmode" = None.
Proof.
  apply (init_legacy "df" (str_install "0.40.24" ["legacy"])).
  simpl. apply list_elem_of_here.
Defined.

(* ===================================================================== *)
(** * What registration and reading leave alone *)
(* ===================================================================== *)

(** The entries of [n] in the registry are those of [c]. *)
Definition same_option (n : string) (c c' : DFConfiguration) : Prop :=
  settings c' !! n = settings c !! n
  ∧ options c' !! n = options c !! n
  ∧ files c' !! n = files c !! n
  ∧ field_names c' !! n = field_names c !! n.

(** X3.  [create_option] never changes the value, the policy, the file
    set or the recorded field of an option that has a value already,
    whatever its arguments and whether it returns or raises. *)
Theorem create_option_keeps_registered (w : World)
  (name field_name default : string) (vals : values) (fs : list string)
  (n : string) :
  is_Some (settings (self w) !! n) →
  same_option n (self w)
    (self (create_option name field_name default vals fs w).2).
Proof.
  intros Hn.
  destruct (settings (self w) !! name) as [v|] eqn:Hs.
  { rewrite create_option_known; [done|]. left. by eexists. }
  destruct (inverse_field_names (self w) !! name) as [v|] eqn:Hi.
  { rewrite create_option_known; [done|]. right. by eexists. }
  assert (name ≠ n) as Hne.
  { intros ->. rewrite Hs in Hn. by destruct Hn. }
  rewrite create_option_fresh by done.
  destruct (has_option _ field_name) as [[]|e]; unfold same_option;
    simpl; by rewrite ?lookup_insert_ne by done.
Qed.

Lemma create_option_keeps_registered_witness :
  same_option "sound" (self with_sound)
    (self (create_option "mute" "SOUND" "NO" NoValues ["init.txt"]
             with_sound).2).
Proof.
  apply (create_option_keeps_registered with_sound "mute" "SOUND" "NO"
           NoValues ["init.txt"] "sound").
  by eexists.
Defined.

(** The policy, the file set and the recorded field of [n] are those of
    [c]. *)
Definition same_binding (n : string) (c : DFConfiguration) (w' : World)
  : Prop :=
  is_Some (settings (self w') !! n)
  ∧ options (self w') !! n = options c !! n
  ∧ files (self w') !! n = files c !! n
  ∧ field_names (self w') !! n = field_names c !! n.

Lemma read_field_same_binding (n : string) (c : DFConfiguration)
  (filename text field : string) :
  keeps (same_binding n c) (read_field filename text field).
Proof.
  intros w (Hs & Ho & Hf & Hn). unfold same_binding, read_field in *.
  unfold_monad. unfold ret, raise.
  repeat (case_match; simplify_eq/=; try done);
    (split; [|done]);
    (match goal with
     | |- is_Some (<[?k := _]> _ !! _) =>
         destruct (decide (k = n)) as [->|];
         [rewrite lookup_insert_eq; by eexists
         |by rewrite lookup_insert_ne by done]
     end).
Qed.

Lemma create_option_same_binding (n : string) (c : DFConfiguration)
  (name field_name default : string) (vals : values) (fs : list string) :
  keeps (same_binding n c)
    (create_option name field_name default vals fs).
Proof.
  intros w (Hs & Ho & Hf & Hn).
  destruct (create_option_keeps_registered w name field_name default
              vals fs n Hs) as (Hs' & Ho' & Hf' & Hn').
  unfold same_binding. rewrite Hs', Ho', Hf', Hn'. done.
Qed.

(** X4.  [read_file] never changes the policy, the file set or the
    recorded field of an option that has a value, and never takes its
    value away: with or without automatic registration, whatever the
    fields and whether it returns or raises. *)
Theorem read_file_keeps_binding (w : World) (filename : string)
  (fields : list string) (auto_add : bool) (n : string) :
  is_Some (settings (self w) !! n) →
  same_binding n (self w) (read_file filename fields auto_add w).2.
Proof.
  intros Hn.
  assert (keeps (same_binding n (self w))
            (read_file filename fields auto_add)) as Hkeeps.
  { unfold read_file. apply keeps_bind.
    { intros w0 Hw0. unfold read_text. by case_match. }
    intros text. apply keeps_bind.
    - destruct auto_add; [|by intros w0 Hw0].
      apply keeps_for_each. intros [k v].
      apply create_option_same_binding.
    - intros _. apply keeps_for_each. intros field.
      apply read_field_same_binding. }
  by apply Hkeeps.
Qed.

Lemma read_file_keeps_binding_witness :
  same_binding "volume" (self volume_and_cap)
    (read_file "init.txt" ["volume"] true volume_and_cap).2.
Proof.
  apply (read_file_keeps_binding volume_and_cap "init.txt" ["volume"]
           true "volume").
  by eexists.
Defined.

(* ===================================================================== *)
(** * What writing leaves as it was *)
(* ===================================================================== *)

Lemma write_field_state (text field : string) (w : World) :
  (write_field text field w).2 = w.
Proof.
  unfold write_field. unfold_monad. unfold ret, raise.
  repeat (case_match; simplify_eq/=; try done).
Qed.

Lemma write_fields_state (fields : list string) (text : string)
  (w : World) :
  (write_fields text fields w).2 = w.
Proof.
  revert text. induction fields as [|field fields IH]; intros text;
    [done|].
  simpl. unfold mbind, M_bind, bind.
  pose proof (write_field_state text field w) as Hst.
  destruct (write_field text field w) as [[text'|e] w1]; simpl in Hst;
    subst w1; [apply IH|done].
Qed.

Lemma write_field_KeyError (text field : string) (w : World) :
  options (self w) !! field = None →
  write_field text field w = (Raise (KeyError field), w).
Proof.
  intros Ho. unfold write_field. unfold_monad. simpl. by rewrite Ho.
Qed.

Lemma write_fields_unregistered (w : World) (fields : list string)
  (bad : string) :
  bad ∈ fields → options (self w) !! bad = None →
  ∀ text, ∃ e, write_fields text fields w = (Raise e, w).
Proof.
  intros Hin Ho. induction fields as [|field fields IH]; intros text.
  { by apply elem_of_nil in Hin. }
  simpl. unfold mbind, M_bind, bind.
  pose proof (write_field_state text field w) as Hst.
  destruct (write_field text field w) as [[text'|e] w1] eqn:E;
    simpl in Hst; subst w1; [|by exists e].
  apply elem_of_cons in Hin as [->|Hin]; [|by apply IH].
  by rewrite write_field_KeyError in E.
Qed.

(** X5.  A field without a policy makes [write_file] raise before the
    file is opened for writing: the loop over the fields comes first,
    and what it raises, at that field or at an earlier one, leaves the
    file and the registry as they were.  When the field is the first of
    the list and the file can be read, the exception is the [KeyError]
    of that field. *)
Theorem write_file_unregistered_field (w : World) (filename : string)
  (fields : list string) (bad : string) :
  bad ∈ fields → options (self w) !! bad = None →
  (∃ e, write_file filename fields w = (Raise e, w))
  ∧ (∀ rest, fields = bad :: rest → is_Some (disk w !! filename) →
       write_file filename fields w = (Raise (KeyError bad), w)).
Proof.
  intros Hin Ho. split.
  - unfold write_file, read_text. unfold mbind, M_bind, bind.
    destruct (disk w !! filename) as [text|]; [|by exists IOError].
    destruct (write_fields_unregistered w fields bad Hin Ho text)
      as [e ->].
    by exists e.
  - intros rest -> [text Hd].
    eapply write_file_raise; [exact Hd|].
    by apply write_field_KeyError.
Qed.

Lemma write_file_unregistered_field_witness :
  (∃ e, write_file "init.txt" ["volume"; "unknown"] volume_and_cap
        = (Raise e, volume_and_cap))
  ∧ (∀ rest, ["volume"; "unknown"] = "unknown" :: rest →
       is_Some (disk volume_and_cap !! "init.txt") →
       write_file "init.txt" ["volume"; "unknown"] volume_and_cap
       = (Raise (KeyError "unknown"), volume_and_cap)).
Proof.
  apply (write_file_unregistered_field volume_and_cap "init.txt"
           ["volume"; "unknown"] "unknown").
  - rewrite !elem_of_cons. auto.
  - reflexivity.
Defined.

(** X6.  When the file cannot be opened, [read_file] and [write_file]
    raise [IOError] and change nothing: with automatic registration
    nothing is registered, and no field is looked up. *)
Theorem missing_file_IOError (w : World) (filename : string)
  (fields : list string) (auto_add : bool) :
  disk w !! filename = None →
  read_file filename fields auto_add w = (Raise IOError, w)
  ∧ write_file filename fields w = (Raise IOError, w).
Proof.
  intros Hd. unfold read_file, write_file, read_text.
  unfold mbind, M_bind, bind. by rewrite Hd.
Qed.

Lemma missing_file_IOError_witness :
  read_file "d_init.txt" ["volume"; "unknown"] true volume_and_cap
  = (Raise IOError, volume_and_cap)
  ∧ write_file "d_init.txt" ["volume"; "unknown"] volume_and_cap
    = (Raise IOError, volume_and_cap).
Proof.
  apply (missing_file_IOError volume_and_cap "d_init.txt"
           ["volume"; "unknown"] true).
  reflexivity.
Defined.

(** Once every token holds [new], replacing again changes nothing. *)
Lemma sub_idempotent (name new text : string) :
  captured new = true →
  Re.sub (Re.field_value name) (λ _, token name new)
    (Re.sub (Re.field_value name) (λ _, token name new) text)
  = Re.sub (Re.field_value name) (λ _, token name new) text.
Proof.
  intros Hnew.
  remember (String.length text) as n eqn:Hn.
  revert text Hn. induction (lt_wf n) as [n _ IH]. intros text ->.
  destruct (Re.search (Re.field_value name) text) as [[[pre v] post]|]
    eqn:E.
  - rewrite (sub_unfold _ _ (Re.sub _ _ text))
      by apply field_value_consumes.
    rewrite (search_after_sub name new text pre v post Hnew E).
    rewrite (sub_unfold _ _ text), E by apply field_value_consumes.
    do 2 f_equal. eapply IH; [|done].
    eapply search_shorter; [apply field_value_consumes|exact E].
  - rewrite (sub_unfold _ _ text), E by apply field_value_consumes.
    by rewrite sub_unfold, E by apply field_value_consumes.
Qed.

(** X7.  Writing a field twice is writing it once: for a field with a
    value (not a bracket toggle) whose value on disk is not empty, has
    no line feed, no carriage return, no closing bracket after its
    first character and no backslash, a second [write_file] leaves the
    world as the first left it, with a text that is read back as it
    was written. *)
Theorem write_file_idempotent (w : World)
  (filename text field name value new : string) (vals : values) :
  disk w !! filename = Some text →
  Str.mem carriage_return text = false →
  options (self w) !! field = Some vals → vals ≠ Disabled →
  settings (self w) !! field = Some value →
  field_names (self w) !! field = Some name →
  on_disk vals value = Some new →
  Re.literal name = true → Re.plain_template new = true →
  captured new = true → Str.mem carriage_return new = false →
  ∃ text',
    write_file filename [field] w
    = (Ret tt, with_disk <[filename := text']> w)
    ∧ Str.mem carriage_return text' = false
    ∧ (write_file filename [field] ;; write_file filename [field]) w
      = write_file filename [field] w.
Proof.
  intros Hd Hcr Ho Hne Hs Hf Hnew Hlit Hplain Hcap Hncr.
  set (text' := Re.sub (Re.field_value name) (λ _, token name new) text).
  assert (write_file filename [field] w
          = (Ret tt, with_disk <[filename := text']> w)) as E1.
  { eapply write_file_one; [done|].
    eapply write_field_value; eauto using plain_token. }
  exists text'. split; [done|]. split; [by apply sub_field_lacks|].
  rewrite (bind_Ret _ _ _ _ _ E1), E1.
  erewrite write_file_one; cycle 1.
  { simpl. apply lookup_insert_eq. }
  { eapply write_field_value; eauto using plain_token. }
  unfold text'. rewrite sub_idempotent by done.
  unfold with_disk. simpl. by rewrite insert_insert_eq.
Qed.

Lemma write_file_idempotent_witness :
  ∃ text',
    write_file "init.txt" ["sound"] two_sounds
    = (Ret tt, with_disk <["init.txt" := text']> two_sounds)
    ∧ Str.mem carriage_return text' = false
    ∧ (write_file "init.txt" ["sound"] ;; write_file "init.txt" ["sound"])
        two_sounds
      = write_file "init.txt" ["sound"] two_sounds.
Proof.
  apply (write_file_idempotent two_sounds "init.txt"
           "[SOUND:YES] [SOUND:YES]" "sound" "SOUND" "NO" "NO"
           (Items ["YES"; "NO"])); try reflexivity.
  discriminate.
Defined.




(** An [init.txt] that holds neither the field of [sound] nor the
    aquifer literal. *)
Definition no_sound : World :=
  ((create_option "sound" "SOUND" "YES" (Items ["YES"; "NO"])
      ["init.txt"] ;;
    create_option "aquifers" "AQUIFER" "NO" Disabled ["init.txt"])
     (world0 v0_40_24 {["init.txt" := "[VOLUME:255]"]})).2.


(* ===================================================================== *)
(** * Reading by policy *)
(* ===================================================================== *)

(** X9.  A field that is not in the file is no error for [read_file]:
    it prints one warning to [sys.stderr], leaves the value in memory
    as it was, and returns. *)
Theorem read_file_missing_field (w : World)
  (filename text field name : string) (vals : values) :
  disk w !! filename = Some text →
  inverse_field_names (self w) !! field = None →
  options (self w) !! field = Some vals → vals ≠ Disabled →
  field_names (self w) !! field = Some name →
  Re.literal name = true →
  no_token name text →
  read_file filename [field] false w
  = (Ret tt,
     {| self := self w; disk := disk w;
        stderr := stderr w
                  ++ ["WARNING: Expected match for field " +:+ field
                      +:+ " in file " +:+ filename
                      +:+ ". Possible DF version mismatch?"] |}).
Proof.
  intros Hd Hi Ho Hne Hf Hlit Hno%search_no_token.
  eapply read_file_one; [done|]. unfold read_field. unfold_monad.
  simpl. rewrite Hi, Ho. simpl. rewrite bool_decide_false by done.
  by rewrite Hf, Hlit, Hno.
Qed.

Lemma read_file_missing_field_witness :
  read_file "init.txt" ["sound"] false no_sound
  = (Ret tt,
     {| self := self no_sound; disk := disk no_sound;
        stderr := stderr no_sound
                  ++ ["WARNING: Expected match for field " +:+ "sound"
                      +:+ " in file " +:+ "init.txt"
                      +:+ ". Possible DF version mismatch?"] |}).
Proof.
  apply (read_file_missing_field no_sound "init.txt" "[VOLUME:255]"
           "sound" "SOUND" (Items ["YES"; "NO"]));
    try reflexivity; try discriminate.
  by apply search_no_token.
Defined.

(** X10.  For a forced boolean, [read_file] stores ["NO"] when the
    first token of the field holds exactly ["NO"], and ["YES"] whatever
    else it holds. *)
Theorem read_file_force_bool (w : World)
  (filename text field name pre v post : string) :
  disk w !! filename = Some text →
  inverse_field_names (self w) !! field = None →
  options (self w) !! field = Some ForceBool →
  field_names (self w) !! field = Some name →
  Re.literal name = true →
  first_token name text pre v post →
  read_file filename [field] false w
  = (Ret tt,
     with_self
       (with_settings
          <[field := if String.eqb v "NO" then "NO" else "YES"]>) w).
Proof.
  intros Hd Hi Ho Hf Hlit Hfirst%search_first_token.
  eapply read_file_one; [done|]. unfold read_field. unfold_monad.
  simpl. rewrite Hi, Ho. simpl. rewrite Hf, Hlit. simpl.
  rewrite Hfirst. destruct (String.eqb_spec v "NO") as [->|Hne]; done.
Qed.

(** A registry for [truetype] and an [init.txt] whose field holds
    neither ["YES"] nor ["NO"]. *)
Definition truetype_24 : World :=
  (create_option "truetype" "TRUETYPE" "YES" ForceBool ["init.txt"]
     (world0 v0_40_24 {["init.txt" := "[TRUETYPE:24]"]})).2.

Lemma read_file_force_bool_witness :
  read_file "init.txt" ["truetype"] false truetype_24
  = (Ret tt,
     with_self
       (with_settings
          <["truetype" := if String.eqb "24" "NO" then "NO" else "YES"]>)
       truetype_24).
Proof.
  apply (read_file_force_bool truetype_24 "init.txt" "[TRUETYPE:24]"
           "truetype" "TRUETYPE" "" "24" ""); try reflexivity.
  by apply search_first_token.
Defined.

Lemma contains_occurrence (old text : string) :
  Re.contains old text = true ↔ ∃ pre post, text = pre +:+ old +:+ post.
Proof.
  unfold Re.contains. split.
  - destruct (Re.search (Re.lit old) text) as [[[pre []] post]|] eqn:E;
      [|done].
    intros _. apply search_first_occurrence in E as [-> _]. eauto.
  - intros (pre & post & ->).
    destruct (search_is_Some (Re.lit old) pre (old +:+ post))
      as [x ->]; [|done].
    exists (tt, post). by apply lit_Some.
Qed.

(** X11.  For a bracket toggle, [read_file] looks for [[F]] only: when
    the literal is in the text the value becomes ["YES"], and when it is
    not, the value in memory stays as it was; [!F!] is never read, so
    no read makes the value ["NO"]. *)
Theorem read_file_toggle (w : World) (filename text field name : string) :
  disk w !! filename = Some text →
  inverse_field_names (self w) !! field = None →
  options (self w) !! field = Some Disabled →
  field_names (self w) !! field = Some name →
  ((∃ pre post, text = pre +:+ enabled name +:+ post) →
   read_file filename [field] false w
   = (Ret tt, with_self (with_settings <[field := "YES"]>) w))
  ∧ (absent (enabled name) text →
     read_file filename [field] false w = (Ret tt, w)).
Proof.
  intros Hd Hi Ho Hf. split.
  - intros Hocc%contains_occurrence.
    eapply read_file_one; [done|]. unfold read_field. unfold_monad.
    simpl. rewrite Hi, Ho. simpl. rewrite Hf.
    fold (enabled name). by rewrite Hocc.
  - intros Habs.
    assert (Re.contains (enabled name) text = false) as Hno.
    { destruct (Re.contains (enabled name) text) eqn:E; [|done].
      apply contains_occurrence in E as (pre & post & ->).
      by destruct (Habs pre post). }
    eapply read_file_one; [done|]. unfold read_field. unfold_monad.
    simpl. rewrite Hi, Ho. simpl. rewrite Hf.
    fold (enabled name). by rewrite Hno.
Qed.

Lemma read_file_toggle_witness :
  read_file "stone.txt" ["aquifers"] false two_aquifers
  = (Ret tt,
     with_self (with_settings <["aquifers" := "YES"]>) two_aquifers)
  ∧ read_file "stone.txt" ["aquifers"] false no_aquifer
    = (Ret tt, no_aquifer).
Proof.
  split.
  - apply (read_file_toggle two_aquifers "stone.txt"
             "[AQUIFER] [SOIL] [AQUIFER]" "aquifers" "AQUIFER");
      try reflexivity.
    by exists "", " [SOIL] [AQUIFER]".
  - apply (read_file_toggle no_aquifer "stone.txt" "[SOIL] !AQUIFER!"
             "aquifers" "AQUIFER"); try reflexivity.
    by apply search_absent.
Defined.

(* ===================================================================== *)
(** * Counting parameters *)
(* ===================================================================== *)

(** [-1] is no limit. *)
Definition within (num_params min_params max_params count : Z) : bool :=
  (bool_decide (num_params = -1) || bool_decide (count = num_params))
  && (bool_decide (min_params = -1) || bool_decide (min_params ≤ count))
  && (bool_decide (max_params = -1) || bool_decide (count ≤ max_params)).

(** X12.  [has_field] counts the parameters of the first token of the
    field: one more than the colons in its value.  It returns whether
    that count is the exact number asked for and within the minimum and
    the maximum, each ignored when it is [-1]. *)
Theorem has_field_counts (w : World)
  (filename text field pre v post : string)
  (num_params min_params max_params : Z) :
  disk w !! filename = Some text → Re.literal field = true →
  first_token field text pre v post →
  has_field filename field num_params min_params max_params w
  = (Ret (within num_params min_params max_params
            (1 + Str.count ":" v)), w).
Proof.
  intros Hd Hlit Hfirst%search_first_token.
  unfold has_field, except_IOError. unfold_monad. rewrite Hd, Hlit.
  assert (Re.search (Re.field_params field) text
          = Some (pre, String ":" v, post)) as ->.
  { destruct (search_Some _ _ _ _ _ Hfirst) as (t & -> & Ht).
    apply search_intro.
    - unfold Re.field_params. by rewrite Ht.
    - intros pre' t' Heq Hlt. unfold Re.field_params.
      by rewrite (search_leftmost _ _ _ _ _ Hfirst pre' t' Heq Hlt). }
  cbn [Str.count]. rewrite Ascii.eqb_refl. unfold within.
  set (n := 1 + Str.count ":" v).
  repeat case_bool_decide; subst;
    repeat match goal with
      | |- context [(?a =? ?b)] => destruct (Z.eqb_spec a b)
      | |- context [(?a <? ?b)] => destruct (Z.ltb_spec a b)
      | |- context [(?a >? ?b)] =>
          rewrite (Z.gtb_ltb a b); destruct (Z.ltb_spec b a)
      end; simpl; try done; lia.
Qed.

Definition sky : World :=
  world0 v0_40_24 {["d_init.txt" := "[SKY:178:3:0:0]"]}.

Lemma has_field_counts_witness :
  has_field "d_init.txt" "SKY" (-1) 2 4 sky
  = (Ret (within (-1) 2 4 (1 + Str.count ":" "178:3:0:0")), sky).
Proof.
  apply (has_field_counts sky "d_init.txt" "[SKY:178:3:0:0]" "SKY"
           "" "178:3:0:0" ""); try reflexivity.
  by apply search_first_token.
Defined.

(** X13.  Without limits, [has_field] says whether [read_value] finds
    a value: for a file that opens or not, [has_field] returns [True]
    exactly when [read_value] returns a string. *)
Theorem has_field_iff_read_value (w : World) (filename field : string) :
  Re.literal field = true →
  ∃ found,
    read_value filename field w = (Ret found, w)
    ∧ has_field filename field (-1) (-1) (-1) w
      = (Ret (bool_decide (is_Some found)), w).
Proof.
  intros Hlit. unfold read_value, has_field, except_IOError.
  unfold_monad. destruct (disk w !! filename) as [text|];
    [|by exists None].
  rewrite Hlit.
  destruct (Re.search (Re.field_value field) text) as [[[pre v] post]|]
    eqn:E.
  - exists (Some v). split; [done|].
    assert (Re.search (Re.field_params field) text
            = Some (pre, String ":" v, post)) as ->; [|done].
    destruct (search_Some _ _ _ _ _ E) as (t & -> & Ht).
    apply search_intro.
    + unfold Re.field_params. by rewrite Ht.
    + intros pre' t' Heq Hlt. unfold Re.field_params.
      by rewrite (search_leftmost _ _ _ _ _ E pre' t' Heq Hlt).
  - exists None. split; [done|].
    assert (Re.search (Re.field_params field) text = None) as ->;
      [|done].
    apply search_None_intro. intros pre t ->. unfold Re.field_params.
    by rewrite (search_None _ _ E pre t eq_refl).
Qed.

Lemma has_field_iff_read_value_witness :
  ∃ found,
    read_value "d_init.txt" "SKY" sky = (Ret found, sky)
    ∧ has_field "d_init.txt" "SKY" (-1) (-1) (-1) sky
      = (Ret (bool_decide (is_Some found)), sky).
Proof.
  apply (has_field_iff_read_value sky "d_init.txt" "SKY"). reflexivity.
Defined.

(* ===================================================================== *)
(** * Cycling, more *)
(* ===================================================================== *)

(** The list [cycle_list] goes through. *)
Definition value_list (vals : values) : option (list string) :=
  match vals with
  | NoValues => None
  | Items items => Some items
  | _ => Some ["YES"; "NO"]
  end.

(** X14.  Whatever the current value, [cycle_list] over a list that is
    not empty returns one of its values: cycling brings a value that is
    not allowed back among the allowed ones. *)
Theorem cycle_list_member (current : string) (vals : values)
  (items : list string) :
  value_list vals = Some items → items ≠ [] →
  ∃ v, cycle_list current vals = Ret v ∧ v ∈ items.
Proof.
  intros Hl Hne.
  assert (cycle_list current vals = cycle_list current (Items items))
    as ->.
  { destruct vals; simplify_eq/=; done. }
  unfold cycle_list.
  destruct (list_find (λ x, x = current) items) as [[i x]|] eqn:E.
  - destruct (lookup_lt_is_Some_2 items ((i + 1) `mod` length items)%nat)
      as [y Hy].
    { apply Nat.mod_upper_bound. by destruct items. }
    rewrite Hy. exists y. split; [done|].
    by eapply list_elem_of_lookup_2.
  - destruct items as [|first rest]; [done|].
    exists first. split; [done|]. apply list_elem_of_here.
Qed.

Lemma cycle_list_member_witness :
  ∃ v, cycle_list "BOGUS" ForceBool = Ret v ∧ v ∈ ["YES"; "NO"].
Proof.
  apply (cycle_list_member "BOGUS" ForceBool ["YES"; "NO"]);
    [reflexivity|discriminate].
Defined.

Lemma cycle_list_next (items : list string) (i : nat) (x : string) :
  NoDup items → items !! i = Some x →
  ∃ y, cycle_list x (Items items) = Ret y
       ∧ items !! ((i + 1) `mod` length items)%nat = Some y.
Proof.
  intros Hnd Hi. unfold cycle_list.
  assert (list_find (λ y, y = x) items = Some (i, x)) as ->.
  { apply list_find_Some. split; [done|]. split; [done|].
    intros j y Hj Hlt ->.
    pose proof (NoDup_lookup _ _ _ _ Hnd Hi Hj). lia. }
  destruct (lookup_lt_is_Some_2 items ((i + 1) `mod` length items)%nat)
    as [y Hy].
  { apply Nat.mod_upper_bound. by destruct items. }
  rewrite Hy. by exists y.
Qed.

Lemma cycle_item_step (w : World) (name current v : string)
  (vals : values) :
  settings (self w) !! name = Some current →
  options (self w) !! name = Some vals →
  cycle_list current vals = Ret v →
  cycle_item name w
  = (Ret tt, with_self (with_settings <[name := v]>) w).
Proof.
  intros Hs Ho Hc. unfold cycle_item. unfold_monad.
  by rewrite Hs, Ho, Hc.
Qed.

Lemma with_settings_twice (w : World) (name v v' : string) :
  with_self (with_settings <[name := v']>)
    (with_self (with_settings <[name := v]>) w)
  = with_self (with_settings <[name := v']>) w.
Proof.
  unfold with_self, with_settings. simpl. by rewrite insert_insert_eq.
Qed.

Lemma with_settings_same (w : World) (name v : string) :
  settings (self w) !! name = Some v →
  with_self (with_settings <[name := v]>) w = w.
Proof.
  intros Hs. destruct w as [[] ? ?]. unfold with_self, with_settings.
  simpl in *. by rewrite insert_id.
Qed.

Lemma cycle_item_times (items : list string) (name : string) (k : nat) :
  NoDup items →
  ∀ (w : World) (i : nat) (x : string),
    settings (self w) !! name = Some x →
    options (self w) !! name = Some (Items items) →
    items !! i = Some x →
    ∃ y, items !! ((i + k) `mod` length items)%nat = Some y
         ∧ for_each (replicate k name) cycle_item w
           = (Ret tt, with_self (with_settings <[name := y]>) w).
Proof.
  intros Hnd. induction k as [|k IH]; intros w i x Hs Ho Hi.
  - exists x. rewrite Nat.add_0_r, Nat.mod_small
      by by eapply lookup_lt_Some.
    split; [done|]. simpl. by rewrite with_settings_same.
  - destruct (cycle_list_next items i x Hnd Hi) as (y & Hc & Hy).
    pose proof (cycle_item_step w name x y _ Hs Ho Hc) as Hstep.
    destruct (IH (with_self (with_settings <[name := y]>) w)
                ((i + 1) `mod` length items)%nat y)
      as (z & Hz & Hrun); [simpl; apply lookup_insert_eq|done|done|].
    exists z. split.
    + rewrite <- Hz. rewrite Nat.Div0.add_mod_idemp_l. f_equal. f_equal.
      lia.
    + simpl. rewrite (bind_Ret _ _ _ _ _ Hstep), Hrun.
      by rewrite with_settings_twice.
Qed.

(** X15.  Cycling goes round: for an option whose list of values has no
    repetition and whose value is in the list, as many calls of
    [cycle_item] as the list has values bring the registry back to what
    it was. *)
Theorem cycle_item_round (w : World) (name current : string)
  (items : list string) :
  NoDup items →
  settings (self w) !! name = Some current →
  options (self w) !! name = Some (Items items) →
  current ∈ items →
  for_each (replicate (length items) name) cycle_item w = (Ret tt, w).
Proof.
  intros Hnd Hs Ho [i Hi]%list_elem_of_lookup.
  destruct (cycle_item_times items name (length items) Hnd w i current
              Hs Ho Hi) as (y & Hy & Hrun).
  rewrite Hrun. f_equal.
  replace ((i + length items) `mod` length items)%nat with i in Hy.
  - rewrite Hi in Hy. injection Hy as <-. by apply with_settings_same.
  - rewrite <- Nat.Div0.add_mod_idemp_r, Nat.Div0.mod_same, Nat.add_0_r.
    symmetry. apply Nat.mod_small. by eapply lookup_lt_Some.
Qed.

Lemma cycle_item_round_witness :
  for_each (replicate (length ["YES"; "NO"]) "sound") cycle_item
    with_sound
  = (Ret tt, with_sound).
Proof.
  apply (cycle_item_round with_sound "sound" "YES" ["YES"; "NO"]);
    try reflexivity.
  - repeat constructor; rewrite ?not_elem_of_cons;
      repeat split; try discriminate; apply not_elem_of_nil.
  - apply list_elem_of_here.
Defined.

(** X16.  [set_value] registers nothing: a name that has no policy
    cannot be cycled, with or without a value; [cycle_item] raises
    [KeyError] for it and leaves the registry as it was. *)
Theorem cycle_item_KeyError (w : World) (name value : string) :
  options (self w) !! name = None →
  cycle_item name w = (Raise (KeyError name), w)
  ∧ (set_value name value ;; cycle_item name) w
    = (Raise (KeyError name),
       with_self (with_settings <[name := value]>) w).
Proof.
  intros Ho. split.
  - unfold cycle_item. unfold_monad.
    destruct (settings (self w) !! name); by rewrite ?Ho.
  - erewrite bind_Ret; [|reflexivity].
    unfold cycle_item. unfold_monad. simpl.
    by rewrite lookup_insert_eq, Ho.
Qed.

Lemma cycle_item_KeyError_witness :
  cycle_item "music" with_sound = (Raise (KeyError "music"), with_sound)
  ∧ (set_value "music" "YES" ;; cycle_item "music") with_sound
    = (Raise (KeyError "music"),
       with_self (with_settings <["music" := "YES"]>) with_sound).
Proof.
  apply (cycle_item_KeyError with_sound "music" "YES"). reflexivity.
Defined.

(* ===================================================================== *)
(** * Access by either name *)
(* ===================================================================== *)

(** X17.  Once a registration has gone through, the option is read
    through its internal name and through its on-disk field name alike:
    after [set_value], [__getattr__] returns the new value for both.  A
    name that is neither raises [KeyError]. *)
Theorem getattr_either_name (w : World)
  (name field_name default value : string) (vals : values)
  (fs : list string) :
  settings (self w) !! name = None →
  inverse_field_names (self w) !! name = None →
  has_option (self (recorded name field_name w)) field_name = Ret true →
  ∃ w',
    (create_option name field_name default vals fs ;;
     set_value name value) w = (Ret tt, w')
    ∧ __getattr__ name w' = (Ret value, w')
    ∧ __getattr__ field_name w' = (Ret value, w')
    ∧ ∀ other,
        inverse_field_names (self w') !! other = None →
        settings (self w') !! other = None →
        __getattr__ other w' = (Raise (KeyError other), w').
Proof.
  intros Hs Hi Hgate. eexists. split.
  { erewrite bind_Ret; [reflexivity|].
    by rewrite create_option_fresh, Hgate by done. }
  assert (∀ n, (if bool_decide (field_name ≠ name)
                then <[field_name := name]> (inverse_field_names (self w))
                else inverse_field_names (self w)) !! n
               = Some name ∨ n = name →
          __getattr__ n
            (with_self (with_settings <[name := value]>)
               (with_self (registered name field_name default vals fs) w))
          = (Ret value,
             with_self (with_settings <[name := value]>)
               (with_self (registered name field_name default vals fs)
                  w))) as Hget.
  { intros n Hn. unfold __getattr__. unfold_monad. simpl.
    destruct Hn as [-> | ->].
    - by rewrite lookup_insert_eq.
    - case_bool_decide as Hne.
      + rewrite lookup_insert_ne, Hi by done.
        by rewrite lookup_insert_eq.
      + rewrite Hi. by rewrite lookup_insert_eq. }
  split; [|split].
  - apply Hget. by right.
  - apply Hget. case_bool_decide as Hne.
    + left. apply lookup_insert_eq.
    + by right.
  - intros other Hio Hso. unfold __getattr__. unfold_monad.
    by rewrite Hio, Hso.
Qed.

Lemma getattr_either_name_witness :
  ∃ w',
    (create_option "sound" "SOUND" "YES" (Items ["YES"; "NO"])
       ["init.txt"] ;;
     set_value "sound" "NO") (world0 v0_40_24 ∅) = (Ret tt, w')
    ∧ __getattr__ "sound" w' = (Ret "NO", w')
    ∧ __getattr__ "SOUND" w' = (Ret "NO", w')
    ∧ ∀ other,
        inverse_field_names (self w') !! other = None →
        settings (self w') !! other = None →
        __getattr__ other w' = (Raise (KeyError other), w').
Proof.
  apply (getattr_either_name (world0 v0_40_24 ∅) "sound" "SOUND" "YES"
           "NO" (Items ["YES"; "NO"]) ["init.txt"]); reflexivity.
Defined.

(* ===================================================================== *)
(** * Creating a file *)
(* ===================================================================== *)



(* ===================================================================== *)
(** * The invariant of the registry *)
(* ===================================================================== *)

Lemma create_field_self (c : DFConfiguration) (filename field : string) :
  keeps (λ w, self w = c) (create_field filename field).
Proof.
  intros w Hw. unfold create_field. unfold_monad. unfold ret, raise.
  repeat (case_match; simplify_eq/=; try done).
Qed.

(** X19.  Every method keeps the registry well formed, whether it
    returns or raises: a name with a policy, a file set or a place in a
    bulk list has a value.  So [write_file], [create_file] and
    [cycle_item] find the value of every name they find a policy
    for. *)
Theorem methods_keep_wf (w : World) :
  wf (self w) →
  (∀ base_dir df, wf (self (__init__ base_dir df w).2))
  ∧ (∀ name field_name default vals fs,
       wf (self (create_option name field_name default vals fs w).2))
  ∧ (∀ name value, wf (self (set_value name value w).2))
  ∧ (∀ name, wf (self (cycle_item name w).2))
  ∧ (∀ filename fields auto_add,
       wf (self (read_file filename fields auto_add w).2))
  ∧ (∀ filename fields, wf (self (write_file filename fields w).2))
  ∧ (∀ filename fields, wf (self (create_file filename fields w).2)).
Proof.
  intros Hwf. split; [|split; [|split; [|split; [|split; [|split]]]]].
  - intros dir df.
    destruct (init_building dir df w) as (w' & -> & Hwf' & _).
    apply Hwf'.
  - intros. by apply create_option_wf.
  - intros. by apply set_value_wf.
  - intros name. by apply (cycle_item_wf name w).
  - intros filename fields auto_add.
    by apply (read_file_wf filename fields auto_add w).
  - intros filename fields. unfold write_file, read_text, write_text. unfold mbind, M_bind, bind.
    destruct (disk w !! filename) as [text|]; [|done].
    pose proof (write_fields_state fields text w) as Hst.
    destruct (write_fields text fields w) as [[text'|e] w1];
      simpl in *; by subst w1.
  - intros filename fields.
    assert (keeps (λ w', self w' = self w) (create_file filename fields))
      as Hkeeps.
    { unfold create_file. apply keeps_bind; [by intros w0 Hw0|].
      intros _. apply keeps_for_each. intros field.
      apply create_field_self. }
    by rewrite (Hkeeps w eq_refl).
Qed.

Lemma methods_keep_wf_witness :
  wf (self (read_file "init.txt" ["volume"] true volume_and_cap).2)
  ∧ wf (self (cycle_item "volume" volume_and_cap).2).
Proof.
  assert (wf (self volume_and_cap)) as Hwf.
  { apply create_option_wf, wf_empty. }
  destruct (methods_keep_wf volume_and_cap Hwf)
    as (_ & _ & _ & Hcycle & Hread & _).
  split; [apply Hread|apply Hcycle].
Defined.

(* ===================================================================== *)
(** * The field names of the catalog *)
(* ===================================================================== *)

(** Every recorded on-disk name is one that a pattern reads as a
    literal, and holds no carriage return. *)
Definition plain_fields (w : World) : Prop :=
  ∀ name field_name,
    field_names (self w) !! name = Some field_name →
    Re.literal field_name = true
    ∧ Str.mem carriage_return field_name = false.

Lemma create_option_plain_fields (name field_name default : string)
  (vals : values) (fs : list string) :
  Re.literal field_name = true →
  Str.mem carriage_return field_name = false →
  keeps plain_fields (create_option name field_name default vals fs).
Proof.
  intros Hlit Hcr w Hw.
  destruct (settings (self w) !! name) as [x|] eqn:Hs.
  { rewrite create_option_known; [done|]. left. by eexists. }
  destruct (inverse_field_names (self w) !! name) as [x|] eqn:Hi.
  { rewrite create_option_known; [done|]. right. by eexists. }
  rewrite create_option_fresh by done.
  destruct (has_option _ field_name) as [[]|e];
    unfold plain_fields, recorded, with_self; simpl; intros k v;
    (destruct (decide (name = k)) as [<-|Hne];
     [rewrite lookup_insert_eq; by intros [= <-]
     |rewrite lookup_insert_ne by done; apply Hw]).
Qed.

Lemma keeps_ret (P : World → Prop) : keeps P (ret tt).
Proof. by intros w Hw. Qed.

Lemma keeps_if {A} (P : World → Prop) (b : bool) (m1 m2 : M A) :
  keeps P m1 → keeps P m2 → keeps P (if b then m1 else m2).
Proof. by destruct b. Qed.

Ltac keep_plain_fields :=
  repeat first
    [ apply keeps_ret
    | apply create_option_plain_fields; reflexivity
    | apply keeps_if
    | apply keeps_bind; [|intros _] ].

(** X24.  Every on-disk field name that the constructor records, for
    any version and any variations, is made of characters that [re]
    reads as themselves, and holds no carriage return: the patterns
    that [read_file] and [write_file] build from the names of the
    catalog match those names and nothing else. *)
Theorem init_fields_literal (base_dir : string) (df : DFInstall)
  (w : World) (name field_name : string) :
  field_names (self (__init__ base_dir df w).2) !! name
  = Some field_name →
  Re.literal field_name = true
  ∧ Str.mem carriage_return field_name = false.
Proof.
  revert name field_name. change (plain_fields (__init__ base_dir df w).2).
  unfold __init__. cbv zeta.
  erewrite bind_Ret; [|reflexivity].
  match goal with
  | |- plain_fields (?m ?w1).2 =>
      cut (keeps plain_fields m);
      [intros Hkeeps; apply Hkeeps; intros k v H; simpl in H;
       by rewrite lookup_empty in H|]
  end.
  keep_plain_fields.
Qed.

Lemma init_fields_literal_witness :
  Re.literal "COFFIN_NO_PETS_DEFAULT" = true
  ∧ Str.mem carriage_return "COFFIN_NO_PETS_DEFAULT" = false.
Proof.
  apply (init_fields_literal "df" (str_install "0.40.24" [])
           (world0 v0_40_24 ∅) "entombPets").
  vm_compute. reflexivity.
Defined.

(* ===================================================================== *)
(** * Round trips through the file *)
(* ===================================================================== *)

(** The value that [read_file] stores for the group it captured. *)
Definition in_memory (vals : values) (group1 : string) : option string :=
  if bool_decide (vals = ForceBool) && negb (String.eqb group1 "NO")
  then Some "YES"
  else on_disk vals group1.

(** The text that [write_file] leaves when it writes [new] into the
    field [name]. *)
Definition rewritten (name new text : string) : string :=
  Re.sub (Re.field_value name) (λ _, token name new) text.

(** [version_has_option] returns, to [True] or to [False], for every
    name that the pattern of the automatic registration finds in
    [text]: no name with a capital initial is missing from the table. *)
Definition auto_registers (w : World) (text : string) : Prop :=
  Forall (λ match_ : string * string,
            ∃ supported,
              has_option (self (recorded match_.1 match_.1 w)) match_.1
              = Ret supported)
    (Re.findall Re.any_field text).

(** For a name recorded as its own field, the answer depends on the
    version only. *)
Lemma has_option_own_name (w w' : World) (n : string) :
  df_info (self w) = df_info (self w') →
  has_option (self (recorded n n w)) n
  = has_option (self (recorded n n w')) n.
Proof.
  intros Hinfo. unfold has_option, recorded, with_self.
  cbn [self field_names with_field_names df_info].
  by rewrite !lookup_insert_eq, Hinfo.
Qed.

Lemma auto_registers_info (w w' : World) (text : string) :
  df_info (self w) = df_info (self w') →
  auto_registers w text → auto_registers w' text.
Proof.
  intros Hinfo Hall. unfold auto_registers in *.
  eapply Forall_impl; [exact Hall|].
  intros [n v] [b Hb]. exists b. cbn [fst] in *.
  by rewrite <- (has_option_own_name w w' n Hinfo).
Qed.

(** What automatic registration keeps of a field that has a value. *)
Definition bound (w0 : World) (field : string) (w : World) : Prop :=
  is_Some (settings (self w) !! field)
  ∧ settings (self w) !! field = settings (self w0) !! field
  ∧ options (self w) !! field = options (self w0) !! field
  ∧ field_names (self w) !! field = field_names (self w0) !! field
  ∧ inverse_field_names (self w) = inverse_field_names (self w0)
  ∧ df_info (self w) = df_info (self w0)
  ∧ disk w = disk w0
  ∧ stderr w = stderr w0.

Lemma auto_register_bound (w0 : World) (filename field : string)
  (found : list (string * string)) (w : World) :
  bound w0 field w →
  Forall (λ match_ : string * string,
            ∃ supported,
              has_option (self (recorded match_.1 match_.1 w0)) match_.1
              = Ret supported) found →
  ∃ w',
    for_each found
      (λ match_, create_option match_.1 match_.1 match_.2 NoValues
                   [filename]) w = (Ret tt, w')
    ∧ bound w0 field w'.
Proof.
  intros Hb Hall. revert w Hb.
  induction Hall as [|[n v] found [b Hgate] _ IH]; intros w Hb.
  { by exists w. }
  cbn [for_each fst snd] in *.
  destruct (settings (self w) !! n) as [x|] eqn:Hs.
  { erewrite bind_Ret; [by apply IH|].
    apply create_option_known. left. by eexists. }
  destruct (inverse_field_names (self w) !! n) as [x|] eqn:Hi.
  { erewrite bind_Ret; [by apply IH|].
    apply create_option_known. right. by eexists. }
  destruct Hb as (Hsome & Hb1 & Hb2 & Hb3 & Hb4 & Hb5 & Hb6 & Hb7).
  assert (n ≠ field) as Hne.
  { intros ->. rewrite Hs in Hsome. by destruct Hsome. }
  assert (create_option n n v NoValues [filename] w
          = (Ret tt,
             if b then with_self (registered n n v NoValues [filename]) w
             else recorded n n w)) as Hcreate.
  { rewrite create_option_fresh by done.
    rewrite (has_option_own_name w w0 n Hb5), Hgate. by destruct b. }
  erewrite bind_Ret; [|exact Hcreate].
  apply IH. destruct b; unfold bound, recorded, with_self, registered;
    cbn [self disk stderr settings options field_names
         inverse_field_names df_info with_field_names];
    rewrite ?lookup_insert_ne by done;
    rewrite ?bool_decide_false by (by intros H; apply H);
    done.
Qed.

Lemma read_field_in_memory (w : World)
  (filename text field name pre v post back : string) (vals : values) :
  inverse_field_names (self w) !! field = None →
  options (self w) !! field = Some vals → vals ≠ Disabled →
  field_names (self w) !! field = Some name →
  Re.literal name = true →
  Re.search (Re.field_value name) text = Some (pre, v, post) →
  in_memory vals v = Some back →
  read_field filename text field w
  = (Ret tt, with_self (with_settings <[field := back]>) w).
Proof.
  intros Hi Ho Hd Hf Hlit E Hback. unfold read_field. unfold_monad.
  simpl. rewrite Hi, Ho. simpl. rewrite bool_decide_false by done.
  rewrite Hf, Hlit. simpl. rewrite E. unfold in_memory in Hback.
  destruct (bool_decide (vals = ForceBool) && negb (String.eqb v "NO")).
  { by injection Hback as <-. }
  unfold on_disk in Hback. destruct (bool_decide (vals = NegatedBool)).
  - by rewrite Hback.
  - by injection Hback as ->.
Qed.

(** Reading one field that the text holds, with or without automatic
    registration: the value in memory is the one made of the first
    token, whatever it was before. *)
Lemma read_file_in_memory (w : World)
  (filename text field name pre v post back : string) (vals : values)
  (auto_add : bool) :
  disk w !! filename = Some text →
  is_Some (settings (self w) !! field) →
  inverse_field_names (self w) !! field = None →
  options (self w) !! field = Some vals → vals ≠ Disabled →
  field_names (self w) !! field = Some name →
  Re.literal name = true →
  Re.search (Re.field_value name) text = Some (pre, v, post) →
  in_memory vals v = Some back →
  (auto_add = true → auto_registers w text) →
  ∃ w',
    read_file filename [field] auto_add w = (Ret tt, w')
    ∧ settings (self w') !! field = Some back
    ∧ disk w' = disk w
    ∧ stderr w' = stderr w.
Proof.
  intros Hd Hsome Hi Ho Hne Hf Hlit E Hback Hauto.
  assert (∃ w1,
            (if auto_add
             then for_each (Re.findall Re.any_field text)
                    (λ match_, create_option match_.1 match_.1 match_.2
                                 NoValues [filename])
             else ret tt) w = (Ret tt, w1)
            ∧ bound w field w1) as (w1 & E1 & Hb).
  { assert (bound w field w) as Hb by done.
    destruct auto_add; [|by exists w].
    apply auto_register_bound; [done|]. by apply Hauto. }
  destruct Hb as (_ & Hb1 & Hb2 & Hb3 & Hb4 & Hb5 & Hb6 & Hb7).
  exists (with_self (with_settings <[field := back]>) w1).
  split; [|split; [|split]]; try done.
  - unfold read_file. erewrite bind_Ret; cycle 1.
    { unfold read_text. by rewrite Hd. }
    erewrite bind_Ret; [|exact E1].
    cbn [for_each]. erewrite bind_Ret; [reflexivity|].
    eapply read_field_in_memory; try done; congruence.
  - simpl. apply lookup_insert_eq.
Qed.

(** Set, write, read.  The first token of the text that was written
    holds the value as it stands on disk, and the read makes the value
    in memory of it: also when the value in memory was set to another
    one between the write and the read. *)
Lemma set_write_read (w : World)
  (filename text field name value new back pre0 v0 post0 : string)
  (vals : values) (auto_add : bool) :
  disk w !! filename = Some text →
  Str.mem carriage_return text = false →
  options (self w) !! field = Some vals → vals ≠ Disabled →
  field_names (self w) !! field = Some name →
  inverse_field_names (self w) !! field = None →
  Re.literal name = true →
  token_at name text pre0 v0 post0 →
  on_disk vals value = Some new → in_memory vals new = Some back →
  captured new = true → Re.plain_template new = true →
  Str.mem carriage_return new = false →
  (auto_add = true → auto_registers w (rewritten name new text)) →
  ∃ w' text' pre post,
    (set_value field value ;; write_file filename [field] ;;
     read_file filename [field] auto_add) w = (Ret tt, w')
    ∧ settings (self w') !! field = Some back
    ∧ stderr w' = stderr w
    ∧ disk w' !! filename = Some text'
    ∧ Str.mem carriage_return text' = false
    ∧ first_token name text' pre new post
    ∧ ∀ other, ∃ w'',
        (set_value field value ;; write_file filename [field] ;;
         set_value field other ;;
         read_file filename [field] auto_add) w = (Ret tt, w'')
        ∧ settings (self w'') !! field = Some back.
Proof.
  intros Hd Hcr Ho Hne Hf Hi Hlit Htok Hnew Hback Hcap Hplain Hncr Hauto.
  destruct (token_at_first _ _ _ _ _ Htok) as (pre & v & post & Hfirst).
  apply search_first_token in Hfirst.
  set (w1 := with_self (with_settings <[field := value]>) w).
  set (text' := rewritten name new text) in *.
  set (w2 := with_disk <[filename := text']> w1).
  pose proof (search_after_sub name new text pre v post Hcap Hfirst)
    as Hsearch. fold (rewritten name new text) in Hsearch.
  fold text' in Hsearch.
  assert (write_file filename [field] w1 = (Ret tt, w2)) as Hwrite.
  { eapply (write_file_one w1 filename text text'); [done|].
    eapply write_field_value; eauto using plain_token.
    simpl. apply lookup_insert_eq. }
  assert (∀ w3, self w3 = self w2 ∨
                (∃ other,
                   self w3 = with_settings <[field := other]> (self w2)) →
                disk w3 = disk w2 → stderr w3 = stderr w2 →
                ∃ w', read_file filename [field] auto_add w3 = (Ret tt, w')
                      ∧ settings (self w') !! field = Some back
                      ∧ disk w' = disk w2 ∧ stderr w' = stderr w2)
    as Hread.
  { intros w3 Hself Hdisk Herr.
    destruct (read_file_in_memory w3 filename text' field name pre new
                (rewritten name new post) back vals auto_add)
      as (w' & Hr & Hs & Hd' & He'); try done.
    - rewrite Hdisk. simpl. apply lookup_insert_eq.
    - destruct Hself as [->|[other ->]]; simpl.
      + rewrite lookup_insert_eq. by eexists.
      + rewrite lookup_insert_eq. by eexists.
    - by destruct Hself as [->|[other ->]].
    - by destruct Hself as [->|[other ->]].
    - by destruct Hself as [->|[other ->]].
    - intros Ha. eapply auto_registers_info; [|by apply Hauto].
      by destruct Hself as [->|[other ->]].
    - exists w'. by rewrite <- Hdisk, <- Herr. }
  destruct (Hread w2) as (w' & Hr & Hs & Hd' & He'); [by left|done|done|].
  exists w', text', pre, (rewritten name new post).
  split; [|split; [|split; [|split; [|split; [|split]]]]].
  - erewrite bind_Ret; [|reflexivity]. fold w1.
    by erewrite bind_Ret; [|exact Hwrite].
  - done.
  - by rewrite He'.
  - rewrite Hd'. simpl. apply lookup_insert_eq.
  - by apply sub_field_lacks.
  - apply search_first_token, Hsearch.
  - intros other.
    destruct (Hread (with_self (with_settings <[field := other]>) w2))
      as (w'' & Hr' & Hs' & _); [right; by exists other|done|done|].
    exists w''. split; [|done].
    erewrite bind_Ret; [|reflexivity]. fold w1.
    erewrite bind_Ret; [|exact Hwrite].
    by erewrite bind_Ret; [|reflexivity].
Qed.

(** C2 (amended).  For an option without a list of values whose on-disk
    name has no operator character of [re], and a value that is not
    empty and holds no closing bracket, no line feed, no carriage return
    and no backslash: set, write and read back end with that value in
    memory, and no warning is printed.  The value is read from the first
    token of the file: the read gives it also when the value in memory
    was set to any other one after the write.  With automatic
    registration the same holds when [version_has_option] raises for no
    name found in the file. *)
Theorem write_then_read_unconstrained (w : World)
  (filename text field name V pre0 v0 post0 : string) (auto_add : bool) :
  disk w !! filename = Some text →
  Str.mem carriage_return text = false →
  options (self w) !! field = Some NoValues →
  field_names (self w) !! field = Some name →
  inverse_field_names (self w) !! field = None →
  Re.literal name = true →
  token_at name text pre0 v0 post0 →
  V ≠ "" → Str.mem "]" V = false → Str.mem newline V = false →
  Str.mem carriage_return V = false → Str.mem "\" V = false →
  (auto_add = true → auto_registers w (rewritten name V text)) →
  ∃ w' text' pre post,
    (set_value field V ;; write_file filename [field] ;;
     read_file filename [field] auto_add) w = (Ret tt, w')
    ∧ settings (self w') !! field = Some V
    ∧ stderr w' = stderr w
    ∧ disk w' !! filename = Some text'
    ∧ Str.mem carriage_return text' = false
    ∧ first_token name text' pre V post
    ∧ ∀ other, ∃ w'',
        (set_value field V ;; write_file filename [field] ;;
         set_value field other ;;
         read_file filename [field] auto_add) w = (Ret tt, w'')
        ∧ settings (self w'') !! field = Some V.
Proof.
  intros Hd Hcr Ho Hf Hi Hlit Htok Hne Hbr Hnl Hncr Hbs Hauto.
  eapply (set_write_read w filename text field name V V V); eauto.
  - by apply captured_intro.
  - unfold Re.plain_template. by rewrite Hbs.
Qed.

Lemma write_then_read_unconstrained_witness :
  ∃ w' text' pre post,
    (set_value "volume" "128" ;; write_file "init.txt" ["volume"] ;;
     read_file "init.txt" ["volume"] true) volume_and_cap = (Ret tt, w')
    ∧ settings (self w') !! "volume" = Some "128"
    ∧ stderr w' = stderr volume_and_cap
    ∧ disk w' !! "init.txt" = Some text'
    ∧ Str.mem carriage_return text' = false
    ∧ first_token "VOLUME" text' pre "128" post
    ∧ ∀ other, ∃ w'',
        (set_value "volume" "128" ;; write_file "init.txt" ["volume"] ;;
         set_value "volume" other ;;
         read_file "init.txt" ["volume"] true) volume_and_cap
        = (Ret tt, w'')
        ∧ settings (self w'') !! "volume" = Some "128".
Proof.
  apply (write_then_read_unconstrained volume_and_cap "init.txt"
           "[VOLUME:255] [FPS_CAP:100]" "volume" "VOLUME" "128"
           "" "255" " [FPS_CAP:100]" true); try reflexivity.
  - by split.
  - discriminate.
  - intros _. unfold auto_registers.
    change (Re.findall Re.any_field
              (rewritten "VOLUME" "128" "[VOLUME:255] [FPS_CAP:100]"))
      with [("VOLUME", "128"); ("FPS_CAP", "100")].
    repeat (constructor; [by exists true|]). constructor.
Defined.

(** The registry that the constructor builds for version 0.40.24, with
    a [d_init.txt] that holds the field of [entombPets]. *)
Definition installed : World :=
  (__init__ "df" (str_install "0.40.24" [])
     (world0 v0_40_24
        {["df/data/init/d_init.txt" := "[COFFIN_NO_PETS_DEFAULT:YES]"]})).2.

(** C6.  For a negated boolean whose field is in the file: set to
    ["YES"], write, read back gives ["YES"], the first token on disk
    holds ["NO"], and no warning is printed.  The two swaps take place:
    the read gives ["YES"] also when the value in memory was set to any
    other one after the write.  The on-disk name has no operator
    character of [re], as no name of the catalog has; with automatic
    registration, [version_has_option] raises for no name found in the
    file. *)
Theorem negated_bool_roundtrip (w : World)
  (filename text field name pre0 v0 post0 : string) (auto_add : bool) :
  disk w !! filename = Some text →
  Str.mem carriage_return text = false →
  options (self w) !! field = Some NegatedBool →
  field_names (self w) !! field = Some name →
  inverse_field_names (self w) !! field = None →
  Re.literal name = true →
  token_at name text pre0 v0 post0 →
  (auto_add = true → auto_registers w (rewritten name "NO" text)) →
  ∃ w' text' pre post,
    (set_value field "YES" ;; write_file filename [field] ;;
     read_file filename [field] auto_add) w = (Ret tt, w')
    ∧ settings (self w') !! field = Some "YES"
    ∧ stderr w' = stderr w
    ∧ disk w' !! filename = Some text'
    ∧ Str.mem carriage_return text' = false
    ∧ first_token name text' pre "NO" post
    ∧ ∀ other, ∃ w'',
        (set_value field "YES" ;; write_file filename [field] ;;
         set_value field other ;;
         read_file filename [field] auto_add) w = (Ret tt, w'')
        ∧ settings (self w'') !! field = Some "YES".
Proof.
  intros Hd Hcr Ho Hf Hi Hlit Htok Hauto.
  by eapply (set_write_read w filename text field name "YES" "NO" "YES").
Qed.

Lemma negated_bool_roundtrip_witness :
  ∃ w' text' pre post,
    (set_value "entombPets" "YES" ;;
     write_file "df/data/init/d_init.txt" ["entombPets"] ;;
     read_file "df/data/init/d_init.txt" ["entombPets"] true) installed
    = (Ret tt, w')
    ∧ settings (self w') !! "entombPets" = Some "YES"
    ∧ stderr w' = stderr installed
    ∧ disk w' !! "df/data/init/d_init.txt" = Some text'
    ∧ Str.mem carriage_return text' = false
    ∧ first_token "COFFIN_NO_PETS_DEFAULT" text' pre "NO" post
    ∧ ∀ other, ∃ w'',
        (set_value "entombPets" "YES" ;;
         write_file "df/data/init/d_init.txt" ["entombPets"] ;;
         set_value "entombPets" other ;;
         read_file "df/data/init/d_init.txt" ["entombPets"] true)
          installed = (Ret tt, w'')
        ∧ settings (self w'') !! "entombPets" = Some "YES".
Proof.
  apply (negated_bool_roundtrip installed "df/data/init/d_init.txt"
           "[COFFIN_NO_PETS_DEFAULT:YES]" "entombPets"
           "COFFIN_NO_PETS_DEFAULT" "" "YES" "" true).
  - vm_compute. reflexivity.
  - reflexivity.
  - vm_compute. reflexivity.
  - vm_compute. reflexivity.
  - vm_compute. reflexivity.
  - reflexivity.
  - by split.
  - intros _. unfold auto_registers.
    change (Re.findall Re.any_field
              (rewritten "COFFIN_NO_PETS_DEFAULT" "NO"
                 "[COFFIN_NO_PETS_DEFAULT:YES]"))
      with [("COFFIN_NO_PETS_DEFAULT", "NO")].
    constructor; [|constructor]. exists true. vm_compute. reflexivity.
Defined.

(* ===================================================================== *)
(** * Round trips by policy *)
(* ===================================================================== *)

(** X20.  A forced boolean does not keep every value: set, write and
    read back give ["NO"] for ["NO"] and ["YES"] for any other value,
    whose text stays in the file as it was written.  The value holds no
    carriage return and no backslash, and is one that the pattern
    captures; what the read gives does not depend on the value in
    memory before it. *)
Theorem force_bool_roundtrip (w : World)
  (filename text field name V pre0 v0 post0 : string) (auto_add : bool) :
  disk w !! filename = Some text →
  Str.mem carriage_return text = false →
  options (self w) !! field = Some ForceBool →
  field_names (self w) !! field = Some name →
  inverse_field_names (self w) !! field = None →
  Re.literal name = true →
  token_at name text pre0 v0 post0 →
  captured V = true → Re.plain_template V = true →
  Str.mem carriage_return V = false →
  (auto_add = true → auto_registers w (rewritten name V text)) →
  ∃ w' text' pre post,
    (set_value field V ;; write_file filename [field] ;;
     read_file filename [field] auto_add) w = (Ret tt, w')
    ∧ settings (self w') !! field
      = Some (if String.eqb V "NO" then "NO" else "YES")
    ∧ disk w' !! filename = Some text'
    ∧ Str.mem carriage_return text' = false
    ∧ first_token name text' pre V post
    ∧ ∀ other, ∃ w'',
        (set_value field V ;; write_file filename [field] ;;
         set_value field other ;;
         read_file filename [field] auto_add) w = (Ret tt, w'')
        ∧ settings (self w'') !! field
          = Some (if String.eqb V "NO" then "NO" else "YES").
Proof.
  intros Hd Hcr Ho Hf Hi Hlit Htok Hcap Hplain Hncr Hauto.
  destruct (set_write_read w filename text field name V V
              (if String.eqb V "NO" then "NO" else "YES")
              pre0 v0 post0 ForceBool auto_add)
    as (w' & text' & pre & post & H1 & H2 & _ & H4 & H5 & H6 & H7);
    try done.
  - unfold in_memory. destruct (String.eqb_spec V "NO") as [->|]; done.
  - by exists w', text', pre, post.
Qed.

Lemma force_bool_roundtrip_witness :
  ∃ w' text' pre post,
    (set_value "truetype" "12" ;; write_file "init.txt" ["truetype"] ;;
     read_file "init.txt" ["truetype"] false) truetype_24 = (Ret tt, w')
    ∧ settings (self w') !! "truetype"
      = Some (if String.eqb "12" "NO" then "NO" else "YES")
    ∧ disk w' !! "init.txt" = Some text'
    ∧ Str.mem carriage_return text' = false
    ∧ first_token "TRUETYPE" text' pre "12" post
    ∧ ∀ other, ∃ w'',
        (set_value "truetype" "12" ;; write_file "init.txt" ["truetype"] ;;
         set_value "truetype" other ;;
         read_file "init.txt" ["truetype"] false) truetype_24
        = (Ret tt, w'')
        ∧ settings (self w'') !! "truetype"
          = Some (if String.eqb "12" "NO" then "NO" else "YES").
Proof.
  apply (force_bool_roundtrip truetype_24 "init.txt" "[TRUETYPE:24]"
           "truetype" "TRUETYPE" "12" "" "24" "" false).
  - reflexivity.
  - reflexivity.
  - reflexivity.
  - reflexivity.
  - reflexivity.
  - reflexivity.
  - by split.
  - reflexivity.
  - reflexivity.
  - reflexivity.
  - discriminate.
Defined.

(** X21.  A list of valid values is used for cycling only: for an
    option with such a list, any value that is not empty and has no
    closing bracket, line feed, carriage return or backslash, in the
    list or not, is written and read back as it is, whatever the value
    in memory is when the file is read. *)
Theorem items_roundtrip (w : World)
  (filename text field name V pre0 v0 post0 : string)
  (items : list string) (auto_add : bool) :
  disk w !! filename = Some text →
  Str.mem carriage_return text = false →
  options (self w) !! field = Some (Items items) →
  field_names (self w) !! field = Some name →
  inverse_field_names (self w) !! field = None →
  Re.literal name = true →
  token_at name text pre0 v0 post0 →
  V ≠ "" → Str.mem "]" V = false → Str.mem newline V = false →
  Str.mem carriage_return V = false → Str.mem "\" V = false →
  (auto_add = true → auto_registers w (rewritten name V text)) →
  ∃ w' text' pre post,
    (set_value field V ;; write_file filename [field] ;;
     read_file filename [field] auto_add) w = (Ret tt, w')
    ∧ settings (self w') !! field = Some V
    ∧ stderr w' = stderr w
    ∧ disk w' !! filename = Some text'
    ∧ Str.mem carriage_return text' = false
    ∧ first_token name text' pre V post
    ∧ ∀ other, ∃ w'',
        (set_value field V ;; write_file filename [field] ;;
         set_value field other ;;
         read_file filename [field] auto_add) w = (Ret tt, w'')
        ∧ settings (self w'') !! field = Some V.
Proof.
  intros Hd Hcr Ho Hf Hi Hlit Htok Hne Hbr Hnl Hncr Hbs Hauto.
  eapply (set_write_read w filename text field name V V V); eauto.
  - by apply captured_intro.
  - unfold Re.plain_template. by rewrite Hbs.
Qed.

Lemma items_roundtrip_witness :
  ∃ w' text' pre post,
    (set_value "sound" "LOUD" ;; write_file "init.txt" ["sound"] ;;
     read_file "init.txt" ["sound"] false) one_sound = (Ret tt, w')
    ∧ settings (self w') !! "sound" = Some "LOUD"
    ∧ stderr w' = stderr one_sound
    ∧ disk w' !! "init.txt" = Some text'
    ∧ Str.mem carriage_return text' = false
    ∧ first_token "SOUND" text' pre "LOUD" post
    ∧ ∀ other, ∃ w'',
        (set_value "sound" "LOUD" ;; write_file "init.txt" ["sound"] ;;
         set_value "sound" other ;;
         read_file "init.txt" ["sound"] false) one_sound = (Ret tt, w'')
        ∧ settings (self w'') !! "sound" = Some "LOUD".
Proof.
  apply (items_roundtrip one_sound "init.txt"
           "Sound [SOUND:YES] [VOLUME:255]" "sound" "SOUND" "LOUD"
           "Sound " "YES" " [VOLUME:255]" ["YES"; "NO"] false).
  - reflexivity.
  - reflexivity.
  - reflexivity.
  - reflexivity.
  - reflexivity.
  - reflexivity.
  - by split.
  - discriminate.
  - reflexivity.
  - reflexivity.
  - reflexivity.
  - reflexivity.
  - discriminate.
Defined.

Lemma mem_suffix (c : ascii) (body e f : string) :
  body +:+ String c "" = e +:+ f → f ≠ "" → Str.mem c f = true.
Proof.
  intros Heq Hf.
  destruct (str_app_eq_app _ _ _ _ Heq) as [(g & -> & Hg)|(g & -> & ->)].
  - destruct g as [|x g].
    + rewrite str_app_nil_l in Hg. subst f. cbn [Str.mem].
      by rewrite Ascii.eqb_refl.
    + rewrite str_app_cons in Hg. injection Hg as <- Hg.
      destruct g; [|done]. rewrite str_app_nil_l in Hg. by subst f.
  - rewrite str_mem_app. cbn [Str.mem].
    by rewrite Ascii.eqb_refl, orb_true_r.
Qed.

(** After every occurrence of a bracketed literal was replaced by a text
    of the same length without brackets, the literal occurs nowhere. *)
Lemma replace_leaves_none (body new text : string) :
  let old := String "[" body +:+ "]" in
  Str.mem "[" new = false → Str.mem "]" new = false →
  String.length new = String.length old →
  absent old (Re.replace old new text).
Proof.
  intros old Hopen Hclose Hlen. unfold Re.replace.
  assert (old ≠ "") as Hold by done.
  assert (new ≠ "") as Hnew by (intros ->; by destruct body).
  remember (String.length text) as n eqn:Hn.
  revert text Hn. induction (lt_wf n) as [n _ IH]. intros text ->.
  rewrite sub_unfold by by apply lit_consumes.
  destruct (Re.search (Re.lit old) text) as [[[pre []] post]|] eqn:E;
    [|by apply search_absent].
  assert (absent old (Re.sub (Re.lit old) (λ _, new) post)) as IHpost.
  { eapply IH; [|done]. eapply search_shorter; [|exact E].
    by apply lit_consumes. }
  set (S := Re.sub (Re.lit old) (λ _, new) post) in *.
  intros a b Heq.
  destruct (str_app_eq_app _ _ _ _ Heq) as [(e & -> & He)|(e & -> & He)].
  - (* the occurrence starts in the replacement or after it *)
    destruct (str_app_eq_app _ _ _ _ He)
      as [(f & -> & Hf)|(f & Hnew' & Hf)].
    + by apply (IHpost f b).
    + destruct f as [|c f].
      * rewrite str_app_nil_l in Hf. by apply (IHpost "" b).
      * unfold old in Hf. rewrite !str_app_cons in Hf.
        injection Hf as <- _. rewrite Hnew', str_mem_app in Hopen.
        cbn [Str.mem] in Hopen.
        by rewrite Ascii.eqb_refl, orb_true_l, orb_true_r in Hopen.
  - (* the occurrence starts before the replacement *)
    destruct (search_Some _ _ _ _ _ E) as (t & Ht & Hm).
    apply lit_Some in Hm. subst t.
    assert (∀ f, e = old +:+ f → False) as Hearly.
    { intros f ->.
      assert (Re.lit old (old +:+ f +:+ old +:+ post) = None) as Hnone.
      { apply (search_leftmost _ _ _ _ _ E a).
        - by rewrite Ht, !str_app_assoc.
        - rewrite !str_length_app. destruct body; simpl; lia. }
      by rewrite (proj2 (lit_Some old _ _) eq_refl) in Hnone. }
    destruct (str_app_eq_app _ _ _ _ He)
      as [(f & -> & Hf)|(f & Hold' & Hf)].
    { by apply (Hearly f). }
    destruct f as [|c f].
    { rewrite str_app_nil_r in Hold'. apply (Hearly "").
      by rewrite str_app_nil_r. }
    destruct e as [|c' e].
    { rewrite str_app_nil_l in He. destruct new as [|x new]; [done|].
      unfold old in He. rewrite !str_app_cons in He.
      injection He as <- _. cbn [Str.mem] in Hopen.
      by rewrite Ascii.eqb_refl in Hopen. }
    assert (Str.mem "]" (String c f) = true) as Hin.
    { eapply (mem_suffix "]" (String "[" body)); [|done].
      fold old. exact Hold'. }
    destruct (str_app_eq_app _ _ _ _ Hf)
      as [(g & Hg & _)|(g & Hg & _)].
    + apply (f_equal String.length) in Hg, Hold'.
      rewrite !str_length_app in *. simpl in *. lia.
    + rewrite Hg, str_mem_app, Hin in Hclose. done.
Qed.

(** X22.  Switching a bracket toggle off holds through a read: for a
    field name without brackets, after [set_value] to ["NO"] and
    [write_file], no [[F]] is left in the file, so [read_file] does not
    turn the value back to ["YES"]. *)
Theorem toggle_off_roundtrip (w : World)
  (filename text field name : string) :
  disk w !! filename = Some text →
  options (self w) !! field = Some Disabled →
  field_names (self w) !! field = Some name →
  inverse_field_names (self w) !! field = None →
  Str.mem "[" name = false → Str.mem "]" name = false →
  ∃ w' text',
    (set_value field "NO" ;; write_file filename [field] ;;
     read_file filename [field] false) w = (Ret tt, w')
    ∧ settings (self w') !! field = Some "NO"
    ∧ disk w' !! filename = Some text'
    ∧ absent (enabled name) text'.
Proof.
  intros Hd Ho Hf Hi Hopen Hclose.
  set (w1 := with_self (with_settings <[field := "NO"]>) w).
  set (text' := Re.replace (enabled name) (disabled name) text).
  set (w2 := with_disk <[filename := text']> w1).
  assert (absent (enabled name) text') as Habs.
  { change (enabled name) with (String "[" name +:+ "]").
    apply replace_leaves_none.
    - unfold disabled. rewrite !str_mem_app, Hopen. done.
    - unfold disabled. rewrite !str_mem_app, Hclose. done.
    - unfold disabled. rewrite !str_length_app. simpl. lia. }
  exists w2, text'. split; [|split; [|split]].
  - erewrite bind_Ret; [|reflexivity]. fold w1.
    erewrite bind_Ret; cycle 1.
    { eapply (write_file_one w1 filename text text'); [done|].
      erewrite (write_field_toggle w1 text field name "NO");
        [by rewrite String.eqb_refl|done| |done].
      simpl. apply lookup_insert_eq. }
    fold w2. eapply read_file_one.
    + simpl. apply lookup_insert_eq.
    + unfold read_field. unfold_monad. simpl. rewrite Hi, Ho. simpl.
      rewrite Hf. fold (enabled name).
      destruct (Re.contains (enabled name) text') eqn:E; [|done].
      apply contains_occurrence in E as (pre & post & E).
      by destruct (Habs pre post).
  - simpl. apply lookup_insert_eq.
  - simpl. apply lookup_insert_eq.
  - done.
Qed.

Lemma toggle_off_roundtrip_witness :
  ∃ w' text',
    (set_value "aquifers" "NO" ;; write_file "stone.txt" ["aquifers"] ;;
     read_file "stone.txt" ["aquifers"] false) two_aquifers
    = (Ret tt, w')
    ∧ settings (self w') !! "aquifers" = Some "NO"
    ∧ disk w' !! "stone.txt" = Some text'
    ∧ absent (enabled "AQUIFER") text'.
Proof.
  apply (toggle_off_roundtrip two_aquifers "stone.txt"
           "[AQUIFER] [SOIL] [AQUIFER]" "aquifers" "AQUIFER");
    reflexivity.
Defined.

(* ===================================================================== *)
(** * What automatic registration registers *)
(* ===================================================================== *)

(** All that [read_field] does to the registry is to give a value to a
    name that has a policy. *)
Lemma read_field_effect (filename text field : string) (w : World) :
  self (read_field filename text field w).2 = self w
  ∨ ∃ f value,
      is_Some (options (self w) !! f)
      ∧ self (read_field filename text field w).2
        = with_settings <[f := value]> (self w).
Proof.
  unfold read_field. unfold_monad. unfold ret, raise.
  repeat (case_match; simplify_eq/=; try (by left));
    right; eexists _, _; (split; [|reflexivity]); by eexists.
Qed.

(** Every name with a value had one in [c0], or is an option without a
    list of values, bound to the one file, with its name as field. *)
Definition discovered (filename : string) (c0 : DFConfiguration)
  (w : World) : Prop :=
  wf (self w)
  ∧ ∀ n, is_Some (settings (self w) !! n) →
      is_Some (settings c0 !! n)
      ∨ (options (self w) !! n = Some NoValues
         ∧ files (self w) !! n = Some [filename]
         ∧ field_names (self w) !! n = Some n).

Lemma create_option_discovered (filename : string) (c0 : DFConfiguration)
  (name value : string) :
  keeps (discovered filename c0)
    (create_option name name value NoValues [filename]).
Proof.
  intros w [Hwf Hdisc]. split; [by apply create_option_wf|].
  destruct (settings (self w) !! name) as [v|] eqn:Hs.
  { rewrite create_option_known; [done|]. left. by eexists. }
  destruct (inverse_field_names (self w) !! name) as [v|] eqn:Hi.
  { rewrite create_option_known; [done|]. right. by eexists. }
  rewrite create_option_fresh by done.
  destruct (has_option _ name) as [[]|e]; simpl; intros n;
    (destruct (decide (name = n)) as [<-|Hne];
     [|rewrite !lookup_insert_ne by done; apply Hdisc]).
  - intros _. right. by rewrite !lookup_insert_eq.
  - rewrite Hs. by intros [? ?].
  - rewrite Hs. by intros [? ?].
Qed.

Lemma read_field_discovered (filename : string) (c0 : DFConfiguration)
  (text field : string) :
  keeps (discovered filename c0) (read_field filename text field).
Proof.
  intros w [Hwf Hdisc]. unfold discovered.
  destruct (read_field_effect filename text field w)
    as [E|(f & value & Hopt & E)]; rewrite E; [done|].
  split; [by apply wf_with_settings|]. simpl. intros n Hn.
  apply Hdisc. destruct (decide (f = n)) as [<-|Hne].
  - by apply (wf_options _ Hwf).
  - by rewrite lookup_insert_ne in Hn.
Qed.

(** X23.  Whatever the text and the fields, an option that [read_file]
    registers has no list of values, is bound to the file that was
    read, and has its name as on-disk field: every name that has a
    value after the call and had none before is such an option. *)
Theorem read_file_registers_unconstrained (w : World) (filename : string)
  (fields : list string) (auto_add : bool) (n : string) :
  wf (self w) →
  settings (self w) !! n = None →
  is_Some (settings (self (read_file filename fields auto_add w).2) !! n) →
  options (self (read_file filename fields auto_add w).2) !! n
  = Some NoValues
  ∧ files (self (read_file filename fields auto_add w).2) !! n
    = Some [filename]
  ∧ field_names (self (read_file filename fields auto_add w).2) !! n
    = Some n.
Proof.
  intros Hwf Hs Hafter.
  assert (keeps (discovered filename (self w))
            (read_file filename fields auto_add)) as Hkeeps.
  { unfold read_file. apply keeps_bind.
    { intros w0 Hw0. unfold read_text. by case_match. }
    intros text. apply keeps_bind.
    - destruct auto_add; [|by intros w0 Hw0].
      apply keeps_for_each. intros [k v].
      apply create_option_discovered.
    - intros _. apply keeps_for_each. intros field.
      apply read_field_discovered. }
  destruct (Hkeeps w) as [_ Hdisc].
  { split; [done|]. intros k Hk. by left. }
  destruct (Hdisc n Hafter) as [[v Hv]|H]; [congruence|done].
Qed.

(** An [init.txt] with a field that no option is registered for. *)
Definition with_zoom : World :=
  world0 v0_40_24 {["init.txt" := "[ZOOM_SPEED:10]"]}.

Lemma read_file_registers_unconstrained_witness :
  options (self (read_file "init.txt" [] true with_zoom).2)
    !! "ZOOM_SPEED" = Some NoValues
  ∧ files (self (read_file "init.txt" [] true with_zoom).2)
      !! "ZOOM_SPEED" = Some ["init.txt"]
  ∧ field_names (self (read_file "init.txt" [] true with_zoom).2)
      !! "ZOOM_SPEED" = Some "ZOOM_SPEED".
Proof.
  apply (read_file_registers_unconstrained with_zoom "init.txt" [] true
           "ZOOM_SPEED").
  - apply wf_empty.
  - reflexivity.
  - by eexists.
Defined.
